(** * indirect_value: a value-semantic owning wrapper (isocpp_p1950)

    Shallow embedding of [indirect_value.h].  The wrapper owns one heap
    allocation through a raw pointer [ptr_] and two policy objects, the copier
    [c_] and the deleter [d_].  C++ objects live in memory and are passed by
    reference, so the embedding keeps a store of wrapper objects indexed by
    their address ([objs]) next to the store of pointees ([heap]); every member
    function takes the address [this] of the object it runs on.  Exceptions are
    an outcome of a state transformer whose state survives the throw, as in
    C++; dereferencing a pointer that designates no live object is the outcome
    [Undefined]. *)

From stdpp Require Import base numbers option list gmap.

Set Default Proof Using "Type".

(** ** Pointers, exceptions, outcomes *)

(** [T*] is an address; [nullptr] is address 0, which is never allocated. *)
Abbreviation nullptr := 0%N (only parsing).

Inductive exn :=
| bad_indirect_value_access
| policy_error (code : N).

Inductive outcome (A : Type) :=
| Ok (a : A)
| Throw (e : exn)
| Undefined.
Arguments Ok {A} a.
Arguments Throw {A} e.
Arguments Undefined {A}.

(** What the user code that the wrapper calls may do: return or throw. *)
Inductive fallible (A : Type) :=
| Returns (a : A)
| Throws (e : exn).
Arguments Returns {A} a.
Arguments Throws {A} e.

Definition to_outcome {A} (r : fallible A) : outcome A :=
  match r with
  | Returns a => Ok a
  | Throws e => Throw e
  end.

(** ** The special member functions of a policy type

    [C] and [D] are template parameters: all the wrapper knows of them is that
    they can be default constructed, copied and moved.  A copy may throw; the
    wrapper's move operations are [noexcept], so a move is total.  A copy
    assignment that throws still leaves some state in its left operand. *)
Class SpecialMembers (P : Type) := {
  default_construct : P;
  copy_construct : P → fallible P;
  copy_assign : P → P → P * fallible ();
  move_construct : P → P * P;
  move_assign : P → P → P * P;
}.

(** Policies with value semantics: a copy is the value copied, a move hands
    over the value. *)
Class ValueSemantic (P : Type) `{SpecialMembers P} : Prop := {
  copy_construct_value p p' : copy_construct p = Returns p' → p' = p;
  copy_assign_value l r l' : copy_assign l r = (l', Returns ()) → l' = r;
  move_construct_value p : (move_construct p).1 = p;
  move_assign_value l r : (move_assign l r).1 = r;
}.

(** ** The comparison operators between two types *)
Class Comparable (A B : Type) := {
  eq_op : A → B → bool;
  ne_op : A → B → bool;
  lt_op : A → B → bool;
  gt_op : A → B → bool;
  le_op : A → B → bool;
  ge_op : A → B → bool;
}.

(** [std::strong_ordering], as far as the header uses it. *)
Inductive ordering := less | equal | greater.

(** [bool(a) <=> bool(b)] *)
Definition bool_three_way (a b : bool) : ordering :=
  match a, b with
  | false, true => less
  | true, false => greater
  | _, _ => equal
  end.

(** [std::is_lt], [std::is_gt], [std::is_lteq], [std::is_gteq]: how [<], [>],
    [<=], [>=] are read off a three-way result. *)
Definition is_lt (o : ordering) : bool :=
  match o with less => true | _ => false end.
Definition is_gt (o : ordering) : bool :=
  match o with greater => true | _ => false end.
Definition is_lteq (o : ordering) : bool := negb (is_gt o).
Definition is_gteq (o : ordering) : bool := negb (is_lt o).

(** ** The wrapper object

    [c_] and [d_] are the policy objects kept by the base classes
    [indirect_value_copy_base] and [indirect_value_delete_base]; whether a
    policy sits there as a member or as an empty base is a matter of layout,
    and both specialisations give the same [get()].  So [get_c()],
    [get_copier()] and [get_d()], [get_deleter()] are the projections [c_] and
    [d_]. *)

Record indirect_value (C D : Type) := IndirectValue {
  c_ : C;
  d_ : D;
  ptr_ : N;
}.
Arguments IndirectValue {C D} c_ d_ ptr_.
Arguments c_ {C D} i.
Arguments d_ {C D} i.
Arguments ptr_ {C D} i.

Definition set_c {C D} (c : C) (o : indirect_value C D) : indirect_value C D :=
  IndirectValue c (d_ o) (ptr_ o).
Definition set_d {C D} (d : D) (o : indirect_value C D) : indirect_value C D :=
  IndirectValue (c_ o) d (ptr_ o).
Definition set_ptr {C D} (p : N) (o : indirect_value C D) : indirect_value C D :=
  IndirectValue (c_ o) (d_ o) p.

(** [explicit operator bool() const] and [has_value() const] *)
Definition to_bool {C D} (o : indirect_value C D) : bool :=
  bool_decide (ptr_ o ≠ nullptr).
Definition has_value {C D} (o : indirect_value C D) : bool :=
  bool_decide (ptr_ o ≠ nullptr).

(** [operator*() const&]: reading through [ptr_].  Undefined (here [None]) when
    the wrapper is empty or the pointer dangles. *)
Definition star {T C D} (h : gmap N T) (o : indirect_value C D) : option T :=
  if bool_decide (ptr_ o = nullptr) then None else h !! ptr_ o.

(** ** Memory, events, and the monad of member functions *)

Record Mem (T C D : Type) := mkMem {
  objs : gmap N (indirect_value C D);
  heap : gmap N T;
}.
Arguments mkMem {T C D} objs heap.
Arguments objs {T C D} m.
Arguments heap {T C D} m.

(** Calls into the policies are recorded, in order.  A deleter call records
    the memory it was entered with. *)
Inductive event (T C D : Type) :=
| copier_called (c : C) (v : T)
| deleter_called (d : D) (p : N) (entry : Mem T C D).
Arguments copier_called {T C D} c v.
Arguments deleter_called {T C D} d p entry.

Record World (T C D : Type) := mkWorld {
  mem : Mem T C D;
  trace : list (event T C D);
}.
Arguments mkWorld {T C D} mem trace.
Arguments mem {T C D} w.
Arguments trace {T C D} w.

Definition M (S A : Type) : Type := S → S * outcome A.

Definition ret {S A} (a : A) : M S A := λ s, (s, Ok a).

Definition bind {S A B} (m : M S A) (k : A → M S B) : M S B :=
  λ s, match m s with
       | (s', Ok a) => k a s'
       | (s', Throw e) => (s', Throw e)
       | (s', Undefined) => (s', Undefined)
       end.

Definition throw {S A} (e : exn) : M S A := λ s, (s, Throw e).

(** A local object with a destructor: when [body] is left by an exception,
    [cleanup] runs during unwinding and the exception continues. *)
Definition unwinding {S A} (cleanup : M S ()) (body : M S A) : M S A :=
  λ s, match body s with
       | (s', Throw e) => ((cleanup s').1, Throw e)
       | r => r
       end.

#[global] Instance M_ret {S} : MRet (M S) := λ A, ret.
#[global] Instance M_bind {S} : MBind (M S) := λ A B k m, bind m k.

(** [std::unique_ptr<T, std::reference_wrapper<const D>>], the type of
    [temp_guard]: the copied pointer and a reference to the deleter of the
    wrapper it was copied from, given by that wrapper's address. *)
Record guard := Guard { guarded : N; deleterRef : N }.

(** The four ref-qualified overloads of [value()]. *)
Inductive ref_qualifier :=
| lvalue_ref
| const_lvalue_ref
| rvalue_ref
| const_rvalue_ref.

(** A returned reference: the object it designates, whether it is an
    lvalue ([T&]) or was passed through [std::move] ([T&&]), and constness. *)
Record reference := Reference { referent : N; moved : bool; is_const : bool }.

Section Wrapper.
Context {T C D : Type} `{!SpecialMembers C, !SpecialMembers D}.

Local Abbreviation wrapper := (indirect_value C D).
Local Abbreviation Memory := (Mem T C D).
Local Abbreviation Cpp := (M (World T C D)).

(** The call operators of the two policies are arbitrary user code running
    on the whole memory.  The copier receives the pointee by const reference
    and returns a raw pointer or throws; the deleter is called from
    [noexcept] contexts only. *)
Variable copier : C → T → Memory → Memory * fallible N.
Variable deleter : D → N → Memory → Memory.

(** *** Primitive accesses *)

Definition load (this : N) : Cpp wrapper :=
  λ w, match objs (mem w) !! this with
       | Some o => (w, Ok o)
       | None => (w, Undefined)
       end.

Definition store (this : N) (o : wrapper) : Cpp () :=
  λ w, (mkWorld (mkMem (<[this := o]> (objs (mem w))) (heap (mem w))) (trace w),
        Ok ()).

Definition deref (p : N) : Cpp T :=
  λ w, match heap (mem w) !! p with
       | Some v => (w, Ok v)
       | None => (w, Undefined)
       end.

(** [new T(v)]: a fresh non-null address, initialised with [v].  Addresses
    of released objects may be handed out again; running out of memory is
    not modelled. *)
Definition fresh_ptr (h : gmap N T) : N := fresh ({[nullptr]} ∪ dom h).

Definition allocate (v : T) (m : Memory) : Memory * fallible N :=
  let p := fresh_ptr (heap m) in
  (mkMem (objs m) (<[p := v]> (heap m)), Returns p).

Definition new (v : T) : Cpp N :=
  λ w, let r := allocate v (mem w) in (mkWorld r.1 (trace w), to_outcome r.2).

Definition call_copier (c : C) (v : T) : Cpp N :=
  λ w, let r := copier c v (mem w) in
       (mkWorld r.1 (trace w ++ [copier_called c v]), to_outcome r.2).

Definition call_deleter (d : D) (p : N) : Cpp () :=
  λ w, (mkWorld (deleter d p (mem w)) (trace w ++ [deleter_called d p (mem w)]),
        Ok ()).

Definition lift {A} (r : fallible A) : Cpp A := λ w, (w, to_outcome r).

Definition end_lifetime (this : N) : Cpp () :=
  λ w, (mkWorld (mkMem (delete this (objs (mem w))) (heap (mem w))) (trace w),
        Ok ()).

(** [std::exchange(ptr_, p)] on the object at [this] *)
Definition exchange_ptr (this : N) (p : N) : Cpp N :=
  o ← load this;
  store this (set_ptr p o);;
  mret (ptr_ o).

(** *** Private members (lines 203-220) *)

Definition reset (this : N) : Cpp () :=
  o ← load this;
  if bool_decide (ptr_ o ≠ nullptr) then
    old ← exchange_ptr this nullptr;
    call_deleter (d_ o) old
  else mret ().

Definition make_raw_copy (this : N) : Cpp N :=
  o ← load this;
  if bool_decide (ptr_ o ≠ nullptr) then
    v ← deref (ptr_ o);
    call_copier (c_ o) v
  else mret nullptr.

Definition make_guarded_copy (this : N) : Cpp guard :=
  copiedPtr ← make_raw_copy this;
  mret (Guard copiedPtr this).

(** [~unique_ptr()]: calls the referenced deleter unless it holds null. *)
Definition guard_destroy (g : guard) : Cpp () :=
  if bool_decide (guarded g ≠ nullptr) then
    o ← load (deleterRef g);
    call_deleter (d_ o) (guarded g)
  else mret ().

(** *** Constructors (lines 96-112).  [this] is the address of the object
    under construction. *)

Definition default_ctor (this : N) : Cpp () :=
  store this (IndirectValue default_construct default_construct nullptr).

(** [indirect_value(std::in_place_t, Ts&&...)], where [v] is the object that
    [T]'s constructor builds from the forwarded arguments. *)
Definition in_place_ctor (this : N) (v : T) : Cpp () :=
  p ← new v;
  store this (IndirectValue default_construct default_construct p).

Definition adopt_ctor (this : N) (u : N) (c : C) (d : D) : Cpp () :=
  store this (IndirectValue (move_construct c).1 (move_construct d).1 u).

Definition copy_ctor (this i : N) : Cpp () :=
  src ← load i;
  c ← lift (copy_construct (c_ src));
  d ← lift (copy_construct (d_ src));
  p ← make_raw_copy i;
  store this (IndirectValue c d p).

Definition move_ctor (this i : N) : Cpp () :=
  src ← load i;
  let mc := move_construct (c_ src) in
  let md := move_construct (d_ src) in
  store i (IndirectValue mc.2 md.2 (ptr_ src));;
  p ← exchange_ptr i nullptr;
  store this (IndirectValue mc.1 md.1 p).

(** *** Assignment (lines 114-134) *)

(** [copy_base::operator=(i)] and [delete_base::operator=(i)]: the left
    operand keeps whatever the policy's assignment left in it, also when
    that assignment throws. *)
Definition copy_base_assign (this i : N) : Cpp () :=
  o ← load this;
  src ← load i;
  let r := copy_assign (c_ o) (c_ src) in
  store this (set_c r.1 o);;
  lift r.2.

Definition delete_base_assign (this i : N) : Cpp () :=
  o ← load this;
  src ← load i;
  let r := copy_assign (d_ o) (d_ src) in
  store this (set_d r.1 o);;
  lift r.2.

(** [temp_guard] lives until the end of the function; after [release()] its
    destructor finds null and does nothing, so only the exceptional exits run
    [guard_destroy] on a pointer. *)
Definition copy_assignment (this i : N) : Cpp () :=
  temp_guard ← make_guarded_copy i;
  unwinding (guard_destroy temp_guard)
    (reset this;;
     copy_base_assign this i;;
     delete_base_assign this i;;
     o ← load this;
     store this (set_ptr (guarded temp_guard) o)).

Definition copy_base_move_assign (this i : N) : Cpp () :=
  o ← load this;
  src ← load i;
  let r := move_assign (c_ o) (c_ src) in
  store this (set_c r.1 o);;
  store i (set_c r.2 src).

Definition delete_base_move_assign (this i : N) : Cpp () :=
  o ← load this;
  src ← load i;
  let r := move_assign (d_ o) (d_ src) in
  store this (set_d r.1 o);;
  store i (set_d r.2 src).

Definition move_assignment (this i : N) : Cpp () :=
  if bool_decide (this ≠ i) then
    reset this;;
    copy_base_move_assign this i;;
    delete_base_move_assign this i;;
    p ← exchange_ptr i nullptr;
    o ← load this;
    store this (set_ptr p o)
  else mret ().

(** [~indirect_value()]: after the body the object is gone. *)
Definition dtor (this : N) : Cpp () :=
  reset this;;
  end_lifetime this.

(** *** Checked access (lines 150-168) *)

Definition value (q : ref_qualifier) (this : N) : Cpp reference :=
  o ← load this;
  if bool_decide (ptr_ o = nullptr) then throw bad_indirect_value_access
  else mret (match q with
             | lvalue_ref => Reference (ptr_ o) false false
             | const_lvalue_ref => Reference (ptr_ o) false true
             | rvalue_ref => Reference (ptr_ o) true false
             | const_rvalue_ref => Reference (ptr_ o) true true
             end).

(** Reading and writing through a reference, that is [x = *b] and
    [*b = v] in client code. *)
Definition read (r : reference) : Cpp T := deref (referent r).

Definition write (p : N) (v : T) : Cpp () :=
  λ w, match heap (mem w) !! p with
       | Some _ => (mkWorld (mkMem (objs (mem w)) (<[p := v]> (heap (mem w))))
                            (trace w), Ok ())
       | None => (w, Undefined)
       end.

(** *** Vocabulary for statements about releases

    [emptied this o m] is [m] after [std::exchange(ptr_, nullptr)] on the
    object [o] at [this]; [released] and [release_events] are the memory and
    the policy calls that releasing [o]'s allocation leaves behind. *)

Definition emptied (this : N) (o : wrapper) (m : Memory) : Memory :=
  mkMem (<[this := set_ptr nullptr o]> (objs m)) (heap m).

Definition released (this : N) (o : wrapper) (m : Memory) : Memory :=
  if bool_decide (ptr_ o ≠ nullptr)
  then deleter (d_ o) (ptr_ o) (emptied this o m) else m.

Definition release_events (this : N) (o : wrapper) (m : Memory)
  : list (event T C D) :=
  if bool_decide (ptr_ o ≠ nullptr)
  then [deleter_called (d_ o) (ptr_ o) (emptied this o m)] else [].
End Wrapper.

(** The pointers handed to a deleter, in order. *)
Definition deleted {T C D} (tr : list (event T C D)) : list N :=
  omap (λ ev, match ev with
              | deleter_called _ p _ => Some p
              | copier_called _ _ => None
              end) tr.

(** A deleter call with a non-null pointer that found the wrapper at [this]
    empty on entry. *)
Definition seen_empty {T C D} (this : N) (ev : event T C D) : Prop :=
  match ev with
  | deleter_called _ p entry =>
      p ≠ nullptr ∧ ∃ o, objs entry !! this = Some o ∧ to_bool o = false
  | copier_called _ _ => True
  end.

(** ** The default policies

    [default_copy<T>] (lines 26-29) and [std::default_delete<T>] are empty
    structs; their call operators are [new T(t)] and [delete p]. *)

Inductive default_copy := DefaultCopy.
Inductive default_delete := DefaultDelete.

(** Special members of a trivially copyable type: copies and moves are
    bitwise and never throw. *)
Definition trivially_copyable {P} (dflt : P) : SpecialMembers P := {|
  default_construct := dflt;
  copy_construct p := Returns p;
  copy_assign _ r := (r, Returns ());
  move_construct p := (p, p);
  move_assign _ r := (r, r);
|}.

#[global] Instance default_copy_members : SpecialMembers default_copy :=
  trivially_copyable DefaultCopy.
#[global] Instance default_delete_members : SpecialMembers default_delete :=
  trivially_copyable DefaultDelete.

(** [new T(t)] (line 28) obtains storage from [operator new], which may
    throw [std::bad_alloc], and runs [T]'s copy constructor in it, which may
    throw anything; when either throws, the new-expression gives the storage
    back and the exception leaves with memory as it was.  All the wrapper
    knows of [T] is the outcome of these two steps: [new_copy h t] is the
    object built from [t] while the objects [h] are live, or the exception. *)
Class CopyConstructible (T : Type) := {
  new_copy : gmap N T → T → fallible T;
}.

Definition default_copy_call {T C D} `{!CopyConstructible T}
    (_ : C) (t : T) (m : Mem T C D) : Mem T C D * fallible N :=
  match new_copy (heap m) t with
  | Returns t' => allocate t' m
  | Throws e => (m, Throws e)
  end.

Definition default_delete_call {T C D} (_ : D) (p : N) (m : Mem T C D)
  : Mem T C D := mkMem (objs m) (delete p (heap m)).

(** ** Relational operators (lines 226-452)

    [a && b] and [a || b] evaluate [b] only when [a] does not decide the
    result, which is what keeps [*lhs] away from empty wrappers. *)

Definition and_then (a : bool) (b : option bool) : option bool :=
  if a then b else Some false.

Definition or_else (a : bool) (b : option bool) : option bool :=
  if a then Some true else b.

Section Relational.
Context {T1 T2 C1 D1 C2 D2 : Type} `{!Comparable T1 T2}.
(** The live objects of type [T1] and of type [T2]. *)
Variable h1 : gmap N T1.
Variable h2 : gmap N T2.

Local Abbreviation wrapper1 := (indirect_value C1 D1).
Local Abbreviation wrapper2 := (indirect_value C2 D2).

(** Comparisons between two indirect_values. *)

Definition operator_eq (lhs : wrapper1) (rhs : wrapper2) : option bool :=
  let leftHasValue := to_bool lhs in
  and_then (eqb leftHasValue (to_bool rhs))
    (or_else (negb leftHasValue)
       (a ← star h1 lhs; b ← star h2 rhs; Some (eq_op a b))).

Definition operator_ne (lhs : wrapper1) (rhs : wrapper2) : option bool :=
  let leftHasValue := to_bool lhs in
  or_else (negb (eqb leftHasValue (to_bool rhs)))
    (and_then leftHasValue
       (a ← star h1 lhs; b ← star h2 rhs; Some (ne_op a b))).

Definition operator_lt (lhs : wrapper1) (rhs : wrapper2) : option bool :=
  and_then (to_bool rhs)
    (or_else (negb (to_bool lhs))
       (a ← star h1 lhs; b ← star h2 rhs; Some (lt_op a b))).

Definition operator_gt (lhs : wrapper1) (rhs : wrapper2) : option bool :=
  and_then (to_bool lhs)
    (or_else (negb (to_bool rhs))
       (a ← star h1 lhs; b ← star h2 rhs; Some (gt_op a b))).

Definition operator_le (lhs : wrapper1) (rhs : wrapper2) : option bool :=
  or_else (negb (to_bool lhs))
    (and_then (to_bool rhs)
       (a ← star h1 lhs; b ← star h2 rhs; Some (le_op a b))).

Definition operator_ge (lhs : wrapper1) (rhs : wrapper2) : option bool :=
  or_else (negb (to_bool rhs))
    (and_then (to_bool lhs)
       (a ← star h1 lhs; b ← star h2 rhs; Some (ge_op a b))).

(** Comparisons with a raw value: wrapper on the left (pointee [T1], raw
    [T2]), then wrapper on the right (raw [T1], pointee [T2]). *)

Definition operator_eq_raw (lhs : wrapper1) (rhs : T2) : option bool :=
  and_then (to_bool lhs) (a ← star h1 lhs; Some (eq_op a rhs)).

Definition raw_operator_eq (lhs : T1) (rhs : wrapper2) : option bool :=
  and_then (to_bool rhs) (b ← star h2 rhs; Some (eq_op lhs b)).

Definition operator_ne_raw (lhs : wrapper1) (rhs : T2) : option bool :=
  or_else (negb (to_bool lhs)) (a ← star h1 lhs; Some (ne_op a rhs)).

Definition raw_operator_ne (lhs : T1) (rhs : wrapper2) : option bool :=
  or_else (negb (to_bool rhs)) (b ← star h2 rhs; Some (ne_op lhs b)).

Definition operator_lt_raw (lhs : wrapper1) (rhs : T2) : option bool :=
  or_else (negb (to_bool lhs)) (a ← star h1 lhs; Some (lt_op a rhs)).

Definition raw_operator_lt (lhs : T1) (rhs : wrapper2) : option bool :=
  and_then (to_bool rhs) (b ← star h2 rhs; Some (lt_op lhs b)).

Definition operator_gt_raw (lhs : wrapper1) (rhs : T2) : option bool :=
  and_then (to_bool lhs) (a ← star h1 lhs; Some (gt_op a rhs)).

Definition raw_operator_gt (lhs : T1) (rhs : wrapper2) : option bool :=
  or_else (negb (to_bool rhs)) (b ← star h2 rhs; Some (gt_op lhs b)).

Definition operator_le_raw (lhs : wrapper1) (rhs : T2) : option bool :=
  or_else (negb (to_bool lhs)) (a ← star h1 lhs; Some (le_op a rhs)).

Definition raw_operator_le (lhs : T1) (rhs : wrapper2) : option bool :=
  and_then (to_bool rhs) (b ← star h2 rhs; Some (le_op lhs b)).

Definition operator_ge_raw (lhs : wrapper1) (rhs : T2) : option bool :=
  and_then (to_bool lhs) (a ← star h1 lhs; Some (ge_op a rhs)).

Definition raw_operator_ge (lhs : T1) (rhs : wrapper2) : option bool :=
  or_else (negb (to_bool rhs)) (b ← star h2 rhs; Some (ge_op lhs b)).
End Relational.

(** Comparisons with [nullptr_t] (lines 278-345), all [noexcept]; none reads
    the pointee. *)
Section Null.
Context {C D : Type}.
Local Abbreviation wrapper := (indirect_value C D).

Definition operator_eq_null (lhs : wrapper) : bool := negb (to_bool lhs).
Definition null_operator_eq (rhs : wrapper) : bool := negb (to_bool rhs).
Definition operator_ne_null (lhs : wrapper) : bool := to_bool lhs.
Definition null_operator_ne (rhs : wrapper) : bool := to_bool rhs.
Definition operator_lt_null (_ : wrapper) : bool := false.
Definition null_operator_lt (rhs : wrapper) : bool := to_bool rhs.
Definition operator_gt_null (lhs : wrapper) : bool := to_bool lhs.
Definition null_operator_gt (_ : wrapper) : bool := false.
Definition operator_le_null (lhs : wrapper) : bool := negb (to_bool lhs).
Definition null_operator_le (_ : wrapper) : bool := true.
Definition operator_ge_null (_ : wrapper) : bool := true.
Definition null_operator_ge (rhs : wrapper) : bool := negb (to_bool rhs).

(** With three-way comparison available the header defines only
    [operator==] and [operator<=>] against [nullptr]. *)
Definition operator_spaceship_null (lhs : wrapper) : ordering :=
  bool_three_way (to_bool lhs) false.
End Null.

(** ** Contracts of the policies and the ownership invariant *)

(** A non-null [ptr_] designates a live object. *)
Definition owned {T C D} (h : gmap N T) (o : indirect_value C D) : Prop :=
  ptr_ o ≠ nullptr → is_Some (h !! ptr_ o).

Section Contracts.
Context {T C D : Type} `{!Comparable T T}.
Variable copier : C → T → Mem T C D → Mem T C D * fallible N.
Variable deleter : D → N → Mem T C D → Mem T C D.

(** The copier returns a new allocation that compares equal to its
    argument, or throws; either way it leaves the wrappers and the objects
    that already exist as they are. *)
Definition copier_contract : Prop :=
  ∀ c v m,
    objs (copier c v m).1 = objs m ∧
    (∀ q, is_Some (heap m !! q) → heap (copier c v m).1 !! q = heap m !! q) ∧
    match (copier c v m).2 with
    | Returns p => p ≠ nullptr ∧ heap m !! p = None ∧
                   ∃ v', heap (copier c v m).1 !! p = Some v' ∧
                         eq_op v' v = true
    | Throws _ => True
    end.

(** The deleter may look at anything, but it changes no wrapper and no
    object other than the one it is asked to release. *)
Definition deleter_contract : Prop :=
  ∀ d p m,
    objs (deleter d p m) = objs m ∧
    ∀ q, q ≠ p → heap (deleter d p m) !! q = heap m !! q.
End Contracts.

(** ** Concrete instances used to exercise the statements *)

(** [int]: the copy is the value, and the sample worlds are far from
    exhausting memory. *)
#[global] Instance Z_copy_constructible : CopyConstructible Z := {|
  new_copy _ t := Returns t;
|}.

(** A pointee type whose copy constructor throws on negative values, and an
    allocator that is exhausted once three objects are live. *)
Definition fragile_copy_constructible : CopyConstructible Z := {|
  new_copy h t :=
    if bool_decide (3 ≤ size h) then Throws (policy_error 5)
    else if bool_decide (t < 0)%Z then Throws (policy_error 4)
    else Returns t;
|}.

#[global] Instance Z_comparable : Comparable Z Z := {|
  eq_op := Z.eqb;
  ne_op a b := negb (Z.eqb a b);
  lt_op := Z.ltb;
  gt_op := Z.gtb;
  le_op := Z.leb;
  ge_op := Z.geb;
|}.

(** A stateful policy for exercising the exceptional paths: as a copier it
    throws when its flag is set, and its copy assignment throws when the
    flag of the left operand is set. *)
Definition flaky_copy_call {T D} (c : bool) (t : T) (m : Mem T bool D)
  : Mem T bool D * fallible N :=
  if c then (m, Throws (policy_error 1)) else allocate t m.

#[global] Instance flaky_members : SpecialMembers bool := {|
  default_construct := false;
  copy_construct p := Returns p;
  copy_assign l r :=
    if l then (l, Throws (policy_error 2)) else (r, Returns ());
  move_construct p := (p, p);
  move_assign _ r := (r, r);
|}.

(** Two worlds of [int] pointees.  In both, the wrapper at address 1 owns
    the object 42 at address 10, the wrapper at 2 is empty and the wrapper at
    3 owns the object 7 at address 11. *)
Definition demo_world : World Z default_copy default_delete :=
  mkWorld
    (mkMem (<[1%N := IndirectValue DefaultCopy DefaultDelete 10%N]>
              (<[2%N := IndirectValue DefaultCopy DefaultDelete nullptr]>
                 (<[3%N := IndirectValue DefaultCopy DefaultDelete 11%N]> ∅)))
           (<[10%N := 42%Z]> (<[11%N := 7%Z]> ∅)))
    [].

Definition empty_world : World Z default_copy default_delete :=
  mkWorld (mkMem ∅ ∅) [].

Definition demo_full : indirect_value default_copy default_delete :=
  IndirectValue DefaultCopy DefaultDelete 10%N.
Definition demo_empty : indirect_value default_copy default_delete :=
  IndirectValue DefaultCopy DefaultDelete nullptr.
Definition demo_other : indirect_value default_copy default_delete :=
  IndirectValue DefaultCopy DefaultDelete 11%N.

(** The same world with the flaky policy as copier.  The flag of the wrapper
    at 1 is set: copying from it throws in the copier, and assigning to it
    throws in the copy assignment of the copier. *)
Definition flaky_world : World Z bool default_delete :=
  mkWorld
    (mkMem (<[1%N := IndirectValue true DefaultDelete 10%N]>
              (<[2%N := IndirectValue false DefaultDelete nullptr]>
                 (<[3%N := IndirectValue false DefaultDelete 11%N]> ∅)))
           (<[10%N := 42%Z]> (<[11%N := 7%Z]> ∅)))
    [].

(** ** The rest of the interface *)

(** *** Unchecked access (lines 138-148)

    [operator->] hands out [ptr_] as it is.  The four forms of [operator*]
    bind a reference to [*ptr_], which is undefined on an empty wrapper. *)

Definition arrow {C D} (o : indirect_value C D) : N := ptr_ o.

Definition operator_star {C D} (q : ref_qualifier) (o : indirect_value C D)
  : option reference :=
  if bool_decide (ptr_ o = nullptr) then None
  else Some (match q with
             | lvalue_ref => Reference (ptr_ o) false false
             | const_lvalue_ref => Reference (ptr_ o) false true
             | rvalue_ref => Reference (ptr_ o) true false
             | const_rvalue_ref => Reference (ptr_ o) true true
             end).

(** *** Swap (lines 182-195)

    [swap] is found by [using std::swap] and argument-dependent lookup, so it
    is an operation of the policy type; it may throw unless the type is
    nothrow swappable.  [swap_op a b] gives the two objects after the call
    and whether it threw; [swap_self a] is the call with both arguments bound
    to one object, which is what [x.swap(x)] makes. *)
Class Swappable (P : Type) := {
  swap_op : P → P → (P * P) * fallible ();
  swap_self : P → P * fallible ();
}.

(** An empty or trivially copyable policy: [std::swap] exchanges the bits. *)
Definition trivially_swappable {P} : Swappable P := {|
  swap_op a b := ((b, a), Returns ());
  swap_self a := (a, Returns ());
|}.

#[global] Instance default_copy_swappable : Swappable default_copy :=
  trivially_swappable.
#[global] Instance default_delete_swappable : Swappable default_delete :=
  trivially_swappable.

(** A policy whose swap throws when the flag of its left operand is set. *)
#[global] Instance flaky_swappable : Swappable bool := {|
  swap_op := λ a b : bool,
    if a then ((a, b), Throws (policy_error 3)) else ((b, a), Returns ());
  swap_self := λ a : bool,
    if a then (a, Throws (policy_error 3)) else (a, Returns ());
|}.

Section Swap.
Context {T C D : Type} `{!Swappable C, !Swappable D}.
Local Abbreviation Cpp := (M (World T C D)).
Local Abbreviation load_obj := (load (T:=T) (C:=C) (D:=D)).

(** [swap(get_c(), rhs.get_c())] *)
Definition swap_copiers (this rhs : N) : Cpp () :=
  o ← load_obj this;
  r ← load_obj rhs;
  if bool_decide (this = rhs) then
    store this (set_c (swap_self (c_ o)).1 o);;
    lift (swap_self (c_ o)).2
  else
    store this (set_c (swap_op (c_ o) (c_ r)).1.1 o);;
    store rhs (set_c (swap_op (c_ o) (c_ r)).1.2 r);;
    lift (swap_op (c_ o) (c_ r)).2.

(** [swap(get_d(), rhs.get_d())] *)
Definition swap_deleters (this rhs : N) : Cpp () :=
  o ← load_obj this;
  r ← load_obj rhs;
  if bool_decide (this = rhs) then
    store this (set_d (swap_self (d_ o)).1 o);;
    lift (swap_self (d_ o)).2
  else
    store this (set_d (swap_op (d_ o) (d_ r)).1.1 o);;
    store rhs (set_d (swap_op (d_ o) (d_ r)).1.2 r);;
    lift (swap_op (d_ o) (d_ r)).2.

(** [swap(ptr_, rhs.ptr_)] on two raw pointers *)
Definition swap_ptrs (this rhs : N) : Cpp () :=
  o ← load_obj this;
  r ← load_obj rhs;
  store this (set_ptr (ptr_ r) o);;
  r' ← load_obj rhs;
  store rhs (set_ptr (ptr_ o) r').

Definition swap (this rhs : N) : Cpp () :=
  swap_copiers this rhs;;
  swap_deleters this rhs;;
  swap_ptrs this rhs.

(** The friend [swap(lhs, rhs)] *)
Definition swap_friend (lhs rhs : N) : Cpp () := swap lhs rhs.
End Swap.

(** *** Three-way comparison (lines 265-276, 284-289, 454-468)

    The result of the pointees' [<=>] is a comparison category; all of them
    convert to [std::partial_ordering], which adds [unordered] to the three
    values of a strong ordering. *)
Inductive partial_ordering :=
| ordered (o : ordering)
| unordered.

Definition po_is_eq (c : partial_ordering) : bool :=
  match c with ordered equal => true | _ => false end.
Definition po_is_neq (c : partial_ordering) : bool := negb (po_is_eq c).
Definition po_is_lt (c : partial_ordering) : bool :=
  match c with ordered less => true | _ => false end.
Definition po_is_gt (c : partial_ordering) : bool :=
  match c with ordered greater => true | _ => false end.
Definition po_is_lteq (c : partial_ordering) : bool :=
  match c with ordered less | ordered equal => true | _ => false end.
Definition po_is_gteq (c : partial_ordering) : bool :=
  match c with ordered greater | ordered equal => true | _ => false end.

Class ThreeWayComparable (A B : Type) := {
  cmp_op : A → B → partial_ordering;
}.

Section ThreeWay.
Context {T1 T2 C1 D1 C2 D2 : Type} `{!ThreeWayComparable T1 T2}.
Variable h1 : gmap N T1.
Variable h2 : gmap N T2.

Definition operator_spaceship (lhs : indirect_value C1 D1)
    (rhs : indirect_value C2 D2) : option partial_ordering :=
  if to_bool lhs && to_bool rhs then
    a ← star h1 lhs; b ← star h2 rhs; Some (cmp_op a b)
  else Some (ordered (bool_three_way (to_bool lhs) (to_bool rhs))).

Definition operator_spaceship_raw (lhs : indirect_value C1 D1) (rhs : T2)
  : option partial_ordering :=
  if to_bool lhs then a ← star h1 lhs; Some (cmp_op a rhs)
  else Some (ordered less).
End ThreeWay.

(** The pointees' relational operators are the ones their [<=>] gives. *)
Definition three_way_consistent (T1 T2 : Type)
    `{!Comparable T1 T2, !ThreeWayComparable T1 T2} : Prop :=
  ∀ (a : T1) (b : T2),
    eq_op a b = po_is_eq (cmp_op a b) ∧
    ne_op a b = po_is_neq (cmp_op a b) ∧
    lt_op a b = po_is_lt (cmp_op a b) ∧
    gt_op a b = po_is_gt (cmp_op a b) ∧
    le_op a b = po_is_lteq (cmp_op a b) ∧
    ge_op a b = po_is_gteq (cmp_op a b).

(** *** Hashing (lines 470-498)

    [std::hash<T>] is the pointee's hash; the disabled specialisation exists
    at compile time only. *)
Class Hashable (T : Type) := {
  hash_op : T → N;
}.

Definition hash_value {T C D} `{!Hashable T} (h : gmap N T)
    (key : indirect_value C D) : option N :=
  if to_bool key then a ← star h key; Some (hash_op a) else Some 0%N.

(** ** The ownership invariant of a whole memory

    Every non-null [ptr_] designates a live object, and no two wrappers hold
    the same non-null pointer. *)
Definition well_formed {T C D} (m : Mem T C D) : Prop :=
  ∀ a o, objs m !! a = Some o → ptr_ o ≠ nullptr →
    is_Some (heap m !! ptr_ o) ∧
    ∀ b o', objs m !! b = Some o' → ptr_ o' = ptr_ o → b = a.

(** A deleter call that is handed a non-null pointer to an object that is
    live when the deleter is entered. *)
Definition deletes_live {T C D} (ev : event T C D) : Prop :=
  match ev with
  | deleter_called _ p entry => p ≠ nullptr ∧ is_Some (heap entry !! p)
  | copier_called _ _ => True
  end.

(** More instances for exercising the statements. *)

#[global] Instance Z_three_way : ThreeWayComparable Z Z := {|
  cmp_op a b :=
    match (a ?= b)%Z with
    | Lt => ordered less
    | Eq => ordered equal
    | Gt => ordered greater
    end;
|}.

(** [std::hash<int>] as the usual implementations have it: the value
    converted to [std::size_t], 64 bits wide. *)
#[global] Instance Z_hashable : Hashable Z := {|
  hash_op a := Z.to_N (a mod 2 ^ 64);
|}.

(** [demo_world] after the client has run [new int(5)]: the object at
    address 12 is live and no wrapper holds it yet. *)
Definition orphan_world : World Z default_copy default_delete :=
  mkWorld (mkMem (objs (mem demo_world))
                 (<[12%N := 5%Z]> (heap (mem demo_world))))
          [].

(** ** A pointee that holds a wrapper

    [struct node { int payload; indirect_value<node> child; }], the linked
    list that the wrapper is meant to make possible.  The member [child] is
    a wrapper object of its own, inside the node: [child nd] is its
    address. *)
Record node := Node { payload : Z; child : N }.

(** [std::default_delete<node>]: [delete p] runs [~node()], which destroys
    the member [child] as any wrapper is destroyed, through its own deleter,
    and then gives the storage of the node back.  The release of the next
    node is this function again; [fuel] bounds the length of the list. *)
Fixpoint node_delete (fuel : nat) (d : default_delete) (p : N)
    (m : Mem node default_copy default_delete)
  : Mem node default_copy default_delete :=
  match heap m !! p with
  | None => m
  | Some nd =>
      let m1 := match fuel with
                | O => m
                | S n => mem (dtor (node_delete n) (child nd) (mkWorld m [])).1
                end in
      mkMem (objs m1) (delete p (heap m1))
  end.

(** Two lists.  The wrapper at 1 is a variable that owns the node at 10,
    whose member [child], at 2, owns the node at 11, whose [child], at 3, is
    empty.  The wrapper at 4 is another variable and owns the node at 12,
    whose [child], at 5, is empty. *)
Definition list_world : World node default_copy default_delete :=
  mkWorld
    (mkMem (<[1%N := IndirectValue DefaultCopy DefaultDelete 10%N]>
              (<[2%N := IndirectValue DefaultCopy DefaultDelete 11%N]>
                 (<[3%N := IndirectValue DefaultCopy DefaultDelete nullptr]>
                    (<[4%N := IndirectValue DefaultCopy DefaultDelete 12%N]>
                       (<[5%N := IndirectValue DefaultCopy DefaultDelete
                                   nullptr]> ∅)))))
           (<[10%N := Node 1 2]>
              (<[11%N := Node 2 3]> (<[12%N := Node 3 5]> ∅))))
    [].

(** Nodes compare by their payload. *)
#[global] Instance node_comparable : Comparable node node := {|
  eq_op a b := eq_op (payload a) (payload b);
  ne_op a b := ne_op (payload a) (payload b);
  lt_op a b := lt_op (payload a) (payload b);
  gt_op a b := gt_op (payload a) (payload b);
  le_op a b := le_op (payload a) (payload b);
  ge_op a b := ge_op (payload a) (payload b);
|}.

(** The copy policy of a type that is not to be copied: it always throws. *)
Definition refusing_copy_call {T C D} (_ : C) (_ : T) (m : Mem T C D)
  : Mem T C D * fallible N := (m, Throws (policy_error 6)).

(** ** What a release leaves alone

    A deleter call spares the wrappers at [t] and [s], the pointee of [os]
    and the objects allocated since the pointees were [h0], when it leaves
    them as they are, unless it is handed one of these objects. *)
Definition spares {T C D} (deleter : D → N → Mem T C D → Mem T C D)
    (t s : N) (os : indirect_value C D) (h0 : gmap N T) (ev : event T C D)
  : Prop :=
  match ev with
  | deleter_called d q entry =>
      objs (deleter d q entry) !! t = objs entry !! t ∧
      objs (deleter d q entry) !! s = objs entry !! s ∧
      ∀ q', q' ≠ q → q' = ptr_ os ∨ h0 !! q' = None →
            heap (deleter d q entry) !! q' = heap entry !! q'
  | copier_called _ _ => True
  end.

(** * Properties *)

(** ** Emptiness and dereference *)

Lemma to_bool_true {C D} (o : indirect_value C D) :
  to_bool o = true ↔ ptr_ o ≠ nullptr.
Proof. unfold to_bool. by rewrite bool_decide_eq_true. Qed.

Lemma to_bool_false {C D} (o : indirect_value C D) :
  to_bool o = false ↔ ptr_ o = nullptr.
Proof.
  unfold to_bool. rewrite bool_decide_eq_false.
  split; [apply dec_stable | by intros E ?].
Qed.

Lemma has_value_to_bool {C D} (o : indirect_value C D) :
  has_value o = to_bool o.
Proof. reflexivity. Qed.

Lemma star_Some {T C D} (h : gmap N T) (o : indirect_value C D) v :
  star h o = Some v ↔ ptr_ o ≠ nullptr ∧ h !! ptr_ o = Some v.
Proof.
  unfold star. case_bool_decide as E; split.
  - done.
  - by intros [? _].
  - by intros ?.
  - by intros [_ ?].
Qed.

Lemma star_to_bool {T C D} (h : gmap N T) (o : indirect_value C D) v :
  star h o = Some v → to_bool o = true.
Proof. rewrite star_Some, to_bool_true. tauto. Qed.

Lemma star_empty {T C D} (h : gmap N T) (o : indirect_value C D) :
  to_bool o = false → star h o = None.
Proof. rewrite to_bool_false. unfold star. intros E. by rewrite bool_decide_true. Qed.

Lemma owned_star {T C D} (h : gmap N T) (o : indirect_value C D) :
  owned h o → to_bool o = true → is_Some (star h o).
Proof.
  rewrite to_bool_true. intros Ho Hp. destruct (Ho Hp) as [v Hv].
  exists v. by apply star_Some.
Qed.

(** ** Relational operators *)

Section RelationalFacts.
Context {T1 T2 C1 D1 C2 D2 : Type} `{!Comparable T1 T2}.
Variable h1 : gmap N T1.
Variable h2 : gmap N T2.
Implicit Types (x : indirect_value C1 D1) (y : indirect_value C2 D2).

(** On two non-empty wrappers every operator is the pointees' operator. *)
Lemma operators_delegate x y a b :
  star h1 x = Some a → star h2 y = Some b →
  operator_eq h1 h2 x y = Some (eq_op a b) ∧
  operator_ne h1 h2 x y = Some (ne_op a b) ∧
  operator_lt h1 h2 x y = Some (lt_op a b) ∧
  operator_gt h1 h2 x y = Some (gt_op a b) ∧
  operator_le h1 h2 x y = Some (le_op a b) ∧
  operator_ge h1 h2 x y = Some (ge_op a b).
Proof.
  intros Ha Hb.
  unfold operator_eq, operator_ne, operator_lt, operator_gt, operator_le,
    operator_ge.
  rewrite (star_to_bool _ _ _ Ha), (star_to_bool _ _ _ Hb), Ha, Hb.
  done.
Qed.


(** C8: an empty wrapper is below every non-empty one ([e < x] is true,
    [x < e] is false), two empty wrappers are not below one another,
    [nullptr <= x] always holds, a non-empty wrapper is greater than
    [nullptr], and two non-empty wrappers that own live pointees have
    pointees [a] and [b], on which [<], [>], [<=], [>=] return what the
    pointee type's operators return. *)
Theorem ordering_puts_empty_first x y (e : indirect_value C1 D1)
    (e' : indirect_value C2 D2) :
  to_bool e = false → to_bool e' = false →
  (to_bool y = true → operator_lt h1 h2 e y = Some true) ∧
  (to_bool x = true → operator_lt h1 h2 x e' = Some false) ∧
  operator_lt h1 h2 e e' = Some false ∧
  operator_gt h1 h2 e e' = Some false ∧
  null_operator_le x = true ∧
  (to_bool x = true → operator_gt_null x = true) ∧
  (owned h1 x → owned h2 y → to_bool x = true → to_bool y = true →
   ∃ a b, star h1 x = Some a ∧ star h2 y = Some b ∧
     operator_lt h1 h2 x y = Some (lt_op a b) ∧
     operator_gt h1 h2 x y = Some (gt_op a b) ∧
     operator_le h1 h2 x y = Some (le_op a b) ∧
     operator_ge h1 h2 x y = Some (ge_op a b)).
Proof.
  intros He He'. unfold operator_lt, operator_gt.
  rewrite He, He'. split_and!; try done.
  - by intros ->.
  - intros Hx Hy Ex Ey.
    destruct (owned_star _ _ Hx Ex) as [a Ha].
    destruct (owned_star _ _ Hy Ey) as [b Hb].
    exists a, b. split; [done |]. split; [done |].
    by destruct (operators_delegate x y a b Ha Hb) as (_ & _ & ? & ? & ? & ?).
Qed.

(** C9: against a raw value, an empty wrapper is less, less-or-equal, not
    greater, not greater-or-equal and not equal, with the wrapper on either
    side; a non-empty wrapper that owns a live pointee has a pointee [a], and
    each operator returns what the pointee type's operator returns on [a]
    and the raw value. *)
Theorem raw_comparisons x y (e : indirect_value C1 D1)
    (e' : indirect_value C2 D2) (u : T2) (u' : T1) :
  to_bool e = false → to_bool e' = false →
  (operator_lt_raw h1 e u = Some true ∧
   operator_le_raw h1 e u = Some true ∧
   operator_gt_raw h1 e u = Some false ∧
   operator_ge_raw h1 e u = Some false ∧
   operator_eq_raw h1 e u = Some false ∧
   operator_ne_raw h1 e u = Some true) ∧
  (raw_operator_gt h2 u' e' = Some true ∧
   raw_operator_ge h2 u' e' = Some true ∧
   raw_operator_lt h2 u' e' = Some false ∧
   raw_operator_le h2 u' e' = Some false ∧
   raw_operator_eq h2 u' e' = Some false ∧
   raw_operator_ne h2 u' e' = Some true) ∧
  (owned h1 x → to_bool x = true →
   ∃ a, star h1 x = Some a ∧
     operator_eq_raw h1 x u = Some (eq_op a u) ∧
     operator_ne_raw h1 x u = Some (ne_op a u) ∧
     operator_lt_raw h1 x u = Some (lt_op a u) ∧
     operator_gt_raw h1 x u = Some (gt_op a u) ∧
     operator_le_raw h1 x u = Some (le_op a u) ∧
     operator_ge_raw h1 x u = Some (ge_op a u)) ∧
  (owned h2 y → to_bool y = true →
   ∃ b, star h2 y = Some b ∧
     raw_operator_eq h2 u' y = Some (eq_op u' b) ∧
     raw_operator_ne h2 u' y = Some (ne_op u' b) ∧
     raw_operator_lt h2 u' y = Some (lt_op u' b) ∧
     raw_operator_gt h2 u' y = Some (gt_op u' b) ∧
     raw_operator_le h2 u' y = Some (le_op u' b) ∧
     raw_operator_ge h2 u' y = Some (ge_op u' b)).
Proof.
  intros He He'.
  unfold operator_eq_raw, operator_ne_raw, operator_lt_raw, operator_gt_raw,
    operator_le_raw, operator_ge_raw, raw_operator_eq, raw_operator_ne,
    raw_operator_lt, raw_operator_gt, raw_operator_le, raw_operator_ge.
  rewrite He, He'. split_and!; try done.
  - intros Hx Ex. destruct (owned_star _ _ Hx Ex) as [a Ha].
    exists a. rewrite Ex, Ha. done.
  - intros Hy Ey. destruct (owned_star _ _ Hy Ey) as [b Hb].
    exists b. rewrite Ey, Hb. done.
Qed.
End RelationalFacts.

(** With three-way comparison the header leaves the ordering against
    [nullptr] to [operator<=>]: [x < nullptr] is [(x <=> nullptr) < 0] and
    [nullptr < x] is [0 < (x <=> nullptr)].  Both readings give the operators
    that the header spells out otherwise. *)
Lemma three_way_null_agrees {C D} (x : indirect_value C D) :
  is_lt (operator_spaceship_null x) = operator_lt_null x ∧
  is_gt (operator_spaceship_null x) = operator_gt_null x ∧
  is_lteq (operator_spaceship_null x) = operator_le_null x ∧
  is_gteq (operator_spaceship_null x) = operator_ge_null x ∧
  is_gt (operator_spaceship_null x) = null_operator_lt x ∧
  is_lt (operator_spaceship_null x) = null_operator_gt x ∧
  is_gteq (operator_spaceship_null x) = null_operator_le x ∧
  is_lteq (operator_spaceship_null x) = null_operator_ge x.
Proof.
  unfold operator_spaceship_null, operator_lt_null, operator_gt_null,
    operator_le_null, operator_ge_null, null_operator_lt, null_operator_gt,
    null_operator_le, null_operator_ge.
  by destruct (to_bool x).
Qed.

(** ** Stepping through member functions *)

Section Steps.
Context {S A B : Type}.
Implicit Types (m : M S A) (k : A → M S B) (s : S).

Lemma bind_Ok m k s s' a : m s = (s', Ok a) → (m ≫= k) s = k a s'.
Proof. intros E. unfold mbind, M_bind, bind. by rewrite E. Qed.

Lemma bind_Throw m k s s' e :
  m s = (s', Throw e) → (m ≫= k) s = (s', Throw e).
Proof. intros E. unfold mbind, M_bind, bind. by rewrite E. Qed.

Lemma bind_Undefined m k s s' :
  m s = (s', Undefined) → (m ≫= k) s = (s', Undefined).
Proof. intros E. unfold mbind, M_bind, bind. by rewrite E. Qed.
End Steps.

Lemma fresh_ptr_nonnull {T} (h : gmap N T) : fresh_ptr h ≠ nullptr.
Proof.
  unfold fresh_ptr. intros E.
  apply (is_fresh ({[nullptr]} ∪ dom h)). rewrite E. set_solver.
Qed.

Lemma fresh_ptr_fresh {T} (h : gmap N T) : h !! fresh_ptr h = None.
Proof.
  apply not_elem_of_dom. unfold fresh_ptr. intros E.
  apply (is_fresh ({[nullptr]} ∪ dom h)). set_solver.
Qed.

(** The default policies meet the contracts. *)

Lemma allocate_contract {T C D} `{!Comparable T T} (v : T) (m : Mem T C D) :
  eq_op v v = true →
  objs (allocate v m).1 = objs m ∧
  (∀ q, is_Some (heap m !! q) → heap (allocate v m).1 !! q = heap m !! q) ∧
  match (allocate v m).2 with
  | Returns p => p ≠ nullptr ∧ heap m !! p = None ∧
                 ∃ v', heap (allocate v m).1 !! p = Some v' ∧ eq_op v' v = true
  | Throws _ => True
  end.
Proof.
  intros Hrefl. simpl. split_and!.
  - done.
  - intros q [x Hq]. rewrite lookup_insert_ne; [done |].
    intros E. rewrite <-E, fresh_ptr_fresh in Hq. done.
  - apply fresh_ptr_nonnull.
  - apply fresh_ptr_fresh.
  - exists v. by rewrite lookup_insert_eq.
Qed.

Lemma default_copy_contract {T C D} `{!Comparable T T, !CopyConstructible T} :
  (∀ h (t t' : T), new_copy h t = Returns t' → eq_op t' t = true) →
  copier_contract (T:=T) (C:=C) (D:=D) default_copy_call.
Proof.
  intros Heq c v m. unfold default_copy_call.
  destruct (new_copy (heap m) v) as [v'|e] eqn:E; [| by split_and!].
  simpl. split_and!.
  - done.
  - intros q [x Hq]. rewrite lookup_insert_ne; [done |].
    intros E'. rewrite <-E', fresh_ptr_fresh in Hq. done.
  - apply fresh_ptr_nonnull.
  - apply fresh_ptr_fresh.
  - exists v'. rewrite lookup_insert_eq. split; [done |]. by apply (Heq (heap m)).
Qed.

Lemma flaky_copy_contract {T D} `{!Comparable T T} :
  (∀ v : T, eq_op v v = true) →
  copier_contract (T:=T) (D:=D) flaky_copy_call.
Proof.
  intros Hrefl [] v m; unfold flaky_copy_call.
  - by split_and!.
  - by apply allocate_contract.
Qed.

Lemma default_delete_contract {T C D} :
  deleter_contract (T:=T) (C:=C) (D:=D) default_delete_call.
Proof.
  intros d p m. split; [done |]. intros q Hq. simpl.
  by rewrite lookup_delete_ne.
Qed.

Lemma trivially_copyable_value_semantic {P} (dflt : P) :
  @ValueSemantic P (trivially_copyable dflt).
Proof. split; simpl; congruence. Qed.

#[global] Instance default_copy_value_semantic : ValueSemantic default_copy :=
  trivially_copyable_value_semantic DefaultCopy.
#[global] Instance default_delete_value_semantic : ValueSemantic default_delete :=
  trivially_copyable_value_semantic DefaultDelete.

Lemma Z_eq_op_refl (v : Z) : eq_op v v = true.
Proof. apply Z.eqb_refl. Qed.

Lemma Z_new_copy_equal (h : gmap N Z) (t t' : Z) :
  new_copy h t = Returns t' → eq_op t' t = true.
Proof. intros [= <-]. apply Z.eqb_refl. Qed.

Lemma Z_ne_op_negates (a b : Z) : ne_op a b = negb (eq_op a b).
Proof. reflexivity. Qed.

Section WrapperFacts.
Context {T C D : Type} `{!SpecialMembers C, !SpecialMembers D}.
Variable copier : C → T → Mem T C D → Mem T C D * fallible N.
Variable deleter : D → N → Mem T C D → Mem T C D.
Implicit Types (w : World T C D) (o : indirect_value C D) (this i p : N).

Lemma load_Some w this o :
  objs (mem w) !! this = Some o → load this w = (w, Ok o).
Proof. intros E. unfold load. by rewrite E. Qed.

(** C4: the checked accessor, in each of its four ref-qualified forms,
    throws [bad_indirect_value_access] iff the wrapper is empty; otherwise it
    returns a reference to the pointee; in both cases nothing is
    modified. *)
Theorem value_throws_iff_empty (q : ref_qualifier) w this o :
  objs (mem w) !! this = Some o →
  (value q this w).1 = w ∧
  ((value q this w).2 = Throw bad_indirect_value_access ↔ to_bool o = false) ∧
  (to_bool o = true →
   ∃ r, (value q this w).2 = Ok r ∧ referent r = ptr_ o).
Proof.
  intros Ho. unfold value. rewrite (bind_Ok _ _ _ _ _ (load_Some _ _ _ Ho)).
  rewrite to_bool_false, to_bool_true. case_bool_decide as E.
  - split_and!; done.
  - split_and!; [done | split; [done | by intros ?] |].
    intros _. destruct q; eexists; split; reflexivity.
Qed.

(** C3: a default-constructed wrapper is empty for [operator bool] and for
    [has_value], and allocates nothing; a wrapper constructed in place from
    [v] is non-empty, and reading through the reference returned by
    [value()] yields [v] itself, which compares equal to [v] under an [==]
    that is reflexive at [v]. *)
Theorem construction_sets_emptiness `{!Comparable T T} w this (v : T) :
  ((default_ctor this w).2 = Ok () ∧
   heap (mem (default_ctor this w).1) = heap (mem w) ∧
   ∃ o, objs (mem (default_ctor this w).1) !! this = Some o ∧
        to_bool o = false ∧ has_value o = false) ∧
  ((in_place_ctor this v w).2 = Ok () ∧
   ∃ o, objs (mem (in_place_ctor this v w).1) !! this = Some o ∧
        to_bool o = true ∧ has_value o = true ∧
        ∀ q, (r ← value q this; read r) (in_place_ctor this v w).1
             = ((in_place_ctor this v w).1, Ok v) ∧
             (eq_op v v = true →
              ∃ v', (r ← value q this; read r) (in_place_ctor this v w).1
                    = ((in_place_ctor this v w).1, Ok v') ∧
                    eq_op v' v = true)).
Proof.
  split.
  - split_and!; [done | done |]. eexists. split; [apply lookup_insert_eq |].
    done.
  - unfold in_place_ctor.
    set (p := fresh_ptr (heap (mem w))).
    assert (Hnew : new v w =
      (mkWorld (mkMem (objs (mem w)) (<[p := v]> (heap (mem w)))) (trace w),
       Ok p)) by done.
    rewrite (bind_Ok _ _ _ _ _ Hnew). simpl.
    split; [done |]. eexists. split; [apply lookup_insert_eq |].
    assert (Hp : p ≠ nullptr) by apply fresh_ptr_nonnull.
    unfold to_bool, has_value. simpl. rewrite !bool_decide_true by done.
    split_and!; [done | done |]. intros q.
    match goal with |- ?G ∧ _ => assert (Hread : G) end.
    { erewrite bind_Ok.
      2:{ unfold value. erewrite bind_Ok by (apply load_Some, lookup_insert_eq).
          simpl. rewrite bool_decide_false by done. reflexivity. }
      unfold read, deref. destruct q; simpl; by rewrite lookup_insert_eq. }
    split; [exact Hread |]. intros Hrefl. exists v. by split.
Qed.

Lemma exchange_ptr_spec w this o p :
  objs (mem w) !! this = Some o →
  exchange_ptr this p w = ((store this (set_ptr p o) w).1, Ok (ptr_ o)).
Proof.
  intros Ho. unfold exchange_ptr.
  rewrite (bind_Ok _ _ _ _ _ (load_Some _ _ _ Ho)).
  by erewrite bind_Ok by reflexivity.
Qed.

Lemma reset_spec w this o :
  objs (mem w) !! this = Some o →
  reset deleter this w =
    (mkWorld (released deleter this o (mem w))
             (trace w ++ release_events this o (mem w)), Ok ()).
Proof.
  intros Ho. unfold reset, released, release_events.
  rewrite (bind_Ok _ _ _ _ _ (load_Some _ _ _ Ho)).
  case_bool_decide.
  - by rewrite (bind_Ok _ _ _ _ _ (exchange_ptr_spec _ _ _ _ Ho)).
  - rewrite app_nil_r. by destruct w.
Qed.

Lemma release_events_seen_empty this o (m : Mem T C D) :
  Forall (seen_empty this) (release_events this o m).
Proof.
  unfold release_events. case_bool_decide; [| constructor].
  repeat constructor; [done |]. exists (set_ptr nullptr o).
  split; [apply lookup_insert_eq | done].
Qed.

Lemma release_events_deleted this o (m : Mem T C D) :
  deleted (release_events this o m) = if to_bool o then [ptr_ o] else [].
Proof. unfold release_events, to_bool. by case_bool_decide. Qed.

Lemma guard_destroy_trace (g : guard) w :
  trace (guard_destroy deleter g w).1 = trace w ∨
  guarded g ≠ nullptr ∧
  ∃ d, trace (guard_destroy deleter g w).1
       = trace w ++ [deleter_called d (guarded g) (mem w)].
Proof.
  unfold guard_destroy. case_bool_decide as Hg; [| by left].
  destruct (objs (mem w) !! deleterRef g) as [oi|] eqn:Hi.
  - right. split; [done |]. exists (d_ oi).
    by rewrite (bind_Ok _ _ _ _ _ (load_Some _ _ _ Hi)).
  - left. erewrite bind_Undefined; [done |]. unfold load. by rewrite Hi.
Qed.

(** Member functions that call no policy leave the trace alone. *)
Ltac quiet :=
  intros;
  unfold copy_base_assign, delete_base_assign, copy_base_move_assign,
    delete_base_move_assign, exchange_ptr, end_lifetime, mbind, M_bind, bind,
    mret, M_ret, ret, load, store, lift;
  simpl; repeat (case_match; simpl in *; simplify_eq); done.

Lemma copy_assignment_tail_trace this i p w :
  trace ((copy_base_assign this i;;
          delete_base_assign this i;;
          o ← load this;
          store this (set_ptr p o)) w).1 = trace w.
Proof. quiet. Qed.

Lemma move_assignment_tail_trace this i w :
  trace ((copy_base_move_assign this i;;
          delete_base_move_assign this i;;
          p ← exchange_ptr i nullptr;
          o ← load this;
          store this (set_ptr p o)) w).1 = trace w.
Proof. quiet. Qed.

(** C10: every release of the owned allocation, in the destructor, in
    copy assignment and in move assignment, goes through [reset], which
    stores null in [ptr_] before it calls the deleter on the old handle:
    the deleter is entered with a memory in which the wrapper is empty.
    The deleter is never called on null, a release calls it at most once,
    and once released (by a deleter that leaves the wrapper alone) a second
    release calls nothing. *)
Theorem release_nulls_handle_before_delete w this i o :
  objs (mem w) !! this = Some o →
  reset deleter this w =
    (mkWorld (released deleter this o (mem w))
             (trace w ++ release_events this o (mem w)), Ok ()) ∧
  (∀ m : Mem T C D, Forall (seen_empty this) (release_events this o m)) ∧
  (∀ m : Mem T C D, deleted (release_events this o m)
                    = if to_bool o then [ptr_ o] else []) ∧
  trace (dtor deleter this w).1 = trace w ++ release_events this o (mem w) ∧
  trace (move_assignment deleter this i w).1
    = trace w ++ (if bool_decide (this ≠ i)
                  then release_events this o (mem w) else []) ∧
  (∀ w1 g,
     make_guarded_copy copier i w = (w1, Ok g) →
     objs (mem w1) !! this = Some o →
     ∃ cleanup,
       trace (copy_assignment copier deleter this i w).1
         = trace w1 ++ release_events this o (mem w1) ++ cleanup ∧
       (cleanup = [] ∨
        guarded g ≠ nullptr ∧
        (∃ e, (copy_assignment copier deleter this i w).2 = Throw e) ∧
        ∃ d m, cleanup = [deleter_called d (guarded g) m])) ∧
  ((∀ d p m, objs (deleter d p m) !! this = objs m !! this) →
   reset deleter this (reset deleter this w).1
     = ((reset deleter this w).1, Ok ())).
Proof.
  intros Ho. pose proof (reset_spec w this o Ho) as Hreset.
  split_and!.
  - exact Hreset.
  - intros m. apply release_events_seen_empty.
  - intros m. apply release_events_deleted.
  - unfold dtor. by rewrite (bind_Ok _ _ _ _ _ Hreset).
  - unfold move_assignment. case_bool_decide.
    + rewrite (bind_Ok _ _ _ _ _ Hreset).
      by rewrite move_assignment_tail_trace.
    + by rewrite app_nil_r.
  - intros w1 g Hg Ho1. unfold copy_assignment.
    rewrite (bind_Ok _ _ _ _ _ Hg). unfold unwinding.
    rewrite (bind_Ok _ _ _ _ _ (reset_spec w1 this o Ho1)).
    match goal with |- context [ match ?body ?s with _ => _ end ] =>
      pose proof (copy_assignment_tail_trace this i (guarded g) s) as Htail;
      destruct (body s) as [s' [[]|e|]] eqn:Hbody
    end; simpl in Htail |- *.
    + exists []. rewrite app_nil_r. by split; [| left].
    + destruct (guard_destroy_trace g s') as [Hq | (Hnn & d & Hq)].
      * exists []. rewrite app_nil_r, Hq. by split; [| left].
      * exists [deleter_called d (guarded g) (mem s')].
        rewrite Hq, Htail, <-app_assoc. split; [done |]. right.
        split_and!; eauto.
    + exists []. rewrite app_nil_r. by split; [| left].
  - intros Hkeep. rewrite Hreset. simpl.
    set (m1 := released deleter this o (mem w)).
    set (t1 := trace w ++ release_events this o (mem w)).
    assert (∃ o1, objs m1 !! this = Some o1 ∧ ptr_ o1 = nullptr)
      as (o1 & Ho1 & Hp1).
    { unfold m1, released. case_bool_decide as E.
      - exists (set_ptr nullptr o). rewrite Hkeep.
        split; [apply lookup_insert_eq | done].
      - by exists o. }
    rewrite (reset_spec (mkWorld m1 t1) this o1 Ho1).
    unfold released, release_events. simpl.
    rewrite !bool_decide_false by (rewrite Hp1; by intros ?).
    by rewrite app_nil_r.
Qed.

Lemma make_raw_copy_empty w i oi :
  objs (mem w) !! i = Some oi → ptr_ oi = nullptr →
  make_raw_copy copier i w = (w, Ok nullptr).
Proof.
  intros Hi Hp. unfold make_raw_copy.
  rewrite (bind_Ok _ _ _ _ _ (load_Some _ _ _ Hi)).
  by rewrite bool_decide_false by (intros ?; congruence).
Qed.

Lemma make_raw_copy_nonempty w i oi v :
  objs (mem w) !! i = Some oi → star (heap (mem w)) oi = Some v →
  make_raw_copy copier i w =
    (mkWorld (copier (c_ oi) v (mem w)).1
             (trace w ++ [copier_called (c_ oi) v]),
     to_outcome (copier (c_ oi) v (mem w)).2).
Proof.
  intros Hi [Hp Hv]%star_Some. unfold make_raw_copy.
  rewrite (bind_Ok _ _ _ _ _ (load_Some _ _ _ Hi)).
  rewrite bool_decide_true by done.
  erewrite bind_Ok; [reflexivity |]. unfold deref. by rewrite Hv.
Qed.

Lemma set_ptr_same o : set_ptr (ptr_ o) o = o.
Proof. by destruct o. Qed.

Lemma released_objs this o m :
  (∀ d p m, objs (deleter d p m) = objs m) →
  objs m !! this = Some o →
  objs (released deleter this o m) = <[this := set_ptr nullptr o]> (objs m).
Proof.
  intros Hkeep Ho. unfold released. case_bool_decide as E.
  - by rewrite Hkeep.
  - rewrite <-E, set_ptr_same. by rewrite insert_id.
Qed.

Lemma copy_base_assign_spec w this i o src :
  objs (mem w) !! this = Some o → objs (mem w) !! i = Some src →
  copy_base_assign this i w =
    ((store this (set_c (copy_assign (c_ o) (c_ src)).1 o) w).1,
     to_outcome (copy_assign (c_ o) (c_ src)).2).
Proof.
  intros Ho Hi. unfold copy_base_assign.
  rewrite (bind_Ok _ _ _ _ _ (load_Some _ _ _ Ho)).
  rewrite (bind_Ok _ _ _ _ _ (load_Some _ _ _ Hi)).
  by erewrite bind_Ok by reflexivity.
Qed.

Lemma delete_base_assign_spec w this i o src :
  objs (mem w) !! this = Some o → objs (mem w) !! i = Some src →
  delete_base_assign this i w =
    ((store this (set_d (copy_assign (d_ o) (d_ src)).1 o) w).1,
     to_outcome (copy_assign (d_ o) (d_ src)).2).
Proof.
  intros Ho Hi. unfold delete_base_assign.
  rewrite (bind_Ok _ _ _ _ _ (load_Some _ _ _ Ho)).
  rewrite (bind_Ok _ _ _ _ _ (load_Some _ _ _ Hi)).
  by erewrite bind_Ok by reflexivity.
Qed.

Lemma copy_base_move_assign_spec w this i o src :
  objs (mem w) !! this = Some o → objs (mem w) !! i = Some src →
  copy_base_move_assign this i w =
    ((store i (set_c (move_assign (c_ o) (c_ src)).2 src)
        (store this (set_c (move_assign (c_ o) (c_ src)).1 o) w).1).1, Ok ()).
Proof.
  intros Ho Hi. unfold copy_base_move_assign.
  rewrite (bind_Ok _ _ _ _ _ (load_Some _ _ _ Ho)).
  rewrite (bind_Ok _ _ _ _ _ (load_Some _ _ _ Hi)).
  by erewrite bind_Ok by reflexivity.
Qed.

Lemma delete_base_move_assign_spec w this i o src :
  objs (mem w) !! this = Some o → objs (mem w) !! i = Some src →
  delete_base_move_assign this i w =
    ((store i (set_d (move_assign (d_ o) (d_ src)).2 src)
        (store this (set_d (move_assign (d_ o) (d_ src)).1 o) w).1).1, Ok ()).
Proof.
  intros Ho Hi. unfold delete_base_move_assign.
  rewrite (bind_Ok _ _ _ _ _ (load_Some _ _ _ Ho)).
  rewrite (bind_Ok _ _ _ _ _ (load_Some _ _ _ Hi)).
  by erewrite bind_Ok by reflexivity.
Qed.

(** Looking an object up after a few stores. *)
Ltac lookup_stored :=
  simpl;
  repeat first [rewrite lookup_insert_eq | rewrite lookup_insert_ne by done];
  first [eassumption | reflexivity].

(** C5: for policy types whose moves hand over the value.  After move
    construction of [this] from [a], [this] holds the handle and the policies
    that [a] held and [a] is empty.  After move assignment of [a] to a
    distinct [this], the same holds provided that the release of the
    allocation [this] owned leaves the two wrappers themselves as they are,
    which it does unless [a] or [this] is a part of that allocation.  Both
    return normally; neither calls the copier, and the only change to the
    pointees is that release. *)
Theorem move_transfers_ownership `{!ValueSemantic C, !ValueSemantic D}
    w this a oa :
  objs (mem w) !! a = Some oa → this ≠ a →
  ((move_ctor this a w).2 = Ok () ∧
   objs (mem (move_ctor this a w).1) !! this = Some oa ∧
   (∃ oa', objs (mem (move_ctor this a w).1) !! a = Some oa' ∧
           to_bool oa' = false) ∧
   heap (mem (move_ctor this a w).1) = heap (mem w) ∧
   trace (move_ctor this a w).1 = trace w) ∧
  (∀ ob, objs (mem w) !! this = Some ob →
     objs (released deleter this ob (mem w)) !! this
       = Some (set_ptr nullptr ob) →
     objs (released deleter this ob (mem w)) !! a = Some oa →
     (move_assignment deleter this a w).2 = Ok () ∧
     objs (mem (move_assignment deleter this a w).1) !! this = Some oa ∧
     (∃ oa', objs (mem (move_assignment deleter this a w).1) !! a = Some oa' ∧
             to_bool oa' = false) ∧
     heap (mem (move_assignment deleter this a w).1)
       = heap (released deleter this ob (mem w)) ∧
     trace (move_assignment deleter this a w).1
       = trace w ++ release_events this ob (mem w)).
Proof.
  intros Ha Hne. split.
  - unfold move_ctor.
    rewrite (bind_Ok _ _ _ _ _ (load_Some _ _ _ Ha)). simpl.
    erewrite bind_Ok by reflexivity.
    erewrite bind_Ok
      by (apply exchange_ptr_spec; simpl; apply lookup_insert_eq).
    simpl. rewrite !move_construct_value.
    split_and!; try done.
    + rewrite lookup_insert_eq. by destruct oa.
    + eexists. rewrite lookup_insert_ne, lookup_insert_eq by done. done.
  - intros ob Hb Hkeepb Hkeepa.
    unfold move_assignment. rewrite bool_decide_true by done.
    rewrite (bind_Ok _ _ _ _ _ (reset_spec w this ob Hb)).
    set (w1 := mkWorld _ _).
    assert (Hb1 : objs (mem w1) !! this = Some (set_ptr nullptr ob)) by done.
    assert (Ha1 : objs (mem w1) !! a = Some oa) by done.
    erewrite bind_Ok
      by (eapply copy_base_move_assign_spec; lookup_stored).
    erewrite bind_Ok
      by (eapply delete_base_move_assign_spec; lookup_stored).
    erewrite bind_Ok by (eapply exchange_ptr_spec; lookup_stored).
    erewrite bind_Ok by (eapply load_Some; lookup_stored).
    simpl. rewrite !move_assign_value.
    split_and!; try done.
    + rewrite lookup_insert_eq. by destruct oa.
    + eexists. rewrite lookup_insert_ne, lookup_insert_eq by done. done.
Qed.

(** C2: with a copier that keeps to its contract, and when the copy
    constructors of the policies and the copier return: copy construction
    from a non-empty wrapper [a] calls [a]'s copier once, on [a]'s pointee,
    and yields a non-empty wrapper that holds the returned allocation and
    copies of [a]'s policies; its pointee compares equal to [a]'s, lives at
    another address, and writing to it leaves [a] and [a]'s pointee as they
    were.  From an empty wrapper it yields an empty wrapper, and calls
    nothing. *)
Theorem copy_construction_is_deep `{!Comparable T T} w this a oa c' d' :
  copier_contract copier →
  objs (mem w) !! a = Some oa → this ≠ a →
  copy_construct (c_ oa) = Returns c' → copy_construct (d_ oa) = Returns d' →
  (to_bool oa = false →
   (copy_ctor copier this a w).2 = Ok () ∧
   objs (mem (copy_ctor copier this a w).1) !! this
     = Some (IndirectValue c' d' nullptr) ∧
   to_bool (IndirectValue c' d' nullptr) = false ∧
   heap (mem (copy_ctor copier this a w).1) = heap (mem w) ∧
   trace (copy_ctor copier this a w).1 = trace w) ∧
  (∀ v p,
     star (heap (mem w)) oa = Some v →
     (copier (c_ oa) v (mem w)).2 = Returns p →
     (copy_ctor copier this a w).2 = Ok () ∧
     trace (copy_ctor copier this a w).1
       = trace w ++ [copier_called (c_ oa) v] ∧
     objs (mem (copy_ctor copier this a w).1) !! this
       = Some (IndirectValue c' d' p) ∧
     to_bool (IndirectValue c' d' p) = true ∧
     (∃ v', star (heap (mem (copy_ctor copier this a w).1))
                 (IndirectValue c' d' p) = Some v' ∧
            eq_op v' v = true) ∧
     p ≠ ptr_ oa ∧
     objs (mem (copy_ctor copier this a w).1) !! a = Some oa ∧
     star (heap (mem (copy_ctor copier this a w).1)) oa = Some v ∧
     ∀ u, (write p u (copy_ctor copier this a w).1).2 = Ok () ∧
          star (heap (mem (write p u (copy_ctor copier this a w).1).1))
               (IndirectValue c' d' p) = Some u ∧
          star (heap (mem (write p u (copy_ctor copier this a w).1).1)) oa
            = Some v).
Proof.
  intros Hcopier Ha Hne Hc Hd.
  assert (Hpre : copy_ctor copier this a w
            = (p ← make_raw_copy copier a; store this (IndirectValue c' d' p)) w).
  { unfold copy_ctor.
    rewrite (bind_Ok _ _ _ _ _ (load_Some _ _ _ Ha)).
    erewrite bind_Ok by (unfold lift; rewrite Hc; reflexivity).
    by erewrite bind_Ok by (unfold lift; rewrite Hd; reflexivity). }
  rewrite Hpre. clear Hpre. split.
  - intros He%to_bool_false.
    rewrite (bind_Ok _ _ _ _ _ (make_raw_copy_empty _ _ _ Ha He)). simpl.
    by rewrite lookup_insert_eq.
  - intros v p Hv Hp.
    pose proof (make_raw_copy_nonempty _ _ _ _ Ha Hv) as Hm.
    rewrite Hp in Hm. rewrite (bind_Ok _ _ _ _ _ Hm). clear Hm. simpl.
    destruct (Hcopier (c_ oa) v (mem w)) as (Hobjs & Hframe & Hnew).
    rewrite Hp in Hnew. destruct Hnew as (Hp0 & Hfresh & v' & Hv' & Heq).
    apply star_Some in Hv as [Ha0 Hv].
    assert (Hpa : p ≠ ptr_ oa) by (intros ->; congruence).
    assert (Hva : heap (copier (c_ oa) v (mem w)).1 !! ptr_ oa = Some v)
      by (rewrite Hframe; [done | by eexists]).
    unfold to_bool. simpl. rewrite bool_decide_true by done.
    split_and!; try done.
    + by rewrite lookup_insert_eq.
    + exists v'. split; [| done]. by apply star_Some.
    + rewrite lookup_insert_ne by done. by rewrite Hobjs.
    + by apply star_Some.
    + intros u. unfold write. simpl. rewrite Hv'. simpl.
      split_and!; [done | |].
      * apply star_Some. split; [done |]. simpl. apply lookup_insert_eq.
      * apply star_Some. split; [done |]. by rewrite lookup_insert_ne.
Qed.

(** *** Copy assignment, step by step *)

Lemma released_heap this o (m : Mem T C D) q :
  deleter_contract deleter →
  (ptr_ o ≠ nullptr → q ≠ ptr_ o) →
  heap (released deleter this o m) !! q = heap m !! q.
Proof.
  intros Hdel Hq. unfold released. case_bool_decide as E; [| done].
  destruct (Hdel (d_ o) (ptr_ o) (emptied this o m)) as [_ Hframe].
  by rewrite Hframe by auto.
Qed.

Lemma guard_destroy_objs (g : guard) w :
  deleter_contract deleter →
  objs (mem (guard_destroy deleter g w).1) = objs (mem w).
Proof.
  intros Hdel. unfold guard_destroy. case_bool_decide; [| done].
  destruct (objs (mem w) !! deleterRef g) as [oi|] eqn:Hi.
  - rewrite (bind_Ok _ _ _ _ _ (load_Some _ _ _ Hi)). simpl. apply Hdel.
  - erewrite bind_Undefined; [done |]. unfold load. by rewrite Hi.
Qed.

(** The statements of [copy_assignment] once the guarded copy [p] is made:
    release, assign the copier, assign the deleter, take over [p]. *)
Lemma copy_assignment_body w this i o src p :
  deleter_contract deleter →
  objs (mem w) !! this = Some o → objs (mem w) !! i = Some src →
  (reset deleter this;;
   copy_base_assign this i;;
   delete_base_assign this i;;
   o' ← load this;
   store this (set_ptr p o')) w
  = let w2 := mkWorld (released deleter this o (mem w))
                      (trace w ++ release_events this o (mem w)) in
    let rc := copy_assign (c_ o) (c_ src) in
    let rd := copy_assign (d_ o) (d_ src) in
    let o3 := set_c rc.1 (set_ptr nullptr o) in
    let o4 := set_d rd.1 o3 in
    match rc.2 with
    | Returns _ =>
        match rd.2 with
        | Returns _ => ((store this (set_ptr p o4)
                           (store this o4 (store this o3 w2).1).1).1, Ok ())
        | Throws e => ((store this o4 (store this o3 w2).1).1, Throw e)
        end
    | Throws e => ((store this o3 w2).1, Throw e)
    end.
Proof.
  intros Hdel Ho Hi.
  assert (Hkeep : ∀ d p m, objs (deleter d p m) = objs m)
    by (intros; apply Hdel).
  rewrite (bind_Ok _ _ _ _ _ (reset_spec w this o Ho)).
  pose proof (released_objs this o (mem w) Hkeep Ho) as Hobjs.
  set (w2 := mkWorld _ _).
  assert (Ho2 : objs (mem w2) !! this = Some (set_ptr nullptr o))
    by (simpl; rewrite Hobjs; apply lookup_insert_eq).
  assert (∃ src2, objs (mem w2) !! i = Some src2 ∧
                  c_ src2 = c_ src ∧ d_ src2 = d_ src) as (src2 & Hi2 & Ec & Ed).
  { simpl. rewrite Hobjs. destruct (decide (this = i)) as [<-|Hne].
    - exists (set_ptr nullptr o). rewrite lookup_insert_eq.
      by replace src with o by congruence.
    - exists src. by rewrite lookup_insert_ne. }
  simpl.
  pose proof (copy_base_assign_spec w2 this i _ _ Ho2 Hi2) as Hc.
  simpl in Hc. rewrite Ec in Hc.
  set (rc := copy_assign (c_ o) (c_ src)) in *.
  set (o3 := set_c rc.1 (set_ptr nullptr o)) in *.
  destruct rc.2 as [[]|e] eqn:Erc;
    [| by rewrite (bind_Throw _ _ _ _ _ Hc)].
  rewrite (bind_Ok _ _ _ _ _ Hc). clear Hc.
  set (w3 := (store this o3 w2).1).
  assert (Ho3 : objs (mem w3) !! this = Some o3) by apply lookup_insert_eq.
  assert (∃ src3, objs (mem w3) !! i = Some src3 ∧ d_ src3 = d_ src)
    as (src3 & Hi3 & Ed3).
  { destruct (decide (this = i)) as [<-|Hne].
    - exists o3. split; [done |]. simpl. by replace src with o by congruence.
    - exists src2. split; [| done]. simpl. by rewrite lookup_insert_ne. }
  pose proof (delete_base_assign_spec w3 this i _ _ Ho3 Hi3) as Hd.
  simpl in Hd. rewrite Ed3 in Hd.
  set (rd := copy_assign (d_ o) (d_ src)) in *.
  set (o4 := set_d rd.1 o3) in *.
  destruct rd.2 as [[]|e] eqn:Erd;
    [| by rewrite (bind_Throw _ _ _ _ _ Hd)].
  rewrite (bind_Ok _ _ _ _ _ Hd). clear Hd.
  by erewrite bind_Ok by (apply load_Some, lookup_insert_eq).
Qed.

Lemma make_guarded_copy_empty w i oi :
  objs (mem w) !! i = Some oi → ptr_ oi = nullptr →
  make_guarded_copy copier i w = (w, Ok (Guard nullptr i)).
Proof.
  intros Hi Hp. unfold make_guarded_copy.
  by rewrite (bind_Ok _ _ _ _ _ (make_raw_copy_empty _ _ _ Hi Hp)).
Qed.

Lemma make_guarded_copy_nonempty w i oi v :
  objs (mem w) !! i = Some oi → star (heap (mem w)) oi = Some v →
  make_guarded_copy copier i w =
    (mkWorld (copier (c_ oi) v (mem w)).1
             (trace w ++ [copier_called (c_ oi) v]),
     match (copier (c_ oi) v (mem w)).2 with
     | Returns p => Ok (Guard p i)
     | Throws e => Throw e
     end).
Proof.
  intros Hi Hv. unfold make_guarded_copy.
  pose proof (make_raw_copy_nonempty _ _ _ _ Hi Hv) as Hm.
  destruct (copier (c_ oi) v (mem w)).2 as [p|e].
  - by rewrite (bind_Ok _ _ _ _ _ Hm).
  - by rewrite (bind_Throw _ _ _ _ _ Hm).
Qed.

Lemma deleted_app (tr1 tr2 : list (event T C D)) :
  deleted (tr1 ++ tr2) = deleted tr1 ++ deleted tr2.
Proof. apply omap_app. Qed.

(** The guarded copy, when the copier does not throw. *)
Lemma guarded_copy_made `{!Comparable T T} w i oi :
  copier_contract copier →
  objs (mem w) !! i = Some oi → owned (heap (mem w)) oi →
  (∀ v, star (heap (mem w)) oi = Some v →
        ∃ p, (copier (c_ oi) v (mem w)).2 = Returns p) →
  ∃ w1 p,
    make_guarded_copy copier i w = (w1, Ok (Guard p i)) ∧
    objs (mem w1) = objs (mem w) ∧
    (∀ q, is_Some (heap (mem w) !! q) →
          heap (mem w1) !! q = heap (mem w) !! q) ∧
    trace w1 = trace w ++ match star (heap (mem w)) oi with
                          | Some v => [copier_called (c_ oi) v]
                          | None => []
                          end ∧
    match star (heap (mem w)) oi with
    | Some v => p ≠ nullptr ∧ heap (mem w) !! p = None ∧
                ∃ v', heap (mem w1) !! p = Some v' ∧ eq_op v' v = true
    | None => p = nullptr
    end.
Proof.
  intros Hcop Hi Hown Hok. destruct (to_bool oi) eqn:E.
  - destruct (owned_star _ _ Hown E) as [v Hv].
    destruct (Hok v Hv) as [p Hp]. eexists _, p.
    rewrite (make_guarded_copy_nonempty _ _ _ _ Hi Hv), Hp, Hv.
    destruct (Hcop (c_ oi) v (mem w)) as (? & ? & Hnew).
    rewrite Hp in Hnew. destruct Hnew as (? & ? & ?). simpl.
    by split_and!.
  - exists w, nullptr. rewrite star_empty by done.
    rewrite app_nil_r. split_and!; try done.
    apply (make_guarded_copy_empty w i oi); [done | by apply to_bool_false].
Qed.

(** *** Copy assignment when the releases spare what it works on *)

(** A deleter that keeps to its contract spares everything. *)
Lemma contract_spares t s os (h0 : gmap N T) ev :
  deleter_contract deleter → spares deleter t s os h0 ev.
Proof.
  intros Hdel. destruct ev as [|d q entry]; [done |]. simpl.
  destruct (Hdel d q entry) as [Hobjs Hframe]. rewrite Hobjs.
  split_and!; [done | done |]. intros q' Hq _. by apply Hframe.
Qed.

Lemma contract_spares_all t s os (h0 : gmap N T) evs :
  deleter_contract deleter → Forall (spares deleter t s os h0) evs.
Proof.
  intros Hdel. apply Forall_forall. intros ev _. by apply contract_spares.
Qed.

(** [copy_assignment_body] again, knowing of the release only that it left
    the two wrappers. *)
Lemma copy_assignment_body_spared w this i o src src2 p :
  objs (mem w) !! this = Some o →
  objs (released deleter this o (mem w)) !! this = Some (set_ptr nullptr o) →
  objs (released deleter this o (mem w)) !! i = Some src2 →
  c_ src2 = c_ src → d_ src2 = d_ src →
  (reset deleter this;;
   copy_base_assign this i;;
   delete_base_assign this i;;
   o' ← load this;
   store this (set_ptr p o')) w
  = let w2 := mkWorld (released deleter this o (mem w))
                      (trace w ++ release_events this o (mem w)) in
    let rc := copy_assign (c_ o) (c_ src) in
    let rd := copy_assign (d_ o) (d_ src) in
    let o3 := set_c rc.1 (set_ptr nullptr o) in
    let o4 := set_d rd.1 o3 in
    match rc.2 with
    | Returns _ =>
        match rd.2 with
        | Returns _ => ((store this (set_ptr p o4)
                           (store this o4 (store this o3 w2).1).1).1, Ok ())
        | Throws e => ((store this o4 (store this o3 w2).1).1, Throw e)
        end
    | Throws e => ((store this o3 w2).1, Throw e)
    end.
Proof.
  intros Ho Ho2 Hi2 Ec Ed.
  rewrite (bind_Ok _ _ _ _ _ (reset_spec w this o Ho)).
  set (w2 := mkWorld _ _).
  change (objs (mem w2) !! this = Some (set_ptr nullptr o)) in Ho2.
  change (objs (mem w2) !! i = Some src2) in Hi2.
  simpl.
  pose proof (copy_base_assign_spec w2 this i _ _ Ho2 Hi2) as Hc.
  simpl in Hc. rewrite Ec in Hc.
  set (rc := copy_assign (c_ o) (c_ src)) in *.
  set (o3 := set_c rc.1 (set_ptr nullptr o)) in *.
  destruct rc.2 as [[]|e] eqn:Erc;
    [| by rewrite (bind_Throw _ _ _ _ _ Hc)].
  rewrite (bind_Ok _ _ _ _ _ Hc). clear Hc.
  set (w3 := (store this o3 w2).1).
  assert (Ho3 : objs (mem w3) !! this = Some o3) by apply lookup_insert_eq.
  assert (∃ src3, objs (mem w3) !! i = Some src3 ∧ d_ src3 = d_ src)
    as (src3 & Hi3 & Ed3).
  { destruct (decide (this = i)) as [<-|Hne].
    - exists o3. split; [done |]. simpl.
      rewrite <-Ed. by replace src2 with (set_ptr nullptr o) by congruence.
    - exists src2. split; [| done]. simpl. by rewrite lookup_insert_ne. }
  pose proof (delete_base_assign_spec w3 this i _ _ Ho3 Hi3) as Hd.
  simpl in Hd. rewrite Ed3 in Hd.
  set (rd := copy_assign (d_ o) (d_ src)) in *.
  set (o4 := set_d rd.1 o3) in *.
  destruct rd.2 as [[]|e] eqn:Erd;
    [| by rewrite (bind_Throw _ _ _ _ _ Hd)].
  rewrite (bind_Ok _ _ _ _ _ Hd). clear Hd.
  by erewrite bind_Ok by (apply load_Some, lookup_insert_eq).
Qed.

(** Whatever happens after the guarded copy is made, the trace goes on with
    the release of the pointee of [this]. *)
Lemma copy_assignment_trace_after_copy w w1 this i o p :
  make_guarded_copy copier i w = (w1, Ok (Guard p i)) →
  objs (mem w1) !! this = Some o →
  ∃ evs, trace (copy_assignment copier deleter this i w).1
         = trace w1 ++ release_events this o (mem w1) ++ evs.
Proof.
  intros Hg Ho. unfold copy_assignment.
  rewrite (bind_Ok _ _ _ _ _ Hg). unfold unwinding.
  rewrite (bind_Ok _ _ _ _ _ (reset_spec w1 this o Ho)).
  set (w2 := mkWorld _ _).
  pose proof (copy_assignment_tail_trace this i (guarded (Guard p i)) w2)
    as Htail.
  destruct ((copy_base_assign this i;; delete_base_assign this i;;
             o' ← load this; store this (set_ptr (guarded (Guard p i)) o'))
              w2) as [w3 [[]|e|]]; simpl in Htail |- *.
  - exists []. by rewrite Htail, app_nil_r.
  - destruct (guard_destroy_trace (Guard p i) w3) as [E | [_ [d E]]];
      rewrite E, Htail; simpl.
    + exists []. by rewrite app_nil_r.
    + eexists. by rewrite <-app_assoc.
  - exists []. by rewrite Htail, app_nil_r.
Qed.

(** The guard's release of a copy that was not installed. *)
Lemma guard_release_spec p i oi w :
  p ≠ nullptr → objs (mem w) !! i = Some oi →
  guard_destroy deleter (Guard p i) w
  = (mkWorld (deleter (d_ oi) p (mem w))
             (trace w ++ [deleter_called (d_ oi) p (mem w)]), Ok ()).
Proof.
  intros Hp Hi. unfold guard_destroy. simpl. rewrite bool_decide_true by done.
  by rewrite (bind_Ok _ _ _ _ _ (load_Some _ _ _ Hi)).
Qed.


Lemma guard_destroy_null i w :
  guard_destroy deleter (Guard nullptr i) w = (w, Ok ()).
Proof. reflexivity. Qed.

Lemma guard_destroy_nonnull p i oi w :
  p ≠ nullptr → objs (mem w) !! i = Some oi →
  guard_destroy deleter (Guard p i) w
  = (mkWorld (deleter (d_ oi) p (mem w))
             (trace w ++ [deleter_called (d_ oi) p (mem w)]), Ok ()).
Proof.
  intros Hp Hi. unfold guard_destroy. simpl. rewrite bool_decide_true by done.
  by rewrite (bind_Ok _ _ _ _ _ (load_Some _ _ _ Hi)).
Qed.

(** C6: self-assignment of a wrapper that owns a live pointee, with policies
    that keep to their contracts.  The move form does nothing at all.  The
    copy form copies the pointee before it releases it and never reads a
    released object: when it returns, [a] is empty iff it was and its pointee
    compares equal to the former one; it returns whenever neither the copier
    nor a policy's copy assignment throws; when the copier throws [a] is
    untouched.  Whatever happens, the owned allocation is handed to the
    deleter at most once, and every deleter call finds [a] empty. *)
Theorem self_assignment_is_harmless `{!Comparable T T} w a oa :
  copier_contract copier → deleter_contract deleter →
  objs (mem w) !! a = Some oa → owned (heap (mem w)) oa →
  move_assignment deleter a a w = (w, Ok ()) ∧
  (copy_assignment copier deleter a a w).2 ≠ Undefined ∧
  (∃ delta,
     trace (copy_assignment copier deleter a a w).1 = trace w ++ delta ∧
     Forall (seen_empty a) delta ∧
     length (filter (λ q, q = ptr_ oa) (deleted delta)) ≤ 1) ∧
  ((copy_assignment copier deleter a a w).2 = Ok () →
   ∃ oa', objs (mem (copy_assignment copier deleter a a w).1) !! a = Some oa' ∧
          to_bool oa' = to_bool oa ∧
          match star (heap (mem w)) oa with
          | Some v =>
              (∃ v', star (heap (mem (copy_assignment copier deleter a a w).1))
                          oa' = Some v' ∧ eq_op v' v = true) ∧
              ∃ m, trace (copy_assignment copier deleter a a w).1
                   = trace w ++ [copier_called (c_ oa) v;
                                 deleter_called (d_ oa) (ptr_ oa) m]
          | None => trace (copy_assignment copier deleter a a w).1 = trace w
          end) ∧
  ((∀ v, star (heap (mem w)) oa = Some v →
         ∃ p, (copier (c_ oa) v (mem w)).2 = Returns p) →
   (copy_assign (c_ oa) (c_ oa)).2 = Returns () →
   (copy_assign (d_ oa) (d_ oa)).2 = Returns () →
   (copy_assignment copier deleter a a w).2 = Ok ()) ∧
  (∀ v e,
     star (heap (mem w)) oa = Some v →
     (copier (c_ oa) v (mem w)).2 = Throws e →
     copy_assignment copier deleter a a w
     = (mkWorld (copier (c_ oa) v (mem w)).1
                (trace w ++ [copier_called (c_ oa) v]), Throw e) ∧
     objs (copier (c_ oa) v (mem w)).1 !! a = Some oa ∧
     star (heap (copier (c_ oa) v (mem w)).1) oa = Some v).
Proof.
  intros Hcop Hdel Ha Hown.
  split.
  { unfold move_assignment. by rewrite bool_decide_false by (by intros ?). }
  assert (Hthrows : ∀ v e,
     star (heap (mem w)) oa = Some v →
     (copier (c_ oa) v (mem w)).2 = Throws e →
     copy_assignment copier deleter a a w
     = (mkWorld (copier (c_ oa) v (mem w)).1
                (trace w ++ [copier_called (c_ oa) v]), Throw e)).
  { intros v e Hv He. unfold copy_assignment.
    pose proof (make_guarded_copy_nonempty _ _ _ _ Ha Hv) as Hg.
    rewrite He in Hg. by rewrite (bind_Throw _ _ _ _ _ Hg). }
  destruct (to_bool oa) eqn:E.
  - (* [a] holds a value *)
    destruct (owned_star _ _ Hown E) as [v Hv]. rewrite Hv.
    destruct (Hcop (c_ oa) v (mem w)) as (Hobjs & Hframe & Hnew).
    pose proof Hv as [Hp0 Hlive]%star_Some.
    destruct (copier (c_ oa) v (mem w)).2 as [p|e] eqn:Hp.
    + destruct Hnew as (Hpn & Hfresh & v' & Hv' & Heq).
      assert (Hpa : p ≠ ptr_ oa) by (intros ->; congruence).
      pose proof (make_guarded_copy_nonempty _ _ _ _ Ha Hv) as Hg.
      rewrite Hp in Hg.
      set (w1 := mkWorld (copier (c_ oa) v (mem w)).1
                         (trace w ++ [copier_called (c_ oa) v])) in *.
      assert (Ha1 : objs (mem w1) !! a = Some oa) by (simpl; by rewrite Hobjs).
      assert (Hbody := copy_assignment_body w1 a a oa oa p Hdel Ha1 Ha1).
      assert (Hrel : release_events a oa (mem w1)
                     = [deleter_called (d_ oa) (ptr_ oa) (emptied a oa (mem w1))])
        by (unfold release_events; by rewrite bool_decide_true).
      assert (Hnewlive : heap (released deleter a oa (mem w1)) !! p = Some v')
        by (rewrite released_heap; [done | done | by intros _]).
      unfold copy_assignment. rewrite (bind_Ok _ _ _ _ _ Hg). unfold unwinding.
      cbn [guarded]. rewrite Hbody, Hrel. clear Hbody. simpl.
      destruct (copy_assign (c_ oa) (c_ oa)).2 as [[]|e1] eqn:Ec;
        [destruct (copy_assign (d_ oa) (d_ oa)).2 as [[]|e2] eqn:Ed |];
        simpl.
      * (* both assignments return *)
        split_and!.
        -- done.
        -- eexists. rewrite <-app_assoc. split; [reflexivity |]. simpl.
           split.
           { repeat constructor; [done |]. eexists.
             split; [apply lookup_insert_eq | done]. }
           rewrite filter_cons_True by done. simpl. lia.
        -- intros _. eexists. rewrite lookup_insert_eq. split; [done |].
           split; [unfold to_bool; simpl; by rewrite bool_decide_true |].
           split.
           { exists v'. split; [| done]. by apply star_Some. }
           eexists. by rewrite <-app_assoc.
        -- done.
        -- intros ?? [= <-] ?. congruence.
      * (* the deleter's assignment throws *)
        erewrite guard_destroy_nonnull;
          [| exact Hpn | simpl; apply lookup_insert_eq].
        simpl. split_and!.
        -- done.
        -- eexists. rewrite <-!app_assoc. split; [reflexivity |]. simpl.
           split.
           { repeat constructor; try done;
               eexists; (split; [apply lookup_insert_eq | done]). }
           rewrite filter_cons_True by done.
           rewrite filter_cons_False by done. simpl. lia.
        -- done.
        -- done.
        -- intros ?? [= <-] ?. congruence.
      * (* the copier's assignment throws *)
        erewrite guard_destroy_nonnull;
          [| exact Hpn | simpl; apply lookup_insert_eq].
        simpl. split_and!.
        -- done.
        -- eexists. rewrite <-!app_assoc. split; [reflexivity |]. simpl.
           split.
           { repeat constructor; try done;
               eexists; (split; [apply lookup_insert_eq | done]). }
           rewrite filter_cons_True by done.
           rewrite filter_cons_False by done. simpl. lia.
        -- done.
        -- done.
        -- intros ?? [= <-] ?. congruence.
    + rewrite (Hthrows v e Hv Hp). simpl. split_and!.
      * done.
      * eexists. split; [reflexivity |]. simpl. split; [| lia].
        by repeat constructor.
      * done.
      * intros Hok. destruct (Hok v eq_refl) as [? ?]. congruence.
      * intros ? e0 [= <-] He0. replace e0 with e by congruence.
        split; [done |]. split; [by rewrite Hobjs |].
        apply star_Some. split; [done |]. by rewrite Hframe by auto.
  - (* [a] is empty *)
    pose proof E as Hp0%to_bool_false.
    rewrite (star_empty _ _ E).
    pose proof (make_guarded_copy_empty w a oa Ha Hp0) as Hg.
    assert (Hbody := copy_assignment_body w a a oa oa nullptr Hdel Ha Ha).
    assert (Hrel : release_events a oa (mem w) = [])
      by (unfold release_events; by rewrite bool_decide_false by congruence).
    unfold copy_assignment. rewrite (bind_Ok _ _ _ _ _ Hg). unfold unwinding.
    cbn [guarded]. rewrite Hbody, Hrel, app_nil_r. clear Hbody. simpl.
    destruct (copy_assign (c_ oa) (c_ oa)).2 as [[]|e1] eqn:Ec;
      [destruct (copy_assign (d_ oa) (d_ oa)).2 as [[]|e2] eqn:Ed |];
      simpl; rewrite ?guard_destroy_null; simpl;
      (split_and!;
       [ done
       | exists []; rewrite app_nil_r; split; [done |]; split;
         [constructor | simpl; lia]
       | try done
       | try done
       | intros ?? [=] ]).
    intros _. eexists. rewrite lookup_insert_eq. done.
Qed.
End WrapperFacts.

(** ** The statements at work on the sample worlds *)

Lemma owned_demo_full : owned (heap (mem demo_world)) demo_full.
Proof. intros _. by exists 42%Z. Qed.

Lemma owned_demo_empty : owned (heap (mem demo_world)) demo_empty.
Proof. by intros []. Qed.

Lemma owned_demo_other : owned (heap (mem demo_world)) demo_other.
Proof. intros _. by exists 7%Z. Qed.


Lemma ordering_puts_empty_first_witness :
  to_bool demo_empty = false ∧
  operator_lt (heap (mem demo_world)) (heap (mem demo_world))
              demo_empty demo_empty = Some false ∧
  null_operator_le demo_full = true ∧
  (* 7 and 42 *)
  operator_lt (heap (mem demo_world)) (heap (mem demo_world))
              demo_other demo_full = Some true ∧
  operator_ge (heap (mem demo_world)) (heap (mem demo_world))
              demo_other demo_full = Some false ∧
  operator_lt (heap (mem demo_world)) (heap (mem demo_world))
              demo_empty demo_full = Some true ∧
  operator_lt (heap (mem demo_world)) (heap (mem demo_world))
              demo_other demo_empty = Some false.
Proof.
  split; [reflexivity |].
  destruct (ordering_puts_empty_first
              (heap (mem demo_world)) (heap (mem demo_world))
              demo_other demo_full demo_empty demo_empty eq_refl eq_refl)
    as (Hey & Hxe & Hlt & _ & Hle & _ & Hboth).
  destruct (Hboth owned_demo_other owned_demo_full eq_refl eq_refl)
    as (a & b & Ha & Hb & Hab & _ & _ & Hge).
  assert (Ea : a = 7%Z) by (injection Ha; intros <-; reflexivity).
  assert (Eb : b = 42%Z) by (injection Hb; intros <-; reflexivity).
  rewrite Ea, Eb in Hab, Hge.
  split; [exact Hlt |]. split; [reflexivity |].
  split; [exact Hab |]. split; [exact Hge |].
  split; [exact (Hey eq_refl) | exact (Hxe eq_refl)].
Defined.

Lemma raw_comparisons_witness :
  to_bool demo_empty = false ∧
  operator_lt_raw (heap (mem demo_world)) demo_empty 5%Z = Some true ∧
  raw_operator_gt (heap (mem demo_world)) 5%Z demo_empty = Some true ∧
  (* 42 against 5, and 5 against 7 *)
  operator_lt_raw (heap (mem demo_world)) demo_full 5%Z = Some false ∧
  operator_eq_raw (heap (mem demo_world)) demo_full 5%Z = Some false ∧
  raw_operator_lt (heap (mem demo_world)) 5%Z demo_other = Some true.
Proof.
  split; [reflexivity |].
  destruct (raw_comparisons
              (heap (mem demo_world)) (heap (mem demo_world))
              demo_full demo_other demo_empty demo_empty 5%Z 5%Z
              eq_refl eq_refl)
    as ((Hlt & _) & (Hgt & _) & Hx & Hy).
  destruct (Hx owned_demo_full eq_refl) as (a & Ha & Heq & _ & Hlta & _).
  destruct (Hy owned_demo_other eq_refl) as (b & Hb & _ & _ & Hltb & _).
  assert (Ea : a = 42%Z) by (injection Ha; intros <-; reflexivity).
  assert (Eb : b = 7%Z) by (injection Hb; intros <-; reflexivity).
  rewrite Ea in Heq, Hlta. rewrite Eb in Hltb.
  split; [exact Hlt |]. split; [exact Hgt |].
  split; [exact Hlta |]. split; [exact Heq | exact Hltb].
Defined.

Lemma value_throws_iff_empty_witness :
  objs (mem demo_world) !! 2%N = Some demo_empty ∧
  (value const_lvalue_ref 2%N demo_world).2 = Throw bad_indirect_value_access.
Proof.
  split; [reflexivity |].
  apply (value_throws_iff_empty const_lvalue_ref demo_world 2%N demo_empty
           eq_refl).
  reflexivity.
Defined.

Lemma construction_sets_emptiness_witness :
  eq_op 42%Z 42%Z = true ∧
  ∃ v', (r ← value lvalue_ref 5%N; read r) (in_place_ctor 5%N 42%Z demo_world).1
        = ((in_place_ctor 5%N 42%Z demo_world).1, Ok v') ∧
        eq_op v' 42%Z = true.
Proof.
  split; [reflexivity |].
  destruct (construction_sets_emptiness demo_world 5%N 42%Z)
    as (_ & _ & o & _ & _ & _ & Hv).
  exact (proj2 (Hv lvalue_ref) eq_refl).
Defined.

Lemma release_nulls_handle_before_delete_witness :
  objs (mem demo_world) !! 1%N = Some demo_full ∧
  trace (dtor default_delete_call 1%N demo_world).1
    = trace demo_world ++ release_events 1%N demo_full (mem demo_world) ∧
  Forall (seen_empty 1%N) (release_events 1%N demo_full (mem demo_world)).
Proof.
  split; [reflexivity |].
  destruct (release_nulls_handle_before_delete
              default_copy_call default_delete_call
              demo_world 1%N 3%N demo_full eq_refl)
    as (_ & Hseen & _ & Hdtor & _).
  split; [exact Hdtor | exact (Hseen _)].
Defined.

Lemma move_transfers_ownership_witness :
  objs (mem demo_world) !! 1%N = Some demo_full ∧
  3%N ≠ 1%N ∧
  (move_ctor 5%N 1%N demo_world).2 = Ok () ∧
  objs (mem (move_ctor 5%N 1%N demo_world).1) !! 5%N = Some demo_full ∧
  (* [int] pointees: the wrapper at 3 gives up 11 and takes over 10 *)
  objs (released default_delete_call 3%N demo_other (mem demo_world)) !! 1%N
    = Some demo_full ∧
  (move_assignment default_delete_call 3%N 1%N demo_world).2 = Ok () ∧
  objs (mem (move_assignment default_delete_call 3%N 1%N demo_world).1) !! 3%N
    = Some demo_full ∧
  (* nodes: the release of the list at 1 destroys the wrappers in it and
     leaves the list at 4 alone *)
  objs (released (node_delete 8) 1%N
          (IndirectValue DefaultCopy DefaultDelete 10%N) (mem list_world))
    !! 2%N = None ∧
  objs (released (node_delete 8) 1%N
          (IndirectValue DefaultCopy DefaultDelete 10%N) (mem list_world))
    !! 4%N = Some (IndirectValue DefaultCopy DefaultDelete 12%N) ∧
  (move_assignment (node_delete 8) 1%N 4%N list_world).2 = Ok () ∧
  objs (mem (move_assignment (node_delete 8) 1%N 4%N list_world).1) !! 1%N
    = Some (IndirectValue DefaultCopy DefaultDelete 12%N).
Proof.
  split; [reflexivity |]. split; [discriminate |].
  destruct (move_transfers_ownership default_delete_call demo_world 5%N 1%N
              demo_full eq_refl ltac:(discriminate))
    as [(Hr & Ho & _) _].
  destruct (move_transfers_ownership default_delete_call demo_world 3%N 1%N
              demo_full eq_refl ltac:(discriminate))
    as [_ Hassign].
  destruct (Hassign demo_other eq_refl eq_refl eq_refl) as (Hr' & Ho' & _).
  destruct (move_transfers_ownership (node_delete 8) list_world 1%N 4%N
              (IndirectValue DefaultCopy DefaultDelete 12%N) eq_refl
              ltac:(discriminate))
    as [_ Hnodes].
  destruct (Hnodes (IndirectValue DefaultCopy DefaultDelete 10%N)
              eq_refl eq_refl eq_refl) as (Hr'' & Ho'' & _).
  split; [exact Hr |]. split; [exact Ho |]. split; [reflexivity |].
  split; [exact Hr' |]. split; [exact Ho' |]. split; [reflexivity |].
  split; [reflexivity |]. split; [exact Hr'' | exact Ho''].
Defined.

Lemma copy_construction_is_deep_witness :
  copier_contract (T:=Z) (C:=default_copy) (D:=default_delete)
    default_copy_call ∧
  objs (mem demo_world) !! 1%N = Some demo_full ∧
  5%N ≠ 1%N ∧
  copy_construct (c_ demo_full) = Returns DefaultCopy ∧
  copy_construct (d_ demo_full) = Returns DefaultDelete ∧
  (copy_ctor default_copy_call 5%N 1%N demo_world).2 = Ok () ∧
  fresh_ptr (heap (mem demo_world)) ≠ ptr_ demo_full ∧
  objs (mem (copy_ctor default_copy_call 5%N 1%N demo_world).1) !! 1%N
    = Some demo_full.
Proof.
  split; [exact (default_copy_contract (C:=default_copy) (D:=default_delete) Z_new_copy_equal) |].
  split; [reflexivity |]. split; [discriminate |].
  split; [reflexivity |]. split; [reflexivity |].
  destruct (copy_construction_is_deep default_copy_call demo_world 5%N 1%N
              demo_full DefaultCopy DefaultDelete
              (default_copy_contract (C:=default_copy) (D:=default_delete) Z_new_copy_equal) eq_refl
              ltac:(discriminate) eq_refl eq_refl) as [_ Hfull].
  destruct (Hfull 42%Z (fresh_ptr (heap (mem demo_world))) eq_refl eq_refl)
    as (Hr & _ & _ & _ & _ & Hp & Ha & _).
  split; [exact Hr |]. split; [exact Hp | exact Ha].
Defined.

Lemma owned_flaky (p : N) (c : bool) :
  owned (heap (mem flaky_world)) (IndirectValue c DefaultDelete p) ↔
  (p = 0 ∨ p = 10 ∨ p = 11)%N.
Proof.
  unfold owned. simpl. split.
  - intros H. destruct (decide (p = 0%N)) as [|Hp]; [by left | right].
    destruct (H Hp) as [x Hx].
    destruct (decide (p = 10%N)); [by left | right].
    destruct (decide (p = 11%N)); [done |].
    by rewrite !lookup_insert_ne, lookup_empty in Hx.
  - intros [-> | [-> | ->]] Hp; [done | by exists 42%Z | by exists 7%Z].
Qed.

Lemma refusing_copy_contract {T C D} `{!Comparable T T} :
  copier_contract (T:=T) (C:=C) (D:=D) refusing_copy_call.
Proof. intros c v m. by split_and!. Qed.

(** Assigning the empty end of the second list to the variable at 1: the
    release of the first list spares both wrappers. *)
Lemma list_release_spares evs :
  trace (copy_assignment refusing_copy_call (node_delete 8) 1%N 5%N
           list_world).1 = trace list_world ++ evs →
  Forall (spares (node_delete 8) 1%N 5%N
            (IndirectValue DefaultCopy DefaultDelete nullptr)
            (heap (mem list_world))) evs.
Proof.
  assert (Htr : trace (copy_assignment refusing_copy_call (node_delete 8)
                         1%N 5%N list_world).1
                = [deleter_called DefaultDelete 10%N
                     (emptied 1%N
                        (IndirectValue DefaultCopy DefaultDelete 10%N)
                        (mem list_world))])
    by (vm_compute; reflexivity).
  rewrite Htr. intros Hev. change (trace list_world ++ evs) with evs in Hev.
  subst evs. apply Forall_singleton. unfold spares.
  split; [vm_compute; reflexivity |]. split; [vm_compute; reflexivity |].
  assert (Hh : heap (node_delete 8 DefaultDelete 10%N
                       (emptied 1%N
                          (IndirectValue DefaultCopy DefaultDelete 10%N)
                          (mem list_world)))
               = <[12%N := Node 3 5]> ∅) by (vm_compute; reflexivity).
  rewrite Hh. intros q' _ [-> | Hnone]; [vm_compute; reflexivity |].
  change (heap (emptied 1%N (IndirectValue DefaultCopy DefaultDelete 10%N)
                  (mem list_world)))
    with (heap (mem list_world)).
  rewrite Hnone. destruct (decide (q' = 12%N)) as [-> | Hq].
  - vm_compute in Hnone. discriminate.
  - by rewrite lookup_insert_ne, lookup_empty.
Qed.


Lemma self_assignment_is_harmless_witness :
  copier_contract (T:=Z) (C:=default_copy) (D:=default_delete)
    default_copy_call ∧
  deleter_contract (T:=Z) (C:=default_copy) (D:=default_delete)
    default_delete_call ∧
  objs (mem demo_world) !! 1%N = Some demo_full ∧
  owned (heap (mem demo_world)) demo_full ∧
  move_assignment default_delete_call 1%N 1%N demo_world = (demo_world, Ok ()) ∧
  (copy_assignment default_copy_call default_delete_call 1%N 1%N demo_world).2
    = Ok ().
Proof.
  split; [exact (default_copy_contract (C:=default_copy) (D:=default_delete) Z_new_copy_equal) |].
  split; [apply default_delete_contract |].
  split; [reflexivity |]. split; [apply owned_demo_full |].
  destruct (self_assignment_is_harmless default_copy_call default_delete_call
              demo_world 1%N demo_full
              (default_copy_contract (C:=default_copy) (D:=default_delete) Z_new_copy_equal) default_delete_contract
              eq_refl owned_demo_full) as (Hmove & _ & _ & _ & Hreturns & _).
  split; [exact Hmove |].
  apply Hreturns; [| reflexivity | reflexivity].
  intros v Hv. eexists. reflexivity.
Defined.

(** ** Scenarios *)

(** Wrap 42, clone it, add one to the clone: the original still holds 42. *)
Example scenario_clone_then_mutate :
  ((in_place_ctor 1%N 42%Z;;
    copy_ctor default_copy_call 2%N 1%N;;
    b ← value lvalue_ref 2%N;
    x ← read b;
    write (referent b) (x + 1)%Z;;
    a ← value const_lvalue_ref 1%N;
    original ← read a;
    clone ← read b;
    mret (original, clone)) empty_world).2 = Ok (42%Z, 43%Z).
Proof. vm_compute. reflexivity. Qed.

(** An empty wrapper converts to [false] and refuses checked access. *)
Example scenario_empty_access :
  ((default_ctor 1%N;; value lvalue_ref 1%N) empty_world).2
    = Throw bad_indirect_value_access ∧
  (o ← (default_ctor 1%N;; load 1%N);
   mret (to_bool o)) empty_world
    = ((default_ctor 1%N empty_world).1, Ok false).
Proof. split; vm_compute; reflexivity. Qed.

(** Copy self-assignment: one copier call, then one deleter call on the old
    address, which the deleter finds already detached from the wrapper. *)
Example scenario_self_assignment :
  trace (copy_assignment default_copy_call default_delete_call 1%N 1%N
           demo_world).1
    = [copier_called DefaultCopy 42%Z;
       deleter_called DefaultDelete 10%N
         (emptied 1%N demo_full
            (allocate 42%Z (mem demo_world)).1)] ∧
  ((copy_assignment default_copy_call default_delete_call 1%N 1%N;;
    a ← value const_lvalue_ref 1%N;
    read a) demo_world).2 = Ok 42%Z.
Proof. split; vm_compute; reflexivity. Qed.

(** Copy assignment from a wrapper whose copier throws leaves the target
    alone; copy assignment to a wrapper whose copier cannot be assigned
    leaves the target empty and releases both its old pointee and the copy. *)
Example scenario_throwing_policies :
  copy_assignment flaky_copy_call default_delete_call 3%N 1%N flaky_world
    = (mkWorld (mem flaky_world) [copier_called true 42%Z],
       Throw (policy_error 1)) ∧
  (copy_assignment flaky_copy_call default_delete_call 1%N 3%N flaky_world).2
    = Throw (policy_error 2) ∧
  objs (mem (copy_assignment flaky_copy_call default_delete_call 1%N 3%N
               flaky_world).1) !! 1%N
    = Some (IndirectValue true DefaultDelete nullptr) ∧
  deleted (trace (copy_assignment flaky_copy_call default_delete_call 1%N 3%N
                    flaky_world).1)
    = [10%N; fresh_ptr (heap (mem flaky_world))] ∧
  heap (mem (copy_assignment flaky_copy_call default_delete_call 1%N 3%N
               flaky_world).1) = <[11%N := 7%Z]> ∅.
Proof. split_and!; vm_compute; reflexivity. Qed.

(** Moving: the target takes over the address, nothing is copied. *)
Example scenario_move :
  move_assignment default_delete_call 2%N 1%N demo_world
    = (mkWorld
         (mkMem (<[1%N := demo_empty]> (<[2%N := demo_full]>
                   (objs (mem demo_world))))
                (heap (mem demo_world)))
         [], Ok ()).
Proof. vm_compute. reflexivity. Qed.

(** * Further properties of the interface *)

(** ** Comparisons *)

Section ComparisonFacts.
Context {T1 T2 C1 D1 C2 D2 : Type} `{!Comparable T1 T2}.
Variable h1 : gmap N T1.
Variable h2 : gmap N T2.
Implicit Types (x : indirect_value C1 D1) (y : indirect_value C2 D2).

(** X1: comparing with [nullptr] is comparing with an empty wrapper, for all
    six operators and with [nullptr] on either side. *)
Theorem null_is_an_empty_wrapper x y (e : indirect_value C1 D1)
    (e' : indirect_value C2 D2) :
  to_bool e = false → to_bool e' = false →
  (operator_eq h1 h2 x e' = Some (operator_eq_null x) ∧
   operator_ne h1 h2 x e' = Some (operator_ne_null x) ∧
   operator_lt h1 h2 x e' = Some (operator_lt_null x) ∧
   operator_gt h1 h2 x e' = Some (operator_gt_null x) ∧
   operator_le h1 h2 x e' = Some (operator_le_null x) ∧
   operator_ge h1 h2 x e' = Some (operator_ge_null x)) ∧
  (operator_eq h1 h2 e y = Some (null_operator_eq y) ∧
   operator_ne h1 h2 e y = Some (null_operator_ne y) ∧
   operator_lt h1 h2 e y = Some (null_operator_lt y) ∧
   operator_gt h1 h2 e y = Some (null_operator_gt y) ∧
   operator_le h1 h2 e y = Some (null_operator_le y) ∧
   operator_ge h1 h2 e y = Some (null_operator_ge y)).
Proof.
  intros He He'.
  unfold operator_eq, operator_ne, operator_lt, operator_gt, operator_le,
    operator_ge, operator_eq_null, operator_ne_null, operator_lt_null,
    operator_gt_null, operator_le_null, operator_ge_null, null_operator_eq,
    null_operator_ne, null_operator_lt, null_operator_gt, null_operator_le,
    null_operator_ge.
  rewrite He, He'. by destruct (to_bool x), (to_bool y).
Qed.

(** X2: comparing any wrapper with a raw value is comparing it with a
    wrapper that holds that value, for all six operators and with the raw
    value on either side. *)
Theorem raw_is_a_full_wrapper x y (xu : indirect_value C1 D1)
    (yu : indirect_value C2 D2) (u : T2) (u' : T1) :
  star h2 yu = Some u →
  star h1 xu = Some u' →
  (operator_eq_raw h1 x u = operator_eq h1 h2 x yu ∧
   operator_ne_raw h1 x u = operator_ne h1 h2 x yu ∧
   operator_lt_raw h1 x u = operator_lt h1 h2 x yu ∧
   operator_gt_raw h1 x u = operator_gt h1 h2 x yu ∧
   operator_le_raw h1 x u = operator_le h1 h2 x yu ∧
   operator_ge_raw h1 x u = operator_ge h1 h2 x yu) ∧
  (raw_operator_eq h2 u' y = operator_eq h1 h2 xu y ∧
   raw_operator_ne h2 u' y = operator_ne h1 h2 xu y ∧
   raw_operator_lt h2 u' y = operator_lt h1 h2 xu y ∧
   raw_operator_gt h2 u' y = operator_gt h1 h2 xu y ∧
   raw_operator_le h2 u' y = operator_le h1 h2 xu y ∧
   raw_operator_ge h2 u' y = operator_ge h1 h2 xu y).
Proof.
  intros Hy Hx.
  unfold operator_eq_raw, operator_ne_raw, operator_lt_raw, operator_gt_raw,
    operator_le_raw, operator_ge_raw, raw_operator_eq, raw_operator_ne,
    raw_operator_lt, raw_operator_gt, raw_operator_le, raw_operator_ge,
    operator_eq, operator_ne, operator_lt, operator_gt, operator_le,
    operator_ge.
  rewrite (star_to_bool _ _ _ Hx), (star_to_bool _ _ _ Hy), Hx, Hy.
  split.
  - destruct (to_bool x); simpl; [| done]. by destruct (star h1 x).
  - destruct (to_bool y); simpl; [| done]. by destruct (star h2 y).
Qed.
End ComparisonFacts.

Section OrderFacts.
Context {T1 T2 C1 D1 C2 D2 : Type} `{!Comparable T1 T2}.
Variable h1 : gmap N T1.
Variable h2 : gmap N T2.
Implicit Types (x : indirect_value C1 D1) (y : indirect_value C2 D2).

(** X3: the treatment of empty wrappers keeps the order laws of the pointee
    type.  If the pointees' [<=] is the negation of [>] and [>=] the negation
    of [<], so are the wrappers' and the raw forms', whether or not a wrapper
    is empty. *)
Theorem order_negations_lift x y (u : T2) (u' : T1) :
  (∀ a b, le_op a b = negb (gt_op a b)) →
  (∀ a b, ge_op a b = negb (lt_op a b)) →
  operator_le h1 h2 x y = negb <$> operator_gt h1 h2 x y ∧
  operator_ge h1 h2 x y = negb <$> operator_lt h1 h2 x y ∧
  operator_le_raw h1 x u = negb <$> operator_gt_raw h1 x u ∧
  operator_ge_raw h1 x u = negb <$> operator_lt_raw h1 x u ∧
  raw_operator_le h2 u' y = negb <$> raw_operator_gt h2 u' y ∧
  raw_operator_ge h2 u' y = negb <$> raw_operator_lt h2 u' y.
Proof.
  intros Hle Hge.
  unfold operator_le, operator_gt, operator_ge, operator_lt, operator_le_raw,
    operator_gt_raw, operator_ge_raw, operator_lt_raw, raw_operator_le,
    raw_operator_gt, raw_operator_ge, raw_operator_lt.
  destruct (to_bool x), (to_bool y), (star h1 x), (star h2 y); simpl;
    by rewrite ?Hle, ?Hge.
Qed.

(** X4: on wrappers that own live pointees every comparison has a result:
    the guards in front of [*lhs] and [*rhs] keep each operator away from
    an empty wrapper. *)
Theorem comparisons_are_defined x y (u : T2) (u' : T1) :
  owned h1 x → owned h2 y →
  (is_Some (operator_eq h1 h2 x y) ∧ is_Some (operator_ne h1 h2 x y) ∧
   is_Some (operator_lt h1 h2 x y) ∧ is_Some (operator_gt h1 h2 x y) ∧
   is_Some (operator_le h1 h2 x y) ∧ is_Some (operator_ge h1 h2 x y)) ∧
  (is_Some (operator_eq_raw h1 x u) ∧ is_Some (operator_ne_raw h1 x u) ∧
   is_Some (operator_lt_raw h1 x u) ∧ is_Some (operator_gt_raw h1 x u) ∧
   is_Some (operator_le_raw h1 x u) ∧ is_Some (operator_ge_raw h1 x u)) ∧
  (is_Some (raw_operator_eq h2 u' y) ∧ is_Some (raw_operator_ne h2 u' y) ∧
   is_Some (raw_operator_lt h2 u' y) ∧ is_Some (raw_operator_gt h2 u' y) ∧
   is_Some (raw_operator_le h2 u' y) ∧ is_Some (raw_operator_ge h2 u' y)).
Proof.
  intros Hx Hy.
  unfold operator_eq, operator_ne, operator_lt, operator_gt, operator_le,
    operator_ge, operator_eq_raw, operator_ne_raw, operator_lt_raw,
    operator_gt_raw, operator_le_raw, operator_ge_raw, raw_operator_eq,
    raw_operator_ne, raw_operator_lt, raw_operator_gt, raw_operator_le,
    raw_operator_ge.
  destruct (to_bool x) eqn:Ex, (to_bool y) eqn:Ey;
    try (destruct (owned_star _ _ Hx Ex) as [a ->]);
    try (destruct (owned_star _ _ Hy Ey) as [b ->]);
    simpl; by split_and!.
Qed.
End OrderFacts.

Section MirrorFacts.
Context {T1 T2 C1 D1 C2 D2 : Type}.
Variable cmp12 : Comparable T1 T2.
Variable cmp21 : Comparable T2 T1.
Variable h1 : gmap N T1.
Variable h2 : gmap N T2.
Implicit Types (x : indirect_value C1 D1) (y : indirect_value C2 D2).

(** X5: swapping the operands mirrors the operator.  If the pointee types
    compare consistently in both directions ([a < b] as [b > a], and so on),
    then [x < y] is [y > x], [x <= y] is [y >= x], [x == y] is [y == x] and
    [x != y] is [y != x] for wrappers, empty or not, and each comparison
    with a raw value on the right is the mirrored comparison with the raw
    value on the left. *)
Theorem operands_mirror x y (u : T2) :
  (∀ a b, @lt_op _ _ cmp12 a b = @gt_op _ _ cmp21 b a) →
  (∀ a b, @gt_op _ _ cmp12 a b = @lt_op _ _ cmp21 b a) →
  (∀ a b, @le_op _ _ cmp12 a b = @ge_op _ _ cmp21 b a) →
  (∀ a b, @ge_op _ _ cmp12 a b = @le_op _ _ cmp21 b a) →
  (∀ a b, @eq_op _ _ cmp12 a b = @eq_op _ _ cmp21 b a) →
  (∀ a b, @ne_op _ _ cmp12 a b = @ne_op _ _ cmp21 b a) →
  (operator_lt (Comparable0:=cmp12) h1 h2 x y
     = operator_gt (Comparable0:=cmp21) h2 h1 y x ∧
   operator_gt (Comparable0:=cmp12) h1 h2 x y
     = operator_lt (Comparable0:=cmp21) h2 h1 y x ∧
   operator_le (Comparable0:=cmp12) h1 h2 x y
     = operator_ge (Comparable0:=cmp21) h2 h1 y x ∧
   operator_ge (Comparable0:=cmp12) h1 h2 x y
     = operator_le (Comparable0:=cmp21) h2 h1 y x ∧
   operator_eq (Comparable0:=cmp12) h1 h2 x y
     = operator_eq (Comparable0:=cmp21) h2 h1 y x ∧
   operator_ne (Comparable0:=cmp12) h1 h2 x y
     = operator_ne (Comparable0:=cmp21) h2 h1 y x) ∧
  (operator_lt_raw (Comparable0:=cmp12) h1 x u
     = raw_operator_gt (Comparable0:=cmp21) (C2:=C1) (D2:=D1) h1 u x ∧
   operator_gt_raw (Comparable0:=cmp12) h1 x u
     = raw_operator_lt (Comparable0:=cmp21) (C2:=C1) (D2:=D1) h1 u x ∧
   operator_le_raw (Comparable0:=cmp12) h1 x u
     = raw_operator_ge (Comparable0:=cmp21) (C2:=C1) (D2:=D1) h1 u x ∧
   operator_ge_raw (Comparable0:=cmp12) h1 x u
     = raw_operator_le (Comparable0:=cmp21) (C2:=C1) (D2:=D1) h1 u x ∧
   operator_eq_raw (Comparable0:=cmp12) h1 x u
     = raw_operator_eq (Comparable0:=cmp21) (C2:=C1) (D2:=D1) h1 u x ∧
   operator_ne_raw (Comparable0:=cmp12) h1 x u
     = raw_operator_ne (Comparable0:=cmp21) (C2:=C1) (D2:=D1) h1 u x).
Proof.
  intros Hlt Hgt Hle Hge Heq Hne.
  unfold operator_eq, operator_ne, operator_lt, operator_gt, operator_le,
    operator_ge, operator_eq_raw, operator_ne_raw, operator_lt_raw,
    operator_gt_raw, operator_le_raw, operator_ge_raw, raw_operator_eq,
    raw_operator_ne, raw_operator_lt, raw_operator_gt, raw_operator_le,
    raw_operator_ge.
  destruct (to_bool x), (to_bool y), (star h1 x), (star h2 y); simpl;
    by rewrite ?Hlt, ?Hgt, ?Hle, ?Hge, ?Heq, ?Hne.
Qed.
End MirrorFacts.

Section ThreeWayFacts.
Context {T1 T2 C1 D1 C2 D2 : Type}.
Context `{!Comparable T1 T2, !ThreeWayComparable T1 T2}.
Variable h1 : gmap N T1.
Variable h2 : gmap N T2.
Implicit Types (x : indirect_value C1 D1) (y : indirect_value C2 D2).

(** X6: the three-way operators agree with the six relational ones.  When
    the pointees' relational operators are the ones their [<=>] gives, each
    of [==], [!=], [<], [>], [<=], [>=] between two wrappers, and between a
    wrapper and a raw value, is what [<=>] says, whether or not a wrapper is
    empty. *)
Theorem three_way_agrees x y (u : T2) :
  three_way_consistent T1 T2 →
  (operator_eq h1 h2 x y = po_is_eq <$> operator_spaceship h1 h2 x y ∧
   operator_ne h1 h2 x y = po_is_neq <$> operator_spaceship h1 h2 x y ∧
   operator_lt h1 h2 x y = po_is_lt <$> operator_spaceship h1 h2 x y ∧
   operator_gt h1 h2 x y = po_is_gt <$> operator_spaceship h1 h2 x y ∧
   operator_le h1 h2 x y = po_is_lteq <$> operator_spaceship h1 h2 x y ∧
   operator_ge h1 h2 x y = po_is_gteq <$> operator_spaceship h1 h2 x y) ∧
  (operator_eq_raw h1 x u = po_is_eq <$> operator_spaceship_raw h1 x u ∧
   operator_ne_raw h1 x u = po_is_neq <$> operator_spaceship_raw h1 x u ∧
   operator_lt_raw h1 x u = po_is_lt <$> operator_spaceship_raw h1 x u ∧
   operator_gt_raw h1 x u = po_is_gt <$> operator_spaceship_raw h1 x u ∧
   operator_le_raw h1 x u = po_is_lteq <$> operator_spaceship_raw h1 x u ∧
   operator_ge_raw h1 x u = po_is_gteq <$> operator_spaceship_raw h1 x u).
Proof.
  intros Hc.
  unfold operator_eq, operator_ne, operator_lt, operator_gt, operator_le,
    operator_ge, operator_eq_raw, operator_ne_raw, operator_lt_raw,
    operator_gt_raw, operator_le_raw, operator_ge_raw, operator_spaceship,
    operator_spaceship_raw.
  destruct (to_bool x), (to_bool y), (star h1 x) as [a|], (star h2 y) as [b|];
    simpl; try done;
    try (destruct (Hc a b) as (-> & -> & -> & -> & -> & ->));
    try (destruct (Hc a u) as (-> & -> & -> & -> & -> & ->));
    done.
Qed.

(** X7: [<=>] puts the empty wrapper first: an empty wrapper is [less] than
    a non-empty one and than any raw value, two empty wrappers are [equal],
    and against [nullptr] a wrapper is [equal] when empty and [greater]
    otherwise, without a look at any pointee. *)
Theorem three_way_puts_empty_first x y (e : indirect_value C1 D1)
    (e' : indirect_value C2 D2) (u : T2) :
  to_bool e = false → to_bool e' = false →
  (to_bool y = true → operator_spaceship h1 h2 e y = Some (ordered less)) ∧
  (to_bool x = true → operator_spaceship h1 h2 x e' = Some (ordered greater)) ∧
  operator_spaceship h1 h2 e e' = Some (ordered equal) ∧
  operator_spaceship_raw h1 e u = Some (ordered less) ∧
  operator_spaceship_null e = equal ∧
  (to_bool x = true → operator_spaceship_null x = greater).
Proof.
  intros He He'.
  unfold operator_spaceship, operator_spaceship_raw, operator_spaceship_null.
  rewrite He, He'. split_and!; try done; by intros ->.
Qed.
End ThreeWayFacts.

(** ** Hashing *)

Section HashFacts.
Context {T C1 D1 C2 D2 : Type} `{!Comparable T T, !Hashable T}.
Variable h : gmap N T.

(** X8: the hash respects equality.  If equal pointees have equal hashes,
    then wrappers that compare equal with [==] have equal hashes, and every
    empty wrapper hashes to 0. *)
Theorem hash_respects_equality (x : indirect_value C1 D1)
    (y : indirect_value C2 D2) :
  (∀ a b : T, eq_op a b = true → hash_op a = hash_op b) →
  (operator_eq h h x y = Some true →
   hash_value h x = hash_value h y ∧ is_Some (hash_value h x)) ∧
  (to_bool x = false → hash_value h x = Some 0%N).
Proof.
  intros Hhash. unfold operator_eq, hash_value. split.
  - destruct (to_bool x), (to_bool y), (star h x) as [a|], (star h y) as [b|];
      simpl; try done.
    intros [= Heq]. by rewrite (Hhash a b Heq).
  - by intros ->.
Qed.
End HashFacts.

(** ** Access, construction and destruction *)

Section LifecycleFacts.
Context {T C D : Type} `{!SpecialMembers C, !SpecialMembers D}.
Variable copier : C → T → Mem T C D → Mem T C D * fallible N.
Variable deleter : D → N → Mem T C D → Mem T C D.
Implicit Types (w : World T C D) (o : indirect_value C D) (this i p : N).

(** X9: checked and unchecked access agree.  Wherever [operator*] is
    defined, [value()] of the same ref-qualification returns that very
    reference, to the object [operator->] points at; where [operator*] is
    undefined, on an empty wrapper, [value()] throws. *)
Theorem checked_access_agrees_with_dereference (q : ref_qualifier) w this o :
  objs (mem w) !! this = Some o →
  match operator_star q o with
  | Some r =>
      value q this w = (w, Ok r) ∧ referent r = arrow o ∧
      (∀ v : T, star (heap (mem w)) o = Some v → read r w = (w, Ok v))
  | None =>
      value q this w = (w, Throw bad_indirect_value_access) ∧
      to_bool o = false
  end.
Proof.
  intros Ho. unfold operator_star, value.
  rewrite (bind_Ok _ _ _ _ _ (load_Some _ _ _ Ho)).
  case_bool_decide as E.
  - split; [done |]. by apply to_bool_false.
  - split_and!; [done | by destruct q |].
    intros v [_ Hv]%star_Some. unfold read, deref.
    destruct q; simpl; by rewrite Hv.
Qed.

(** X10: what is constructed in place and then destroyed leaves no trace in
    memory.  With [std::default_delete], building a wrapper at a free
    address and destroying it gives back exactly the wrappers and the
    pointees there were, after one deleter call on the new object. *)
Theorem construct_then_destroy_restores_memory w this (v : T) :
  objs (mem w) !! this = None →
  ((in_place_ctor this v;; dtor default_delete_call this) w).2 = Ok () ∧
  mem ((in_place_ctor this v;; dtor default_delete_call this) w).1 = mem w ∧
  deleted (trace ((in_place_ctor this v;; dtor default_delete_call this) w).1)
    = deleted (trace w) ++ [fresh_ptr (heap (mem w))].
Proof.
  intros Hfree.
  set (p := fresh_ptr (heap (mem w))).
  set (o := IndirectValue (default_construct : C) (default_construct : D) p).
  assert (Hp : p ≠ nullptr) by apply fresh_ptr_nonnull.
  assert (Hctor : in_place_ctor this v w =
    (mkWorld (mkMem (<[this := o]> (objs (mem w))) (<[p := v]> (heap (mem w))))
             (trace w), Ok ())) by done.
  rewrite (bind_Ok _ _ _ _ _ Hctor). unfold dtor.
  erewrite bind_Ok by (apply reset_spec; apply lookup_insert_eq).
  unfold released, release_events, end_lifetime. simpl.
  rewrite !bool_decide_true by done. simpl.
  split_and!; [done | | by rewrite deleted_app].
  destruct w as [[ob hp] tr]. simpl in *. f_equal.
  - rewrite insert_insert_eq. by apply delete_insert_id.
  - apply delete_insert_id, fresh_ptr_fresh.
Qed.

(** X11: copy construction that fails builds nothing.  If the copy
    constructor of either policy throws, the exception leaves before the
    copier is called and the world is as it was.  If the copier throws, the
    exception leaves with no wrapper stored at [this], no deleter called,
    and, for a copier that keeps to its contract, the source and its pointee
    as they were. *)
Theorem failed_copy_construction_builds_nothing `{!Comparable T T}
    w this a oa :
  objs (mem w) !! a = Some oa →
  (∀ e, copy_construct (c_ oa) = Throws e ∨
        (∃ c', copy_construct (c_ oa) = Returns c') ∧
        copy_construct (d_ oa) = Throws e →
     copy_ctor copier this a w = (w, Throw e)) ∧
  (∀ c' d' v e,
     copy_construct (c_ oa) = Returns c' →
     copy_construct (d_ oa) = Returns d' →
     star (heap (mem w)) oa = Some v →
     (copier (c_ oa) v (mem w)).2 = Throws e →
     (copy_ctor copier this a w).2 = Throw e ∧
     trace (copy_ctor copier this a w).1
       = trace w ++ [copier_called (c_ oa) v] ∧
     (copier_contract copier →
      objs (mem (copy_ctor copier this a w).1) = objs (mem w) ∧
      star (heap (mem (copy_ctor copier this a w).1)) oa = Some v)).
Proof.
  intros Ha. split.
  - intros e [Hc | [[c' Hc] Hd]]; unfold copy_ctor;
      rewrite (bind_Ok _ _ _ _ _ (load_Some _ _ _ Ha)).
    + erewrite bind_Throw; [done |]. unfold lift. by rewrite Hc.
    + erewrite bind_Ok by (unfold lift; rewrite Hc; reflexivity).
      erewrite bind_Throw; [done |]. unfold lift. by rewrite Hd.
  - intros c' d' v e Hc Hd Hv He. unfold copy_ctor.
    rewrite (bind_Ok _ _ _ _ _ (load_Some _ _ _ Ha)).
    erewrite bind_Ok by (unfold lift; rewrite Hc; reflexivity).
    erewrite bind_Ok by (unfold lift; rewrite Hd; reflexivity).
    pose proof (make_raw_copy_nonempty copier _ _ _ _ Ha Hv) as Hm.
    rewrite He in Hm. rewrite (bind_Throw _ _ _ _ _ Hm). simpl.
    split_and!; [done | done |]. intros Hcop.
    destruct (Hcop (c_ oa) v (mem w)) as (Hobjs & Hframe & _).
    split; [done |]. pose proof Hv as [Hp Hl]%star_Some.
    apply star_Some. split; [done |]. by rewrite Hframe by auto.
Qed.

(** X12: a copy made by the default policies is destroyed without a
    trace, and a copy that cannot be made leaves none.  A wrapper is copy
    constructed at a free address, with [default_copy], from a wrapper that
    owns a live pointee [v].  If [new T(v)] throws, in [operator new] or in
    [T]'s copy constructor, the exception leaves the constructor, no wrapper
    is built, no deleter runs and the memory is exactly as it was.  If it
    returns, destroying the copy with [std::default_delete] returns and gives
    back exactly the memory there was: the source is untouched and nothing
    is leaked. *)
Theorem copy_then_destroy_restores_memory `{!CopyConstructible T}
    w this a oa c' d' (v : T) :
  objs (mem w) !! this = None →
  objs (mem w) !! a = Some oa →
  star (heap (mem w)) oa = Some v →
  copy_construct (c_ oa) = Returns c' → copy_construct (d_ oa) = Returns d' →
  match new_copy (heap (mem w)) v with
  | Throws e =>
      copy_ctor default_copy_call this a w
      = (mkWorld (mem w) (trace w ++ [copier_called (c_ oa) v]), Throw e)
  | Returns v' =>
      ((copy_ctor default_copy_call this a;;
        dtor default_delete_call this) w).2 = Ok () ∧
      mem ((copy_ctor default_copy_call this a;;
            dtor default_delete_call this) w).1 = mem w ∧
      trace ((copy_ctor default_copy_call this a;;
              dtor default_delete_call this) w).1
        = trace w ++
          [copier_called (c_ oa) v;
           deleter_called d' (fresh_ptr (heap (mem w)))
             (emptied this (IndirectValue c' d' (fresh_ptr (heap (mem w))))
                (mkMem (<[this := IndirectValue c' d'
                                    (fresh_ptr (heap (mem w)))]>
                          (objs (mem w)))
                       (<[fresh_ptr (heap (mem w)) := v']> (heap (mem w)))))]
  end.
Proof.
  intros Hfree Ha Hv Hc Hd.
  set (p := fresh_ptr (heap (mem w))).
  assert (Hp : p ≠ nullptr) by apply fresh_ptr_nonnull.
  pose proof (make_raw_copy_nonempty default_copy_call _ _ _ _ Ha Hv) as Hraw.
  unfold default_copy_call in Hraw.
  destruct (new_copy (heap (mem w)) v) as [v'|e].
  - assert (Hctor : copy_ctor default_copy_call this a w =
      (mkWorld (mkMem (<[this := IndirectValue c' d' p]> (objs (mem w)))
                      (<[p := v']> (heap (mem w))))
               (trace w ++ [copier_called (c_ oa) v]), Ok ())).
    { unfold copy_ctor.
      rewrite (bind_Ok _ _ _ _ _ (load_Some _ _ _ Ha)).
      erewrite bind_Ok by (unfold lift; rewrite Hc; reflexivity).
      erewrite bind_Ok by (unfold lift; rewrite Hd; reflexivity).
      by rewrite (bind_Ok _ _ _ _ _ Hraw). }
    rewrite (bind_Ok _ _ _ _ _ Hctor). unfold dtor.
    erewrite bind_Ok by (apply reset_spec; apply lookup_insert_eq).
    unfold released, release_events, end_lifetime. simpl.
    rewrite !bool_decide_true by done. simpl.
    split_and!; [done | | by rewrite <-app_assoc].
    destruct w as [[ob hp] tr]. simpl in *. f_equal.
    + rewrite insert_insert_eq. by apply delete_insert_id.
    + apply delete_insert_id, fresh_ptr_fresh.
  - unfold copy_ctor.
    rewrite (bind_Ok _ _ _ _ _ (load_Some _ _ _ Ha)).
    erewrite bind_Ok by (unfold lift; rewrite Hc; reflexivity).
    erewrite bind_Ok by (unfold lift; rewrite Hd; reflexivity).
    rewrite (bind_Throw _ _ _ _ _ Hraw). by destruct w as [[ob hp] tr].
Qed.

(** X13: adoption takes over a raw pointer without allocating, and the
    adopted deleter releases it.  For policy types whose moves hand over the
    value, the wrapper built from [u], [c] and [d] holds exactly these, the
    pointees are not touched and no policy is called; destroying it calls
    [d] on [u] once if [u] is not null, and calls nothing if it is. *)
Theorem adoption_then_destruction `{!ValueSemantic C, !ValueSemantic D}
    w this (u : N) (c : C) (d : D) :
  adopt_ctor this u c d w
    = ((store this (IndirectValue c d u) w).1, Ok ()) ∧
  trace ((adopt_ctor this u c d;; dtor deleter this) w).1
    = trace w ++
      (if bool_decide (u ≠ nullptr)
       then [deleter_called d u
               (emptied this (IndirectValue c d u)
                  (mem (store this (IndirectValue c d u) w).1))]
       else []) ∧
  ((adopt_ctor this u c d;; dtor deleter this) w).2 = Ok ().
Proof.
  assert (Hadopt : adopt_ctor this u c d w
                   = ((store this (IndirectValue c d u) w).1, Ok ())).
  { unfold adopt_ctor. by rewrite !move_construct_value. }
  split; [exact Hadopt |].
  rewrite (bind_Ok _ _ _ _ _ Hadopt). unfold dtor.
  erewrite bind_Ok by (apply reset_spec; apply lookup_insert_eq).
  done.
Qed.

(** X14: copy assignment does not leak the copy it could not install.  With
    policies that keep to their contracts, when the copy of the source's
    pointee was made and the copy assignment of the copier, or then of the
    deleter, throws, the deleter calls of [t = s] are: one for the former
    pointee of [t], if it had one, and then one for the fresh copy, made
    through the deleter of [s]. *)
Theorem failed_copy_assignment_releases_the_copy `{!Comparable T T}
    w t s ot os (v : T) p e :
  copier_contract copier → deleter_contract deleter →
  objs (mem w) !! t = Some ot → objs (mem w) !! s = Some os →
  star (heap (mem w)) os = Some v →
  (copier (c_ os) v (mem w)).2 = Returns p →
  (copy_assign (c_ ot) (c_ os)).2 = Throws e ∨
  (copy_assign (c_ ot) (c_ os)).2 = Returns () ∧
  (copy_assign (d_ ot) (d_ os)).2 = Throws e →
  (copy_assignment copier deleter t s w).2 = Throw e ∧
  deleted (trace (copy_assignment copier deleter t s w).1)
    = deleted (trace w) ++ (if to_bool ot then [ptr_ ot] else []) ++ [p] ∧
  (t ≠ s →
   ∃ m, last (trace (copy_assignment copier deleter t s w).1)
        = Some (deleter_called (d_ os) p m)).
Proof.
  intros Hcop Hdel Ht Hs Hv Hp Hthrow.
  assert (Hkeep : ∀ d p m, objs (deleter d p m) = objs m)
    by (intros; apply Hdel).
  destruct (Hcop (c_ os) v (mem w)) as (Hobjs & _ & Hnew).
  rewrite Hp in Hnew. destruct Hnew as (Hpn & _).
  pose proof (make_guarded_copy_nonempty copier _ _ _ _ Hs Hv) as Hg.
  rewrite Hp in Hg.
  set (w1 := mkWorld (copier (c_ os) v (mem w)).1
                     (trace w ++ [copier_called (c_ os) v])) in *.
  assert (Ht1 : objs (mem w1) !! t = Some ot) by (simpl; by rewrite Hobjs).
  assert (Hs1 : objs (mem w1) !! s = Some os) by (simpl; by rewrite Hobjs).
  pose proof (released_objs deleter t ot (mem w1) Hkeep Ht1) as Hrel.
  unfold copy_assignment. rewrite (bind_Ok _ _ _ _ _ Hg). unfold unwinding.
  cbn [guarded].
  rewrite (copy_assignment_body deleter w1 t s ot os p Hdel Ht1 Hs1).
  cbn zeta.
  set (o3 := set_c (copy_assign (c_ ot) (c_ os)).1 (set_ptr nullptr ot)).
  set (o4 := set_d (copy_assign (d_ ot) (d_ os)).1 o3).
  set (w2 := mkWorld (released deleter t ot (mem w1))
                     (trace w1 ++ release_events t ot (mem w1))).
  simpl in Hrel.
  assert (Hfin : ∀ (ox : indirect_value C D) (wx : World T C D),
            objs (mem wx) = <[t := ox]> (objs (mem w1)) →
            trace wx = trace w2 →
            ∃ oi, (t ≠ s → oi = os) ∧
              guard_destroy deleter (Guard p s) wx
              = (mkWorld (deleter (d_ oi) p (mem wx))
                         (trace w2 ++ [deleter_called (d_ oi) p (mem wx)]),
                 Ok ())).
  { intros ox wx Hox Htr. destruct (decide (t = s)) as [<-|Hne].
    - exists ox. split; [done |]. rewrite <-Htr.
      apply guard_destroy_nonnull; [done |]. rewrite Hox.
      apply lookup_insert_eq.
    - exists os. split; [done |]. rewrite <-Htr.
      apply guard_destroy_nonnull; [done |]. rewrite Hox.
      by rewrite lookup_insert_ne. }
  assert (Hdeleted : ∀ d' m',
            deleted (trace w2 ++ [deleter_called d' p m'])
            = deleted (trace w) ++ (if to_bool ot then [ptr_ ot] else [])
              ++ [p]).
  { intros d' m'. unfold w2. simpl.
    rewrite !deleted_app, release_events_deleted. simpl.
    by rewrite app_nil_r, <-app_assoc. }
  destruct Hthrow as [Ec | [Ec Ed]]; rewrite Ec; [| rewrite Ed].
  - destruct (Hfin o3 (store t o3 w2).1) as (oi & Hoi & ->).
    { simpl. by rewrite Hrel, insert_insert_eq. }
    { done. }
    simpl. split_and!; [done | apply Hdeleted |].
    intros Hne. rewrite (Hoi Hne). eexists. by rewrite last_snoc.
  - destruct (Hfin o4 (store t o4 (store t o3 w2).1).1) as (oi & Hoi & ->).
    { simpl. by rewrite Hrel, !insert_insert_eq. }
    { done. }
    simpl. split_and!; [done | apply Hdeleted |].
    intros Hne. rewrite (Hoi Hne). eexists. by rewrite last_snoc.
Qed.
End LifecycleFacts.

(** ** Swap *)

(** Equality of two maps built by inserts over the same map. *)
Ltac same_inserts :=
  apply map_eq; intros ?; rewrite ?lookup_insert;
  repeat case_decide; simplify_eq; reflexivity.

Section SwapFacts.
Context {T C D : Type} `{!Swappable C, !Swappable D}.
Implicit Types (w : World T C D) (o r : indirect_value C D) (this rhs : N).

Lemma swap_copiers_spec w this rhs o r :
  this ≠ rhs →
  objs (mem w) !! this = Some o → objs (mem w) !! rhs = Some r →
  swap_copiers this rhs w
  = ((store rhs (set_c (swap_op (c_ o) (c_ r)).1.2 r)
        (store this (set_c (swap_op (c_ o) (c_ r)).1.1 o) w).1).1,
     to_outcome (swap_op (c_ o) (c_ r)).2).
Proof.
  intros Hne Ho Hr. unfold swap_copiers.
  rewrite (bind_Ok _ _ _ _ _ (load_Some _ _ _ Ho)).
  rewrite (bind_Ok _ _ _ _ _ (load_Some _ _ _ Hr)).
  rewrite bool_decide_false by done.
  erewrite bind_Ok by reflexivity. by erewrite bind_Ok by reflexivity.
Qed.

Lemma swap_deleters_spec w this rhs o r :
  this ≠ rhs →
  objs (mem w) !! this = Some o → objs (mem w) !! rhs = Some r →
  swap_deleters this rhs w
  = ((store rhs (set_d (swap_op (d_ o) (d_ r)).1.2 r)
        (store this (set_d (swap_op (d_ o) (d_ r)).1.1 o) w).1).1,
     to_outcome (swap_op (d_ o) (d_ r)).2).
Proof.
  intros Hne Ho Hr. unfold swap_deleters.
  rewrite (bind_Ok _ _ _ _ _ (load_Some _ _ _ Ho)).
  rewrite (bind_Ok _ _ _ _ _ (load_Some _ _ _ Hr)).
  rewrite bool_decide_false by done.
  erewrite bind_Ok by reflexivity. by erewrite bind_Ok by reflexivity.
Qed.

Lemma swap_ptrs_spec w this rhs o r :
  this ≠ rhs →
  objs (mem w) !! this = Some o → objs (mem w) !! rhs = Some r →
  swap_ptrs this rhs w
  = ((store rhs (set_ptr (ptr_ o) r)
        (store this (set_ptr (ptr_ r) o) w).1).1, Ok ()).
Proof.
  intros Hne Ho Hr. unfold swap_ptrs.
  rewrite (bind_Ok _ _ _ _ _ (load_Some _ _ _ Ho)).
  rewrite (bind_Ok _ _ _ _ _ (load_Some _ _ _ Hr)).
  erewrite bind_Ok by reflexivity.
  erewrite bind_Ok; [reflexivity |].
  apply load_Some. simpl. by rewrite lookup_insert_ne.
Qed.

(** What [swap] leaves in two distinct wrappers, whatever the policies'
    swaps do. *)
Lemma swap_spec w this rhs o r :
  this ≠ rhs →
  objs (mem w) !! this = Some o → objs (mem w) !! rhs = Some r →
  swap this rhs w
  = let sc := swap_op (c_ o) (c_ r) in
    let sd := swap_op (d_ o) (d_ r) in
    let after (o' r' : indirect_value C D) :=
      mkWorld (mkMem (<[rhs := r']> (<[this := o']> (objs (mem w))))
                     (heap (mem w))) (trace w) in
    match sc.2 with
    | Throws e => (after (set_c sc.1.1 o) (set_c sc.1.2 r), Throw e)
    | Returns _ =>
        match sd.2 with
        | Throws e =>
            (after (IndirectValue sc.1.1 sd.1.1 (ptr_ o))
                   (IndirectValue sc.1.2 sd.1.2 (ptr_ r)), Throw e)
        | Returns _ =>
            (after (IndirectValue sc.1.1 sd.1.1 (ptr_ r))
                   (IndirectValue sc.1.2 sd.1.2 (ptr_ o)), Ok ())
        end
    end.
Proof.
  intros Hne Ho Hr. unfold swap. cbn zeta.
  pose proof (swap_copiers_spec w this rhs o r Hne Ho Hr) as Hc.
  destruct (swap_op (c_ o) (c_ r)) as [[c1 c2] [[]|e]]; simpl in Hc |- *;
    [| by rewrite (bind_Throw _ _ _ _ _ Hc)].
  rewrite (bind_Ok _ _ _ _ _ Hc). clear Hc.
  match goal with |- _ ?w1 = _ =>
    pose proof (swap_deleters_spec w1 this rhs (set_c c1 o) (set_c c2 r) Hne)
      as Hd
  end.
  simpl in Hd. rewrite lookup_insert_ne, lookup_insert_eq in Hd by done.
  rewrite lookup_insert_eq in Hd.
  specialize (Hd eq_refl eq_refl).
  destruct (swap_op (d_ o) (d_ r)) as [[d1 d2] [[]|e]]; simpl in Hd |- *.
  - rewrite (bind_Ok _ _ _ _ _ Hd). clear Hd.
    erewrite swap_ptrs_spec; [| done | simpl | simpl].
    2: rewrite lookup_insert_ne by done; apply lookup_insert_eq.
    2: apply lookup_insert_eq.
    simpl. do 3 f_equal. same_inserts.
  - rewrite (bind_Throw _ _ _ _ _ Hd). do 3 f_equal. same_inserts.
Qed.

Lemma swap_self_spec w this o :
  objs (mem w) !! this = Some o →
  swap_self (c_ o) = (c_ o, Returns ()) →
  swap_self (d_ o) = (d_ o, Returns ()) →
  swap this this w = (w, Ok ()).
Proof.
  intros Ho Hc Hd.
  assert (Hid : ∀ x, x = o →
            mkWorld (mkMem (<[this := x]> (objs (mem w))) (heap (mem w)))
                    (trace w) = w).
  { intros x ->. destruct w as [[ob hp] tr]. simpl in *.
    by rewrite insert_id. }
  assert (Hsc : swap_copiers this this w = (w, Ok ())).
  { unfold swap_copiers.
    rewrite (bind_Ok _ _ _ _ _ (load_Some _ _ _ Ho)).
    rewrite (bind_Ok _ _ _ _ _ (load_Some _ _ _ Ho)).
    rewrite bool_decide_true by done. rewrite Hc.
    erewrite bind_Ok by reflexivity. unfold lift. cbn [fst snd to_outcome].
    rewrite Hid; [done | by destruct o]. }
  assert (Hsd : swap_deleters this this w = (w, Ok ())).
  { unfold swap_deleters.
    rewrite (bind_Ok _ _ _ _ _ (load_Some _ _ _ Ho)).
    rewrite (bind_Ok _ _ _ _ _ (load_Some _ _ _ Ho)).
    rewrite bool_decide_true by done. rewrite Hd.
    erewrite bind_Ok by reflexivity. unfold lift. cbn [fst snd to_outcome].
    rewrite Hid; [done | by destruct o]. }
  unfold swap.
  rewrite (bind_Ok _ _ _ _ _ Hsc), (bind_Ok _ _ _ _ _ Hsd).
  unfold swap_ptrs.
  rewrite (bind_Ok _ _ _ _ _ (load_Some _ _ _ Ho)).
  rewrite (bind_Ok _ _ _ _ _ (load_Some _ _ _ Ho)).
  assert (Hst : store this (set_ptr (ptr_ o) o) w = (w, Ok ())).
  { unfold store. rewrite Hid; [done | by destruct o]. }
  rewrite (bind_Ok _ _ _ _ _ Hst).
  rewrite (bind_Ok _ _ _ _ _ (load_Some _ _ _ Ho)).
  exact Hst.
Qed.

(** X15: [swap] exchanges what two distinct wrappers hold and touches nothing
    else.  When the swaps of the two policies exchange their operands, the
    wrapper at [this] ends with the policies and the handle of the one at
    [rhs] and conversely; no pointee is copied, moved or released and no
    policy call operator runs. *)
Theorem swap_exchanges_wrappers w this rhs o r :
  this ≠ rhs →
  objs (mem w) !! this = Some o → objs (mem w) !! rhs = Some r →
  swap_op (c_ o) (c_ r) = ((c_ r, c_ o), Returns ()) →
  swap_op (d_ o) (d_ r) = ((d_ r, d_ o), Returns ()) →
  swap this rhs w
  = (mkWorld (mkMem (<[rhs := o]> (<[this := r]> (objs (mem w))))
                    (heap (mem w))) (trace w), Ok ()) ∧
  swap_friend this rhs w = swap this rhs w.
Proof.
  intros Hne Ho Hr Hc Hd. split; [| done].
  rewrite (swap_spec w this rhs o r Hne Ho Hr). cbn zeta.
  rewrite Hc, Hd. simpl. by destruct o, r.
Qed.

(** X16: swapping twice, or swapping a wrapper with itself, changes nothing.
    When the swaps of the two policies exchange their operands (and leave a
    single operand alone), [a.swap(b); a.swap(b)] and [a.swap(a)] return with
    the world exactly as it was. *)
Theorem swap_is_an_involution w this rhs o r :
  objs (mem w) !! this = Some o → objs (mem w) !! rhs = Some r →
  swap_op (c_ o) (c_ r) = ((c_ r, c_ o), Returns ()) →
  swap_op (d_ o) (d_ r) = ((d_ r, d_ o), Returns ()) →
  swap_op (c_ r) (c_ o) = ((c_ o, c_ r), Returns ()) →
  swap_op (d_ r) (d_ o) = ((d_ o, d_ r), Returns ()) →
  swap_self (c_ o) = (c_ o, Returns ()) →
  swap_self (d_ o) = (d_ o, Returns ()) →
  (this ≠ rhs → (swap this rhs;; swap this rhs) w = (w, Ok ())) ∧
  swap this this w = (w, Ok ()).
Proof.
  intros Ho Hr Hc Hd Hc' Hd' Hsc Hsd. split.
  - intros Hne.
    assert (H1 : swap this rhs w
      = (mkWorld (mkMem (<[rhs := o]> (<[this := r]> (objs (mem w))))
                        (heap (mem w))) (trace w), Ok ())).
    { rewrite (swap_spec w this rhs o r Hne Ho Hr). cbn zeta.
      rewrite Hc, Hd. simpl. by destruct o, r. }
    rewrite (bind_Ok _ _ _ _ _ H1).
    erewrite (swap_spec _ this rhs r o Hne); cycle 1.
    { simpl. rewrite lookup_insert_ne by done. apply lookup_insert_eq. }
    { simpl. apply lookup_insert_eq. }
    cbn zeta. rewrite Hc', Hd'. simpl.
    destruct w as [[ob hp] tr]. simpl in *. do 3 f_equal.
    destruct o, r. simpl. apply map_eq. intros k.
    rewrite !lookup_insert. repeat case_decide; simplify_eq; done.
  - by apply (swap_self_spec w this o).
Qed.

(** X17: a swap that throws has not exchanged the handles.  If the swap of
    the copiers throws, or that of the deleters after it, the exception
    leaves [swap] with both [ptr_] as they were and the pointees untouched,
    so each wrapper still owns its own allocation; in the first case the
    deleters have not been touched either. *)
Theorem failed_swap_keeps_handles w this rhs o r :
  this ≠ rhs →
  objs (mem w) !! this = Some o → objs (mem w) !! rhs = Some r →
  (∀ e, (swap_op (c_ o) (c_ r)).2 = Throws e →
     (swap this rhs w).2 = Throw e ∧
     heap (mem (swap this rhs w).1) = heap (mem w) ∧
     trace (swap this rhs w).1 = trace w ∧
     ∃ o' r', objs (mem (swap this rhs w).1) !! this = Some o' ∧
              objs (mem (swap this rhs w).1) !! rhs = Some r' ∧
              ptr_ o' = ptr_ o ∧ ptr_ r' = ptr_ r ∧
              d_ o' = d_ o ∧ d_ r' = d_ r) ∧
  (∀ e, (swap_op (c_ o) (c_ r)).2 = Returns () →
        (swap_op (d_ o) (d_ r)).2 = Throws e →
     (swap this rhs w).2 = Throw e ∧
     heap (mem (swap this rhs w).1) = heap (mem w) ∧
     trace (swap this rhs w).1 = trace w ∧
     ∃ o' r', objs (mem (swap this rhs w).1) !! this = Some o' ∧
              objs (mem (swap this rhs w).1) !! rhs = Some r' ∧
              ptr_ o' = ptr_ o ∧ ptr_ r' = ptr_ r).
Proof.
  intros Hne Ho Hr.
  rewrite (swap_spec w this rhs o r Hne Ho Hr). cbn zeta. split.
  - intros e ->. simpl. split_and!; try done.
    eexists _, _. rewrite lookup_insert_ne, !lookup_insert_eq by done. done.
  - intros e -> ->. simpl. split_and!; try done.
    eexists _, _. rewrite lookup_insert_ne, !lookup_insert_eq by done. done.
Qed.
End SwapFacts.

(** ** The ownership invariant *)

(** Looking an object up after a few stores. *)
Ltac stored_lookup :=
  simpl;
  repeat first [rewrite lookup_insert_eq | rewrite lookup_insert_ne by done];
  first [eassumption | reflexivity].

Section InvariantFacts.
Context {T C D : Type}.
Implicit Types (m mf : Mem T C D) (o : indirect_value C D).

(** A wrapper is given a pointer that is null, or live and held by nobody
    else, while its former pointee and the object at [p] may change. *)
Lemma well_formed_reassigned m mf this o ox p :
  well_formed m →
  objs m !! this = Some o →
  objs mf = <[this := ox]> (objs m) →
  (∀ q, q ≠ nullptr → q ≠ ptr_ o → q ≠ p → is_Some (heap m !! q) →
        is_Some (heap mf !! q)) →
  (p ≠ nullptr → ∀ b ob, objs m !! b = Some ob → ptr_ ob ≠ p) →
  ptr_ ox = nullptr ∨ ptr_ ox = p ∧ is_Some (heap mf !! p) →
  well_formed mf.
Proof.
  intros Hwf Ho Hobjs Hframe Hfree Hox a oa Ha Hnz. rewrite Hobjs in Ha.
  assert (Hother : ∀ b ob, b ≠ this → objs m !! b = Some ob →
            ptr_ ob ≠ nullptr → ptr_ ob ≠ ptr_ o ∧ ptr_ ob ≠ p).
  { intros b ob Hb Hob Hn. split.
    - intros E. destruct (decide (ptr_ o = nullptr)) as [E0|E0]; [congruence |].
      destruct (Hwf this o Ho E0) as [_ Hu]. by apply Hb, (Hu b ob).
    - destruct (decide (p = nullptr)) as [->|Hp]; [done |].
      by apply (Hfree Hp b ob). }
  destruct (decide (a = this)) as [->|Hne].
  - rewrite lookup_insert_eq in Ha. injection Ha as <-.
    destruct Hox as [E | [E Hlive]]; [done |]. rewrite E. split; [done |].
    intros b ob Hb Heq. rewrite Hobjs in Hb.
    destruct (decide (b = this)) as [|Hb']; [done |].
    rewrite lookup_insert_ne in Hb by done.
    destruct (Hother b ob Hb' Hb) as [_ Hp]; [congruence | congruence].
  - rewrite lookup_insert_ne in Ha by done.
    destruct (Hwf a oa Ha Hnz) as [Hlive Hu].
    destruct (Hother a oa Hne Ha Hnz) as [H1 H2].
    split; [by apply Hframe |].
    intros b ob Hb Heq. rewrite Hobjs in Hb.
    destruct (decide (b = this)) as [->|Hb'].
    + rewrite lookup_insert_eq in Hb. injection Hb as <-.
      destruct Hox as [E | [E _]]; congruence.
    + rewrite lookup_insert_ne in Hb by done. by apply (Hu b ob).
Qed.

(** The wrappers exchange or hand over pointers among themselves: each
    non-null pointer in [mf] comes from the wrapper [src k] of [m]. *)
Lemma well_formed_permuted m mf (src : N → N) :
  well_formed m →
  heap mf = heap m →
  (∀ k o', objs mf !! k = Some o' → ptr_ o' ≠ nullptr →
     ∃ o0, objs m !! src k = Some o0 ∧ ptr_ o0 = ptr_ o') →
  (∀ k1 k2 o1 o2, objs mf !! k1 = Some o1 → objs mf !! k2 = Some o2 →
     ptr_ o1 ≠ nullptr → ptr_ o2 ≠ nullptr → src k1 = src k2 → k1 = k2) →
  well_formed mf.
Proof.
  intros Hwf Hheap Hsrc Hinj a oa Ha Hnz.
  destruct (Hsrc a oa Ha Hnz) as (o0 & H0 & E0).
  assert (Hnz0 : ptr_ o0 ≠ nullptr) by congruence.
  destruct (Hwf _ _ H0 Hnz0) as [Hlive Hu]. split.
  - by rewrite Hheap, <-E0.
  - intros b ob Hb Heq.
    assert (Hnzb : ptr_ ob ≠ nullptr) by congruence.
    destruct (Hsrc b ob Hb Hnzb) as (o1 & H1 & E1).
    apply (Hinj b a ob oa Hb Ha Hnzb Hnz).
    apply (Hu (src b) o1 H1). congruence.
Qed.

Lemma well_formed_same_pointers m mf :
  well_formed m →
  (∀ k o', objs mf !! k = Some o' → ptr_ o' ≠ nullptr →
     ∃ o0, objs m !! k = Some o0 ∧ ptr_ o0 = ptr_ o') →
  (∀ q, q ≠ nullptr → is_Some (heap m !! q) → is_Some (heap mf !! q)) →
  well_formed mf.
Proof.
  intros Hwf Hsame Hframe a oa Ha Hnz.
  destruct (Hsame a oa Ha Hnz) as (o0 & H0 & E0).
  assert (Hnz0 : ptr_ o0 ≠ nullptr) by congruence.
  destruct (Hwf _ _ H0 Hnz0) as [Hlive Hu]. split.
  - rewrite <-E0. by apply Hframe.
  - intros b ob Hb Heq.
    assert (Hnzb : ptr_ ob ≠ nullptr) by congruence.
    destruct (Hsame b ob Hb Hnzb) as (o1 & H1 & E1).
    apply (Hu b o1 H1). congruence.
Qed.

(** A wrapper is stored at [this], over whatever was there, with a pointer
    that is null or live and held by no other wrapper. *)
Lemma well_formed_inserted m mf this ox :
  well_formed m →
  objs mf = <[this := ox]> (objs m) →
  (∀ b ob, b ≠ this → objs m !! b = Some ob → ptr_ ob ≠ nullptr →
     is_Some (heap mf !! ptr_ ob) ∧ ptr_ ob ≠ ptr_ ox) →
  (ptr_ ox ≠ nullptr → is_Some (heap mf !! ptr_ ox)) →
  well_formed mf.
Proof.
  intros Hwf Hobjs Hothers Hox a oa Ha Hnz. rewrite Hobjs in Ha.
  destruct (decide (a = this)) as [->|Hne].
  - rewrite lookup_insert_eq in Ha. injection Ha as <-.
    split; [by apply Hox |].
    intros b ob Hb Heq. rewrite Hobjs in Hb.
    destruct (decide (b = this)) as [|Hb']; [done |].
    rewrite lookup_insert_ne in Hb by done.
    destruct (Hothers b ob Hb' Hb) as [_ Hp]; congruence.
  - rewrite lookup_insert_ne in Ha by done.
    destruct (Hwf a oa Ha Hnz) as [Hlive Hu].
    destruct (Hothers a oa Hne Ha Hnz) as [H1 H2].
    split; [done |].
    intros b ob Hb Heq. rewrite Hobjs in Hb.
    destruct (decide (b = this)) as [->|Hb'].
    + rewrite lookup_insert_eq in Hb. injection Hb as <-. congruence.
    + rewrite lookup_insert_ne in Hb by done. by apply (Hu b ob).
Qed.

Section WithPolicies.
Context `{!SpecialMembers C, !SpecialMembers D, !Comparable T T}.
Variable copier : C → T → Mem T C D → Mem T C D * fallible N.
Variable deleter : D → N → Mem T C D → Mem T C D.
Implicit Types (w : World T C D) (this i p : N).

Lemma well_formed_released m this o :
  deleter_contract deleter → well_formed m → objs m !! this = Some o →
  well_formed (released deleter this o m).
Proof.
  intros Hdel Hwf Ho.
  assert (Hkeep : ∀ d p m, objs (deleter d p m) = objs m)
    by (intros; apply Hdel).
  apply (well_formed_reassigned m _ this o (set_ptr nullptr o) nullptr);
    [done | done | by apply released_objs | | done | by left].
  intros q _ Hq _ Hlive. rewrite released_heap; [done | done | by intros _].
Qed.

Lemma well_formed_after_copier m c (v : T) :
  copier_contract copier → well_formed m → well_formed (copier c v m).1.
Proof.
  intros Hcop Hwf. destruct (Hcop c v m) as (Hobjs & Hframe & _).
  apply (well_formed_same_pointers m); [done | |].
  - intros k o' Hk _. rewrite Hobjs in Hk. eauto.
  - intros q _ Hq. by rewrite Hframe.
Qed.

(** Where [copy_assignment] leaves the memory once the guarded copy [p] is
    made, on each of its three exits. *)
Lemma copy_assignment_final_shape w w1 this i o src p :
  deleter_contract deleter →
  make_guarded_copy copier i w = (w1, Ok (Guard p i)) →
  objs (mem w1) !! this = Some o → objs (mem w1) !! i = Some src →
  ∃ ox,
    objs (mem (copy_assignment copier deleter this i w).1)
      = <[this := ox]> (objs (mem w1)) ∧
    (∀ q, q ≠ p →
       heap (mem (copy_assignment copier deleter this i w).1) !! q
       = heap (released deleter this o (mem w1)) !! q) ∧
    (ptr_ ox = nullptr ∨
     ptr_ ox = p ∧
     heap (mem (copy_assignment copier deleter this i w).1)
       = heap (released deleter this o (mem w1))).
Proof.
  intros Hdel Hg Ho Hi.
  assert (Hkeep : ∀ d p m, objs (deleter d p m) = objs m)
    by (intros; apply Hdel).
  pose proof (released_objs deleter this o (mem w1) Hkeep Ho) as Hrel.
  unfold copy_assignment. rewrite (bind_Ok _ _ _ _ _ Hg). unfold unwinding.
  cbn [guarded].
  rewrite (copy_assignment_body deleter w1 this i o src p Hdel Ho Hi).
  cbn zeta.
  set (o3 := set_c (copy_assign (c_ o) (c_ src)).1 (set_ptr nullptr o)).
  set (o4 := set_d (copy_assign (d_ o) (d_ src)).1 o3).
  set (w2 := mkWorld (released deleter this o (mem w1))
                     (trace w1 ++ release_events this o (mem w1))).
  assert (Hunwind : ∀ (ox : indirect_value C D) (wx : World T C D),
            ptr_ ox = nullptr →
            objs (mem wx) = <[this := ox]> (objs (mem w1)) →
            heap (mem wx) = heap (released deleter this o (mem w1)) →
            objs (mem (guard_destroy deleter (Guard p i) wx).1)
              = <[this := ox]> (objs (mem w1)) ∧
            ∀ q, q ≠ p →
              heap (mem (guard_destroy deleter (Guard p i) wx).1) !! q
              = heap (released deleter this o (mem w1)) !! q).
  { intros ox wx Hnull Hox Hhp. split.
    - by rewrite guard_destroy_objs.
    - intros q Hq. unfold guard_destroy. simpl.
      case_bool_decide as Hp; [| simpl; by rewrite Hhp].
      destruct (objs (mem wx) !! i) as [oi|] eqn:Hoi.
      + rewrite (bind_Ok _ _ _ _ _ (load_Some _ _ _ Hoi)). simpl.
        destruct (Hdel (d_ oi) p (mem wx)) as [_ Hframe].
        by rewrite Hframe, Hhp.
      + erewrite bind_Undefined; [simpl; by rewrite Hhp |].
        unfold load. by rewrite Hoi. }
  destruct (copy_assign (c_ o) (c_ src)).2 as [[]|e1];
    [destruct (copy_assign (d_ o) (d_ src)).2 as [[]|e2] |]; simpl.
  - exists (set_ptr p o4). split_and!.
    + by rewrite Hrel, !insert_insert_eq.
    + done.
    + by right.
  - destruct (Hunwind o4 (store this o4 (store this o3 w2).1).1)
      as [H1 H2]; [done | | done |].
    { simpl. by rewrite Hrel, !insert_insert_eq. }
    exists o4. split_and!; [done | done | by left].
  - destruct (Hunwind o3 (store this o3 w2).1) as [H1 H2]; [done | | done |].
    { simpl. by rewrite Hrel, !insert_insert_eq. }
    exists o3. split_and!; [done | done | by left].
Qed.

(** X18: both assignments keep the ownership invariant, on every exit.  If
    every non-null [ptr_] in memory designates a live object that no other
    wrapper holds, and the policies keep to their contracts, the same is true
    after [t = s] and after [t = std::move(s)], whether the assignment
    returns or throws, and also when [t] and [s] are the same wrapper. *)
Theorem assignments_keep_ownership w this i o src :
  copier_contract copier → deleter_contract deleter →
  well_formed (mem w) →
  objs (mem w) !! this = Some o → objs (mem w) !! i = Some src →
  well_formed (mem (copy_assignment copier deleter this i w).1) ∧
  well_formed (mem (move_assignment deleter this i w).1).
Proof.
  intros Hcop Hdel Hwf Ho Hi.
  assert (Hkeep : ∀ d p m, objs (deleter d p m) = objs m)
    by (intros; apply Hdel).
  split.
  - assert (Hcommon : ∀ w1 p,
      make_guarded_copy copier i w = (w1, Ok (Guard p i)) →
      objs (mem w1) = objs (mem w) → well_formed (mem w1) →
      (p ≠ nullptr → is_Some (heap (mem w1) !! p) ∧
                     ∀ b ob, objs (mem w1) !! b = Some ob → ptr_ ob ≠ p) →
      well_formed (mem (copy_assignment copier deleter this i w).1)).
    { intros w1 p Hg Hobjs Hwf1 Hp.
      assert (Ho1 : objs (mem w1) !! this = Some o) by (by rewrite Hobjs).
      assert (Hi1 : objs (mem w1) !! i = Some src) by (by rewrite Hobjs).
      destruct (copy_assignment_final_shape w w1 this i o src p Hdel Hg Ho1 Hi1)
        as (ox & Hobj & Hheap & Hox).
      apply (well_formed_reassigned (mem w1) _ this o ox p);
        [done | done | done | | |].
      - intros q _ Hq1 Hq2 Hlive.
        rewrite Hheap, released_heap; [done | done | by intros _ | done].
      - intros Hpn. by apply Hp.
      - destruct Hox as [E | [E Hh]]; [by left |].
        destruct (decide (p = nullptr)) as [Hp0 | Hpn]; [left; congruence |].
        right. split; [done |]. destruct (Hp Hpn) as [Hlive Hfree].
        rewrite Hh, released_heap; [done | done |].
        intros _ ->. by apply (Hfree this o Ho1). }
    destruct (decide (ptr_ src = nullptr)) as [E | E].
    + apply (Hcommon w nullptr); [| done | done | done].
      by apply (make_guarded_copy_empty copier w i src).
    + destruct (Hwf i src Hi E) as [[v Hv] _].
      assert (Hstar : star (heap (mem w)) src = Some v) by (by apply star_Some).
      pose proof (make_guarded_copy_nonempty copier _ _ _ _ Hi Hstar) as Hg.
      destruct (Hcop (c_ src) v (mem w)) as (Hobjs & Hframe & Hnew).
      destruct (copier (c_ src) v (mem w)).2 as [p|e] eqn:Hp.
      * destruct Hnew as (Hpn & Hfresh & v' & Hv' & _).
        eapply Hcommon; [exact Hg | done | | ].
        { simpl. by apply well_formed_after_copier. }
        intros _. simpl. split; [by eexists |].
        intros b ob Hb Heq. rewrite Hobjs in Hb.
        assert (Hnz : ptr_ ob ≠ nullptr) by congruence.
        destruct (Hwf b ob Hb Hnz) as [[x Hx] _]. congruence.
      * unfold copy_assignment. rewrite (bind_Throw _ _ _ _ _ Hg). simpl.
        by apply well_formed_after_copier.
  - unfold move_assignment. case_bool_decide as Hne; [| done].
    rewrite (bind_Ok _ _ _ _ _ (reset_spec deleter w this o Ho)).
    pose proof (released_objs deleter this o (mem w) Hkeep Ho) as Hobjs.
    pose proof (well_formed_released (mem w) this o Hdel Hwf Ho) as Hwfr.
    set (w1 := mkWorld _ _).
    assert (Hb1 : objs (mem w1) !! this = Some (set_ptr nullptr o))
      by (simpl; rewrite Hobjs; apply lookup_insert_eq).
    assert (Ha1 : objs (mem w1) !! i = Some src)
      by (simpl; rewrite Hobjs, lookup_insert_ne; done).
    erewrite bind_Ok
      by (eapply copy_base_move_assign_spec; stored_lookup).
    erewrite bind_Ok
      by (eapply delete_base_move_assign_spec; stored_lookup).
    erewrite bind_Ok by (eapply exchange_ptr_spec; stored_lookup).
    erewrite bind_Ok by (eapply load_Some; stored_lookup).
    apply (well_formed_permuted (released deleter this o (mem w)) _
             (λ k, if decide (k = this) then i else k)); [done | done | |].
    + intros k o' Hk Hnz. simpl in Hk. rewrite !lookup_insert in Hk.
      repeat case_decide; simplify_eq; simpl in *; try done.
      * exists src. by rewrite Hobjs, lookup_insert_ne.
      * eauto.
    + intros k1 k2 o1 o2 Hk1 Hk2 Hn1 Hn2. simpl in Hk1, Hk2.
      rewrite !lookup_insert in Hk1, Hk2.
      repeat case_decide; simplify_eq; simpl in *; done.
Qed.


(** X20: what the destructor leaves.  Whatever the deleter does, the
    destructor returns normally and no wrapper is left at the destroyed
    address; the other wrappers and the pointees are exactly as the release
    of the pointee left them, so that the ownership invariant holds
    afterwards if it held when the deleter returned.  For a deleter that
    keeps to its contract (it releases the allocation it is handed and
    changes nothing else) the invariant is kept, the wrappers that remain
    are exactly the others, untouched, and their pointees are still
    live. *)
Theorem destruction_keeps_ownership w this o :
  objs (mem w) !! this = Some o →
  (dtor deleter this w).2 = Ok () ∧
  objs (mem (dtor deleter this w).1)
    = delete this (objs (released deleter this o (mem w))) ∧
  heap (mem (dtor deleter this w).1)
    = heap (released deleter this o (mem w)) ∧
  (well_formed (released deleter this o (mem w)) →
   well_formed (mem (dtor deleter this w).1)) ∧
  (deleter_contract deleter → well_formed (mem w) →
   well_formed (mem (dtor deleter this w).1) ∧
   objs (mem (dtor deleter this w).1) = delete this (objs (mem w)) ∧
   ∀ a oa, a ≠ this → objs (mem w) !! a = Some oa → ptr_ oa ≠ nullptr →
           heap (mem (dtor deleter this w).1) !! ptr_ oa
           = heap (mem w) !! ptr_ oa).
Proof.
  intros Ho.
  unfold dtor. rewrite (bind_Ok _ _ _ _ _ (reset_spec deleter w this o Ho)).
  simpl.
  assert (Hgone : well_formed (released deleter this o (mem w)) →
            well_formed
              (mkMem (delete this (objs (released deleter this o (mem w))))
                     (heap (released deleter this o (mem w))))).
  { intros Hwfr.
    apply (well_formed_same_pointers (released deleter this o (mem w)));
      [done | | done].
    intros k o' Hk _. simpl in Hk. apply lookup_delete_Some in Hk as [_ Hk].
    eauto. }
  split_and!; [done | done | done | exact Hgone |].
  intros Hdel Hwf.
  assert (Hkeep : ∀ d p m, objs (deleter d p m) = objs m)
    by (intros; apply Hdel).
  pose proof (released_objs deleter this o (mem w) Hkeep Ho) as Hobjs.
  split_and!.
  - apply Hgone. by apply well_formed_released.
  - rewrite Hobjs. apply delete_insert_eq.
  - intros a oa Hne Ha Hnz. apply released_heap; [done |].
    intros Hn Heq. destruct (Hwf this o Ho Hn) as [_ Huniq].
    by apply Hne, (Huniq a oa).
Qed.

Lemma release_events_live this o (m : Mem T C D) :
  (ptr_ o ≠ nullptr → is_Some (heap m !! ptr_ o)) →
  Forall deletes_live (release_events this o m) ∧
  NoDup (deleted (release_events this o m)).
Proof.
  intros Hlive. unfold release_events. case_bool_decide as E; simpl.
  - split; [repeat constructor; auto | apply NoDup_singleton].
  - split; [constructor | apply NoDup_nil_2].
Qed.

(** The deleter calls of [copy_assignment] once the guarded copy [p] is
    made: the release of the former pointee, and on the exceptional exits
    the guard's release of [p], entered with the pointees [reset] left. *)
Lemma copy_assignment_deletions w w1 this i o src p :
  deleter_contract deleter →
  make_guarded_copy copier i w = (w1, Ok (Guard p i)) →
  objs (mem w1) !! this = Some o → objs (mem w1) !! i = Some src →
  trace (copy_assignment copier deleter this i w).1
    = trace w1 ++ release_events this o (mem w1) ∨
  p ≠ nullptr ∧
  ∃ d mx, heap mx = heap (released deleter this o (mem w1)) ∧
          trace (copy_assignment copier deleter this i w).1
          = trace w1 ++ release_events this o (mem w1)
            ++ [deleter_called d p mx].
Proof.
  intros Hdel Hg Ho Hi.
  unfold copy_assignment. rewrite (bind_Ok _ _ _ _ _ Hg). unfold unwinding.
  cbn [guarded].
  rewrite (copy_assignment_body deleter w1 this i o src p Hdel Ho Hi).
  cbn zeta.
  set (o3 := set_c (copy_assign (c_ o) (c_ src)).1 (set_ptr nullptr o)).
  set (o4 := set_d (copy_assign (d_ o) (d_ src)).1 o3).
  set (w2 := mkWorld (released deleter this o (mem w1))
                     (trace w1 ++ release_events this o (mem w1))).
  assert (Hunwind : ∀ wx : World T C D,
            heap (mem wx) = heap (released deleter this o (mem w1)) →
            trace wx = trace w1 ++ release_events this o (mem w1) →
            trace (guard_destroy deleter (Guard p i) wx).1
              = trace w1 ++ release_events this o (mem w1) ∨
            p ≠ nullptr ∧
            ∃ d mx, heap mx = heap (released deleter this o (mem w1)) ∧
                    trace (guard_destroy deleter (Guard p i) wx).1
                    = trace w1 ++ release_events this o (mem w1)
                      ++ [deleter_called d p mx]).
  { intros wx Hhp Htr.
    destruct (guard_destroy_trace deleter (Guard p i) wx)
      as [E | [Hp [d E]]]; rewrite E, Htr.
    - by left.
    - right. split; [done |]. exists d, (mem wx).
      split; [done |]. by rewrite <-app_assoc. }
  destruct (copy_assign (c_ o) (c_ src)).2 as [[]|e1];
    [destruct (copy_assign (d_ o) (d_ src)).2 as [[]|e2] |]; simpl.
  - by left.
  - by apply (Hunwind (store this o4 (store this o3 w2).1).1).
  - by apply (Hunwind (store this o3 w2).1).
Qed.

(** X23: nothing is released twice and nothing dangling is released.  From
    a memory that satisfies the ownership invariant, with policies that
    keep to their contracts, every deleter call made by the destructor, by
    copy assignment and by move assignment, on whatever exit, is handed a
    non-null pointer to an object that is live at that moment, and no
    pointer is handed to a deleter twice within the operation. *)
Theorem every_release_is_of_a_live_object w this i o src :
  copier_contract copier → deleter_contract deleter →
  well_formed (mem w) →
  objs (mem w) !! this = Some o → objs (mem w) !! i = Some src →
  (∃ evs, trace (dtor deleter this w).1 = trace w ++ evs ∧
          Forall deletes_live evs ∧ NoDup (deleted evs)) ∧
  (∃ evs, trace (copy_assignment copier deleter this i w).1 = trace w ++ evs ∧
          Forall deletes_live evs ∧ NoDup (deleted evs)) ∧
  (∃ evs, trace (move_assignment deleter this i w).1 = trace w ++ evs ∧
          Forall deletes_live evs ∧ NoDup (deleted evs)).
Proof.
  intros Hcop Hdel Hwf Ho Hi.
  assert (Hlive : ptr_ o ≠ nullptr → is_Some (heap (mem w) !! ptr_ o))
    by (intros Hn; by apply (Hwf this o Ho)).
  destruct (release_events_live this o (mem w) Hlive) as [Hrl Hrn].
  split; [| split].
  - exists (release_events this o (mem w)).
    unfold dtor. rewrite (bind_Ok _ _ _ _ _ (reset_spec deleter w this o Ho)).
    by split.
  - assert (Hcommon : ∀ w1 p pre,
      make_guarded_copy copier i w = (w1, Ok (Guard p i)) →
      objs (mem w1) = objs (mem w) → trace w1 = trace w ++ pre →
      deleted pre = [] → Forall deletes_live pre →
      (∀ q, is_Some (heap (mem w) !! q) → is_Some (heap (mem w1) !! q)) →
      (p ≠ nullptr → is_Some (heap (mem w1) !! p) ∧ heap (mem w) !! p = None) →
      ∃ evs, trace (copy_assignment copier deleter this i w).1
             = trace w ++ evs ∧
             Forall deletes_live evs ∧ NoDup (deleted evs)).
    { intros w1 p pre Hg Hobjs Htr Hpre Hprel Hframe Hp.
      assert (Ho1 : objs (mem w1) !! this = Some o) by (by rewrite Hobjs).
      assert (Hi1 : objs (mem w1) !! i = Some src) by (by rewrite Hobjs).
      assert (Hlive1 : ptr_ o ≠ nullptr → is_Some (heap (mem w1) !! ptr_ o))
        by auto.
      destruct (release_events_live this o (mem w1) Hlive1) as [Hrl1 Hrn1].
      destruct (copy_assignment_deletions w w1 this i o src p Hdel Hg Ho1 Hi1)
        as [-> | (Hpn & d & mx & Hmx & ->)]; rewrite Htr, <-app_assoc.
      - eexists. split; [done |]. rewrite deleted_app, Hpre. simpl.
        split; [by apply Forall_app | done].
      - destruct (Hp Hpn) as [Hplive Hpfresh].
        assert (Hne : ptr_ o ≠ nullptr → p ≠ ptr_ o).
        { intros Hn ->. destruct (Hlive Hn) as [x Hx]. congruence. }
        eexists. split; [done |].
        rewrite !deleted_app, Hpre, release_events_deleted. simpl. split.
        + apply Forall_app. split; [done |]. apply Forall_app.
          split; [done |]. repeat constructor; [done |].
          rewrite Hmx, released_heap; done.
        + unfold to_bool. case_bool_decide as E; simpl.
          * apply NoDup_cons. split; [| apply NoDup_singleton].
            intros Hin%list_elem_of_singleton. by apply (Hne E).
          * apply NoDup_singleton. }
    destruct (decide (ptr_ src = nullptr)) as [E | E].
    + apply (Hcommon w nullptr []); try done.
      * by apply (make_guarded_copy_empty copier w i src).
      * by rewrite app_nil_r.
    + destruct (Hwf i src Hi E) as [[v Hv] _].
      assert (Hstar : star (heap (mem w)) src = Some v) by (by apply star_Some).
      pose proof (make_guarded_copy_nonempty copier _ _ _ _ Hi Hstar) as Hg.
      destruct (Hcop (c_ src) v (mem w)) as (Hobjs & Hframe & Hnew).
      destruct (copier (c_ src) v (mem w)).2 as [p|e] eqn:Hp.
      * destruct Hnew as (Hpn & Hfresh & v' & Hv' & _).
        apply (Hcommon _ p [copier_called (c_ src) v] Hg); try done.
        -- by repeat constructor.
        -- intros q Hq. simpl. by rewrite Hframe.
      * exists [copier_called (c_ src) v].
        unfold copy_assignment. rewrite (bind_Throw _ _ _ _ _ Hg). simpl.
        split; [done |]. split; [by repeat constructor | apply NoDup_nil_2].
  - unfold move_assignment. case_bool_decide as Hne.
    + exists (release_events this o (mem w)).
      rewrite (bind_Ok _ _ _ _ _ (reset_spec deleter w this o Ho)).
      rewrite move_assignment_tail_trace. by split.
    + exists []. simpl. rewrite app_nil_r.
      split; [done |]. split; [constructor | apply NoDup_nil_2].
Qed.
End WithPolicies.

Section SwapKeepsOwnership.
Context `{!Swappable C, !Swappable D}.
Implicit Types (w : World T C D) (this rhs : N).

Lemma swap_copiers_self w this o :
  objs (mem w) !! this = Some o →
  swap_copiers this this w
  = ((store this (set_c (swap_self (c_ o)).1 o) w).1,
     to_outcome (swap_self (c_ o)).2).
Proof.
  intros Ho. unfold swap_copiers.
  rewrite (bind_Ok _ _ _ _ _ (load_Some _ _ _ Ho)).
  rewrite (bind_Ok _ _ _ _ _ (load_Some _ _ _ Ho)).
  rewrite bool_decide_true by done. by erewrite bind_Ok by reflexivity.
Qed.

Lemma swap_deleters_self w this o :
  objs (mem w) !! this = Some o →
  swap_deleters this this w
  = ((store this (set_d (swap_self (d_ o)).1 o) w).1,
     to_outcome (swap_self (d_ o)).2).
Proof.
  intros Ho. unfold swap_deleters.
  rewrite (bind_Ok _ _ _ _ _ (load_Some _ _ _ Ho)).
  rewrite (bind_Ok _ _ _ _ _ (load_Some _ _ _ Ho)).
  rewrite bool_decide_true by done. by erewrite bind_Ok by reflexivity.
Qed.

Lemma swap_ptrs_self w this o :
  objs (mem w) !! this = Some o →
  swap_ptrs this this w
  = ((store this (set_ptr (ptr_ o) (set_ptr (ptr_ o) o))
        (store this (set_ptr (ptr_ o) o) w).1).1, Ok ()).
Proof.
  intros Ho. unfold swap_ptrs.
  rewrite (bind_Ok _ _ _ _ _ (load_Some _ _ _ Ho)).
  rewrite (bind_Ok _ _ _ _ _ (load_Some _ _ _ Ho)).
  erewrite bind_Ok by reflexivity.
  erewrite bind_Ok; [reflexivity |].
  apply load_Some. simpl. apply lookup_insert_eq.
Qed.

(** A wrapper swapped with itself keeps its pointer whatever its policies'
    swaps do, and no object is touched. *)
Lemma swap_self_shape w this o :
  objs (mem w) !! this = Some o →
  ∃ x, ptr_ x = ptr_ o ∧
       objs (mem (swap this this w).1) = <[this := x]> (objs (mem w)) ∧
       heap (mem (swap this this w).1) = heap (mem w).
Proof.
  intros Ho. unfold swap.
  pose proof (swap_copiers_self w this o Ho) as Hc.
  destruct (swap_self (c_ o)) as [c1 [[]|e]]; simpl in Hc.
  2: { rewrite (bind_Throw _ _ _ _ _ Hc). by exists (set_c c1 o). }
  rewrite (bind_Ok _ _ _ _ _ Hc). clear Hc.
  match goal with |- context [(_ ≫= _) ?w1] =>
    pose proof (swap_deleters_self w1 this (set_c c1 o)) as Hd
  end.
  simpl in Hd. rewrite lookup_insert_eq in Hd. specialize (Hd eq_refl).
  destruct (swap_self (d_ o)) as [d1 [[]|e]]; simpl in Hd.
  2: { rewrite (bind_Throw _ _ _ _ _ Hd).
       exists (IndirectValue c1 d1 (ptr_ o)). simpl.
       split; [done |]. split; [| done]. same_inserts. }
  rewrite (bind_Ok _ _ _ _ _ Hd). clear Hd.
  erewrite swap_ptrs_self by (simpl; apply lookup_insert_eq).
  exists (IndirectValue c1 d1 (ptr_ o)). simpl.
  split; [done |]. split; [| done]. same_inserts.
Qed.

(** X21: [swap] keeps the ownership invariant on every exit, also when a
    policy's swap throws half-way and when a wrapper is swapped with
    itself, and it never touches an owned object. *)
Theorem swap_keeps_ownership w this rhs o r :
  well_formed (mem w) →
  objs (mem w) !! this = Some o → objs (mem w) !! rhs = Some r →
  well_formed (mem (swap this rhs w).1) ∧
  heap (mem (swap this rhs w).1) = heap (mem w).
Proof.
  intros Hwf Ho Hr. destruct (decide (this = rhs)) as [<-|Hne].
  - destruct (swap_self_shape w this o Ho) as (x & Hx & Hobjs & Hheap).
    split; [| done].
    apply (well_formed_same_pointers (mem w)); [done | |].
    + intros k o' Hk Hn. rewrite Hobjs in Hk.
      destruct (decide (k = this)) as [->|Hk'].
      * rewrite lookup_insert_eq in Hk. injection Hk as <-.
        exists o. by split.
      * rewrite lookup_insert_ne in Hk by done. eauto.
    + intros q _ Hq. by rewrite Hheap.
  - rewrite (swap_spec w this rhs o r Hne Ho Hr). cbn zeta.
    destruct (swap_op (c_ o) (c_ r)) as [[c1 c2] [[]|e]]; simpl.
    2: { split; [| done].
         apply (well_formed_same_pointers (mem w)); [done | | done].
         intros k o' Hk Hn. simpl in Hk. rewrite !lookup_insert in Hk.
         repeat case_decide; simplify_eq; eauto. }
    destruct (swap_op (d_ o) (d_ r)) as [[d1 d2] [[]|e]]; simpl.
    2: { split; [| done].
         apply (well_formed_same_pointers (mem w)); [done | | done].
         intros k o' Hk Hn. simpl in Hk. rewrite !lookup_insert in Hk.
         repeat case_decide; simplify_eq; eauto. }
    split; [| done].
    apply (well_formed_permuted (mem w) _
             (λ k, if decide (k = this) then rhs
                   else if decide (k = rhs) then this else k));
      [done | done | |].
    + intros k o' Hk Hnz. simpl in Hk. rewrite !lookup_insert in Hk.
      repeat case_decide; simplify_eq; simpl in *; eauto.
    + intros k1 k2 o1 o2 Hk1 Hk2 Hn1 Hn2. simpl in Hk1, Hk2.
      rewrite !lookup_insert in Hk1, Hk2.
      repeat case_decide; simplify_eq; simpl in *; done.
Qed.
End SwapKeepsOwnership.
End InvariantFacts.

(** ** The default policies *)


(** ** Order laws *)

Section OrderLaws.
Context {T C D : Type} `{!Comparable T T}.
Variable h : gmap N T.
Implicit Types (x y z : indirect_value C D).

(** X24: the wrappers inherit the order laws of the pointee type, each on
    its own, with the empty wrapper as least element.  If the pointees' [<]
    is irreflexive, so is the wrappers'; if it is transitive, so is the
    wrappers'; if the pointees' [==] is reflexive, the wrappers' [==] is
    reflexive on every wrapper that is empty or owns a live pointee; if it
    is transitive, so is the wrappers'; and if any two pointees are related
    by [<], [==] or [>], so are any two wrappers that are empty or own live
    pointees. *)
Theorem order_laws_lift x y z :
  ((∀ a : T, lt_op a a = false) → operator_lt h h x x ≠ Some true) ∧
  ((∀ a b c : T, lt_op a b = true → lt_op b c = true → lt_op a c = true) →
   operator_lt h h x y = Some true → operator_lt h h y z = Some true →
   operator_lt h h x z = Some true) ∧
  ((∀ a : T, eq_op a a = true) →
   owned h x → operator_eq h h x x = Some true) ∧
  ((∀ a b c : T, eq_op a b = true → eq_op b c = true → eq_op a c = true) →
   operator_eq h h x y = Some true → operator_eq h h y z = Some true →
   operator_eq h h x z = Some true) ∧
  ((∀ a b : T, lt_op a b = true ∨ eq_op a b = true ∨ lt_op b a = true) →
   owned h x → owned h y →
   operator_lt h h x y = Some true ∨ operator_eq h h x y = Some true ∨
   operator_lt h h y x = Some true).
Proof.
  unfold operator_lt, operator_eq. split_and!.
  - intros Hirr. destruct (to_bool x), (star h x) as [a|]; simpl; try done.
    rewrite Hirr. done.
  - intros Htrans.
    destruct (to_bool x), (to_bool y), (to_bool z),
      (star h x) as [a|], (star h y) as [b|], (star h z) as [c|];
      simpl; try done.
    intros [= Hab] [= Hbc]. by rewrite (Htrans a b c).
  - intros Hrefl Hx. destruct (to_bool x) eqn:Ex; simpl; [| done].
    destruct (owned_star _ _ Hx Ex) as [a ->]. simpl. by rewrite Hrefl.
  - intros Heqtrans.
    destruct (to_bool x), (to_bool y), (to_bool z),
      (star h x) as [a|], (star h y) as [b|], (star h z) as [c|];
      simpl; try done.
    intros [= Hab] [= Hbc]. by rewrite (Heqtrans a b c).
  - intros Htotal Hx Hy. destruct (to_bool x) eqn:Ex, (to_bool y) eqn:Ey;
      try (destruct (owned_star _ _ Hx Ex) as [a ->]);
      try (destruct (owned_star _ _ Hy Ey) as [b ->]); simpl; auto.
    destruct (Htotal a b) as [-> | [-> | ->]]; auto.
Qed.
End OrderLaws.

(** ** Moved-from wrappers *)

Section MovedFrom.
Context {T C D : Type} `{!SpecialMembers C, !SpecialMembers D}.
Variable deleter : D → N → Mem T C D → Mem T C D.
Implicit Types (w : World T C D) (o : indirect_value C D) (this a : N).

Lemma dtor_spec w this o :
  objs (mem w) !! this = Some o →
  dtor deleter this w
  = ((end_lifetime this
        (mkWorld (released deleter this o (mem w))
                 (trace w ++ release_events this o (mem w)))).1, Ok ()).
Proof.
  intros Ho. unfold dtor.
  by rewrite (bind_Ok _ _ _ _ _ (reset_spec deleter w this o Ho)).
Qed.

(** X25: a moved-from wrapper releases nothing.  After [this] is move
    constructed from [a], destroying [a] calls no policy at all, and
    destroying both wrappers hands the allocation that [a] owned to a
    deleter exactly once, or calls none if [a] was empty; this holds for
    any policies whatever and all three steps return normally. *)
Theorem moved_from_wrapper_releases_nothing w this a oa :
  objs (mem w) !! a = Some oa → this ≠ a →
  ((move_ctor this a;; dtor deleter a) w).2 = Ok () ∧
  trace ((move_ctor this a;; dtor deleter a) w).1 = trace w ∧
  heap (mem ((move_ctor this a;; dtor deleter a) w).1) = heap (mem w) ∧
  ((move_ctor this a;; dtor deleter a;; dtor deleter this) w).2 = Ok () ∧
  deleted (trace ((move_ctor this a;; dtor deleter a;;
                   dtor deleter this) w).1)
    = deleted (trace w) ++ (if to_bool oa then [ptr_ oa] else []).
Proof.
  intros Ha Hne.
  set (mc := move_construct (c_ oa)). set (md := move_construct (d_ oa)).
  assert (Hm : move_ctor this a w
    = ((store this (IndirectValue mc.1 md.1 (ptr_ oa))
          (store a (IndirectValue mc.2 md.2 nullptr)
             (store a (IndirectValue mc.2 md.2 (ptr_ oa)) w).1).1).1, Ok ())).
  { unfold move_ctor.
    rewrite (bind_Ok _ _ _ _ _ (load_Some _ _ _ Ha)). cbn zeta.
    erewrite bind_Ok by reflexivity.
    by erewrite bind_Ok by (eapply exchange_ptr_spec; stored_lookup). }
  rewrite !(bind_Ok _ _ _ _ _ Hm).
  match goal with |- context [dtor deleter a ?w1] =>
    assert (Hd : dtor deleter a w1
                 = ((end_lifetime a w1).1, Ok ()));
    [ rewrite (dtor_spec w1 a (IndirectValue mc.2 md.2 nullptr))
        by stored_lookup;
      unfold released, release_events; simpl;
      by rewrite app_nil_r
    | set (wm := w1) in * ]
  end.
  rewrite !(bind_Ok _ _ _ _ _ Hd), Hd.
  split_and!; try done.
  - rewrite (dtor_spec _ this (IndirectValue mc.1 md.1 (ptr_ oa)))
      by (simpl; rewrite lookup_delete_ne by done; apply lookup_insert_eq).
    done.
  - rewrite (dtor_spec _ this (IndirectValue mc.1 md.1 (ptr_ oa)))
      by (simpl; rewrite lookup_delete_ne by done; apply lookup_insert_eq).
    simpl. by rewrite deleted_app, release_events_deleted.
Qed.
End MovedFrom.

(** ** The statements on the sample worlds *)

Ltac sample_lookup H :=
  simpl in H; rewrite ?lookup_insert in H; repeat case_decide; simplify_eq;
  try (by rewrite lookup_empty in H).

Ltac sample_well_formed :=
  let a := fresh "a" in let o := fresh "o" in
  let Ha := fresh "Ha" in let Hnz := fresh "Hnz" in
  let b := fresh "b" in let o' := fresh "o'" in
  let Hb := fresh "Hb" in let Heq := fresh "Heq" in
  intros a o Ha Hnz; sample_lookup Ha;
  (split; [by eexists | intros b o' Hb Heq; sample_lookup Hb; done]).

Lemma demo_world_well_formed : well_formed (mem demo_world).
Proof. sample_well_formed. Qed.

Lemma flaky_world_well_formed : well_formed (mem flaky_world).
Proof. sample_well_formed. Qed.

Lemma orphan_world_well_formed : well_formed (mem orphan_world).
Proof. sample_well_formed. Qed.

Lemma list_world_well_formed : well_formed (mem list_world).
Proof. sample_well_formed. Qed.

Lemma released_list :
  released (node_delete 8) 1%N (IndirectValue DefaultCopy DefaultDelete 10%N)
    (mem list_world)
  = mkMem (<[1%N := IndirectValue DefaultCopy DefaultDelete nullptr]>
             (<[4%N := IndirectValue DefaultCopy DefaultDelete 12%N]>
                (<[5%N := IndirectValue DefaultCopy DefaultDelete nullptr]>
                   ∅)))
          (<[12%N := Node 3 5]> ∅).
Proof. vm_compute. reflexivity. Qed.

Lemma released_list_well_formed :
  well_formed
    (released (node_delete 8) 1%N
       (IndirectValue DefaultCopy DefaultDelete 10%N) (mem list_world)).
Proof. rewrite released_list. sample_well_formed. Qed.

Lemma orphan_is_unowned :
  12%N ≠ nullptr →
  is_Some (heap (mem orphan_world) !! 12%N) ∧
  ∀ b ob, objs (mem orphan_world) !! b = Some ob → ptr_ ob ≠ 12%N.
Proof.
  intros _. split; [by eexists |].
  intros b ob Hb. sample_lookup Hb; done.
Qed.

Lemma Z_le_is_not_gt (a b : Z) : le_op a b = negb (gt_op a b).
Proof. simpl. unfold Z.leb, Z.gtb. by destruct (a ?= b)%Z. Qed.

Lemma Z_ge_is_not_lt (a b : Z) : ge_op a b = negb (lt_op a b).
Proof. simpl. unfold Z.geb, Z.ltb. by destruct (a ?= b)%Z. Qed.

Lemma Z_lt_mirrors (a b : Z) : lt_op a b = gt_op b a.
Proof. simpl. by rewrite Z.gtb_ltb. Qed.

Lemma Z_gt_mirrors (a b : Z) : gt_op a b = lt_op b a.
Proof. simpl. by rewrite Z.gtb_ltb. Qed.

Lemma Z_le_mirrors (a b : Z) : le_op a b = ge_op b a.
Proof. simpl. by rewrite Z.geb_leb. Qed.

Lemma Z_ge_mirrors (a b : Z) : ge_op a b = le_op b a.
Proof. simpl. by rewrite Z.geb_leb. Qed.

Lemma Z_eq_mirrors (a b : Z) : eq_op a b = eq_op b a.
Proof. simpl. apply Z.eqb_sym. Qed.

Lemma Z_ne_mirrors (a b : Z) : ne_op a b = ne_op b a.
Proof. simpl. by rewrite Z.eqb_sym. Qed.

Lemma Z_three_way_consistent : three_way_consistent Z Z.
Proof.
  intros a b. simpl. unfold po_is_neq, Z.ltb, Z.gtb, Z.leb, Z.geb.
  destruct (Z.compare_spec a b) as [-> | Hlt | Hgt]; simpl;
    rewrite ?Z.eqb_refl; try done.
  - by rewrite (proj2 (Z.eqb_neq a b)) by lia.
  - by rewrite (proj2 (Z.eqb_neq a b)) by lia.
Qed.

Lemma Z_hash_respects_eq (a b : Z) :
  eq_op a b = true → hash_op a = hash_op b.
Proof. simpl. by intros ->%Z.eqb_eq. Qed.

Lemma null_is_an_empty_wrapper_witness :
  to_bool demo_empty = false ∧
  operator_lt (heap (mem demo_world)) (heap (mem demo_world))
    demo_empty demo_full = Some (null_operator_lt demo_full) ∧
  operator_ge (heap (mem demo_world)) (heap (mem demo_world))
    demo_full demo_empty = Some (operator_ge_null demo_full).
Proof.
  split; [reflexivity |].
  destruct (null_is_an_empty_wrapper (heap (mem demo_world))
              (heap (mem demo_world)) demo_full demo_full demo_empty
              demo_empty eq_refl eq_refl)
    as [(_ & _ & _ & _ & _ & Hge) (_ & _ & Hlt & _)].
  split; [exact Hlt | exact Hge].
Defined.

Lemma raw_is_a_full_wrapper_witness :
  star (heap (mem demo_world)) demo_other = Some 7%Z ∧
  star (heap (mem demo_world)) demo_full = Some 42%Z ∧
  operator_lt_raw (heap (mem demo_world)) demo_empty 7%Z
    = operator_lt (heap (mem demo_world)) (heap (mem demo_world))
        demo_empty demo_other ∧
  raw_operator_ge (heap (mem demo_world)) 42%Z demo_other
    = operator_ge (heap (mem demo_world)) (heap (mem demo_world))
        demo_full demo_other.
Proof.
  split; [reflexivity |]. split; [reflexivity |].
  destruct (raw_is_a_full_wrapper (heap (mem demo_world))
              (heap (mem demo_world)) demo_empty demo_other demo_full
              demo_other 7%Z 42%Z eq_refl eq_refl)
    as [(_ & _ & Hlt & _) (_ & _ & _ & _ & _ & Hge)].
  split; [exact Hlt | exact Hge].
Defined.

Lemma order_negations_lift_witness :
  operator_le (heap (mem demo_world)) (heap (mem demo_world))
    demo_full demo_other
  = negb <$> operator_gt (heap (mem demo_world)) (heap (mem demo_world))
               demo_full demo_other.
Proof.
  apply (order_negations_lift (heap (mem demo_world)) (heap (mem demo_world))
           demo_full demo_other 7%Z 42%Z Z_le_is_not_gt Z_ge_is_not_lt).
Defined.

Lemma comparisons_are_defined_witness :
  owned (heap (mem demo_world)) demo_full ∧
  owned (heap (mem demo_world)) demo_empty ∧
  is_Some (operator_lt (heap (mem demo_world)) (heap (mem demo_world))
             demo_full demo_empty).
Proof.
  split; [exact owned_demo_full |]. split; [exact owned_demo_empty |].
  apply (comparisons_are_defined (heap (mem demo_world))
           (heap (mem demo_world)) demo_full demo_empty 7%Z 42%Z
           owned_demo_full owned_demo_empty).
Defined.

Lemma operands_mirror_witness :
  operator_lt (heap (mem demo_world)) (heap (mem demo_world))
    demo_other demo_full
  = operator_gt (heap (mem demo_world)) (heap (mem demo_world))
      demo_full demo_other.
Proof.
  apply (operands_mirror Z_comparable Z_comparable (heap (mem demo_world))
           (heap (mem demo_world)) demo_other demo_full 7%Z
           Z_lt_mirrors Z_gt_mirrors Z_le_mirrors Z_ge_mirrors Z_eq_mirrors
           Z_ne_mirrors).
Defined.

Lemma three_way_agrees_witness :
  three_way_consistent Z Z ∧
  operator_lt (heap (mem demo_world)) (heap (mem demo_world))
    demo_other demo_full
  = po_is_lt <$> operator_spaceship (heap (mem demo_world))
                   (heap (mem demo_world)) demo_other demo_full.
Proof.
  split; [exact Z_three_way_consistent |].
  apply (three_way_agrees (heap (mem demo_world)) (heap (mem demo_world))
           demo_other demo_full 7%Z Z_three_way_consistent).
Defined.

Lemma three_way_puts_empty_first_witness :
  to_bool demo_empty = false ∧
  operator_spaceship (heap (mem demo_world)) (heap (mem demo_world))
    demo_empty demo_full = Some (ordered less) ∧
  operator_spaceship_raw (heap (mem demo_world)) demo_empty 7%Z
    = Some (ordered less).
Proof.
  split; [reflexivity |].
  destruct (three_way_puts_empty_first (heap (mem demo_world))
              (heap (mem demo_world)) demo_full demo_full demo_empty
              demo_empty 7%Z eq_refl eq_refl)
    as (Hless & _ & _ & Hraw & _).
  split; [exact (Hless eq_refl) | exact Hraw].
Defined.

Lemma hash_respects_equality_witness :
  hash_value (heap (mem demo_world)) demo_empty = Some 0%N ∧
  is_Some (hash_value (heap (mem demo_world)) demo_full).
Proof.
  split.
  - apply (hash_respects_equality (heap (mem demo_world)) demo_empty
             demo_empty Z_hash_respects_eq).
    reflexivity.
  - apply (hash_respects_equality (heap (mem demo_world)) demo_full
             demo_full Z_hash_respects_eq).
    reflexivity.
Defined.

Lemma checked_access_agrees_with_dereference_witness :
  objs (mem demo_world) !! 1%N = Some demo_full ∧
  match operator_star lvalue_ref demo_full with
  | Some r =>
      value lvalue_ref 1%N demo_world = (demo_world, Ok r) ∧
      referent r = arrow demo_full ∧
      (∀ v : Z, star (heap (mem demo_world)) demo_full = Some v →
                read r demo_world = (demo_world, Ok v))
  | None =>
      value lvalue_ref 1%N demo_world
        = (demo_world, Throw bad_indirect_value_access) ∧
      to_bool demo_full = false
  end.
Proof.
  split; [reflexivity |].
  exact (checked_access_agrees_with_dereference lvalue_ref demo_world 1%N
           demo_full eq_refl).
Defined.

Lemma construct_then_destroy_restores_memory_witness :
  objs (mem demo_world) !! 5%N = None ∧
  mem ((in_place_ctor 5%N 99%Z;; dtor default_delete_call 5%N) demo_world).1
    = mem demo_world.
Proof.
  split; [reflexivity |].
  apply (construct_then_destroy_restores_memory demo_world 5%N 99%Z eq_refl).
Defined.

Lemma failed_copy_construction_builds_nothing_witness :
  objs (mem flaky_world) !! 1%N = Some (IndirectValue true DefaultDelete 10%N) ∧
  (copy_ctor flaky_copy_call 5%N 1%N flaky_world).2
    = Throw (policy_error 1) ∧
  trace (copy_ctor flaky_copy_call 5%N 1%N flaky_world).1
    = [copier_called true 42%Z].
Proof.
  split; [reflexivity |].
  destruct (failed_copy_construction_builds_nothing flaky_copy_call
              flaky_world 5%N 1%N (IndirectValue true DefaultDelete 10%N)
              eq_refl) as [_ Hcopier].
  destruct (Hcopier true DefaultDelete 42%Z (policy_error 1)
              eq_refl eq_refl eq_refl eq_refl) as (Hthrow & Htrace & _).
  split; [exact Hthrow | exact Htrace].
Defined.

Lemma copy_then_destroy_restores_memory_witness :
  objs (mem demo_world) !! 5%N = None ∧
  objs (mem demo_world) !! 1%N = Some demo_full ∧
  star (heap (mem demo_world)) demo_full = Some 42%Z ∧
  mem ((copy_ctor default_copy_call 5%N 1%N;;
        dtor default_delete_call 5%N) demo_world).1 = mem demo_world ∧
  copy_ctor (default_copy_call (CopyConstructible0:=fragile_copy_constructible))
    5%N 1%N orphan_world
  = (mkWorld (mem orphan_world) [copier_called DefaultCopy 42%Z],
     Throw (policy_error 5)).
Proof.
  split; [reflexivity |]. split; [reflexivity |]. split; [reflexivity |].
  split.
  - destruct (copy_then_destroy_restores_memory demo_world 5%N 1%N demo_full
                DefaultCopy DefaultDelete 42%Z) as (_ & Hmem & _);
      [reflexivity .. | exact Hmem].
  - refine (copy_then_destroy_restores_memory
              (CopyConstructible0:=fragile_copy_constructible)
              orphan_world 5%N 1%N demo_full DefaultCopy DefaultDelete 42%Z
              _ _ _ _ _); reflexivity.
Defined.

Lemma adoption_then_destruction_witness :
  adopt_ctor 5%N 12%N DefaultCopy DefaultDelete orphan_world
    = ((store 5%N (IndirectValue DefaultCopy DefaultDelete 12%N)
          orphan_world).1, Ok ()) ∧
  ((adopt_ctor 5%N 12%N DefaultCopy DefaultDelete;;
    dtor default_delete_call 5%N) orphan_world).2 = Ok ().
Proof.
  destruct (adoption_then_destruction default_delete_call orphan_world 5%N
              12%N DefaultCopy DefaultDelete) as (Hadopt & _ & Hret).
  split; [exact Hadopt | exact Hret].
Defined.

Lemma failed_copy_assignment_releases_the_copy_witness :
  objs (mem flaky_world) !! 1%N = Some (IndirectValue true DefaultDelete 10%N) ∧
  objs (mem flaky_world) !! 3%N
    = Some (IndirectValue false DefaultDelete 11%N) ∧
  (copy_assign true false).2 = Throws (policy_error 2) ∧
  (copy_assignment flaky_copy_call default_delete_call 1%N 3%N flaky_world).2
    = Throw (policy_error 2) ∧
  deleted (trace (copy_assignment flaky_copy_call default_delete_call 1%N 3%N
                    flaky_world).1)
    = [10%N; fresh_ptr (heap (mem flaky_world))].
Proof.
  split; [reflexivity |]. split; [reflexivity |]. split; [reflexivity |].
  destruct (failed_copy_assignment_releases_the_copy flaky_copy_call
              default_delete_call flaky_world 1%N 3%N
              (IndirectValue true DefaultDelete 10%N)
              (IndirectValue false DefaultDelete 11%N) 7%Z
              (fresh_ptr (heap (mem flaky_world))) (policy_error 2)
              (flaky_copy_contract (T:=Z) (D:=default_delete) Z_eq_op_refl)
              (default_delete_contract (T:=Z) (C:=bool) (D:=default_delete)))
    as (Hthrow & Hdeleted & _);
    [reflexivity | reflexivity | reflexivity | reflexivity
    | left; reflexivity |].
  split; [exact Hthrow | exact Hdeleted].
Defined.

Lemma swap_exchanges_wrappers_witness :
  1%N ≠ 2%N ∧
  objs (mem demo_world) !! 1%N = Some demo_full ∧
  objs (mem demo_world) !! 2%N = Some demo_empty ∧
  swap 1%N 2%N demo_world
  = (mkWorld (mkMem (<[2%N := demo_full]> (<[1%N := demo_empty]>
                       (objs (mem demo_world))))
                    (heap (mem demo_world))) (trace demo_world), Ok ()).
Proof.
  split; [discriminate |]. split; [reflexivity |]. split; [reflexivity |].
  apply (swap_exchanges_wrappers demo_world 1%N 2%N demo_full demo_empty);
    [discriminate | reflexivity ..].
Defined.

Lemma swap_is_an_involution_witness :
  (swap 1%N 2%N;; swap 1%N 2%N) demo_world = (demo_world, Ok ()) ∧
  swap 1%N 1%N demo_world = (demo_world, Ok ()).
Proof.
  destruct (swap_is_an_involution demo_world 1%N 2%N demo_full demo_empty)
    as [Htwice Hself]; [reflexivity .. |].
  split; [apply Htwice; discriminate | exact Hself].
Defined.

Lemma failed_swap_keeps_handles_witness :
  1%N ≠ 3%N ∧
  (swap_op true false).2 = Throws (policy_error 3) ∧
  (swap 1%N 3%N flaky_world).2 = Throw (policy_error 3) ∧
  heap (mem (swap 1%N 3%N flaky_world).1) = heap (mem flaky_world).
Proof.
  split; [discriminate |]. split; [reflexivity |].
  destruct (failed_swap_keeps_handles flaky_world 1%N 3%N
              (IndirectValue true DefaultDelete 10%N)
              (IndirectValue false DefaultDelete 11%N)
              ltac:(discriminate) eq_refl eq_refl) as [Hcopiers _].
  destruct (Hcopiers (policy_error 3)) as (Hthrow & Hheap & _);
    [reflexivity |].
  split; [exact Hthrow | exact Hheap].
Defined.

Lemma assignments_keep_ownership_witness :
  well_formed (mem flaky_world) ∧
  well_formed (mem (copy_assignment flaky_copy_call default_delete_call
                      1%N 3%N flaky_world).1) ∧
  well_formed (mem (move_assignment default_delete_call 1%N 3%N
                      flaky_world).1).
Proof.
  split; [exact flaky_world_well_formed |].
  apply (assignments_keep_ownership flaky_copy_call default_delete_call
           flaky_world 1%N 3%N (IndirectValue true DefaultDelete 10%N)
           (IndirectValue false DefaultDelete 11%N)
           (flaky_copy_contract (T:=Z) (D:=default_delete) Z_eq_op_refl)
           (default_delete_contract (T:=Z) (C:=bool) (D:=default_delete))
           flaky_world_well_formed eq_refl eq_refl).
Defined.


Lemma destruction_keeps_ownership_witness :
  objs (mem demo_world) !! 1%N = Some demo_full ∧
  well_formed (mem (dtor default_delete_call 1%N demo_world).1) ∧
  objs (mem (dtor default_delete_call 1%N demo_world).1)
    = delete 1%N (objs (mem demo_world)) ∧
  (* the release of a list destroys the wrappers in it *)
  objs (mem (dtor (node_delete 8) 1%N list_world).1)
    = delete 1%N
        (objs (released (node_delete 8) 1%N
                 (IndirectValue DefaultCopy DefaultDelete 10%N)
                 (mem list_world))) ∧
  objs (mem (dtor (node_delete 8) 1%N list_world).1) !! 2%N = None ∧
  well_formed (mem (dtor (node_delete 8) 1%N list_world).1).
Proof.
  split; [reflexivity |].
  destruct (destruction_keeps_ownership default_delete_call demo_world 1%N
              demo_full eq_refl) as (_ & _ & _ & _ & Hcontract).
  destruct (Hcontract
              (default_delete_contract (T:=Z) (C:=default_copy)
                 (D:=default_delete))
              demo_world_well_formed) as (Hwf & Hobjs & _).
  destruct (destruction_keeps_ownership (node_delete 8) list_world 1%N
              (IndirectValue DefaultCopy DefaultDelete 10%N) eq_refl)
    as (_ & Hleft & _ & Hkept & _).
  split; [exact Hwf |]. split; [exact Hobjs |]. split; [exact Hleft |].
  split; [reflexivity |].
  exact (Hkept released_list_well_formed).
Defined.

Lemma swap_keeps_ownership_witness :
  well_formed (mem flaky_world) ∧
  well_formed (mem (swap 1%N 3%N flaky_world).1) ∧
  well_formed (mem (swap 3%N 1%N flaky_world).1).
Proof.
  split; [exact flaky_world_well_formed |]. split.
  - apply (swap_keeps_ownership flaky_world 1%N 3%N
             (IndirectValue true DefaultDelete 10%N)
             (IndirectValue false DefaultDelete 11%N)
             flaky_world_well_formed eq_refl eq_refl).
  - apply (swap_keeps_ownership flaky_world 3%N 1%N
             (IndirectValue false DefaultDelete 11%N)
             (IndirectValue true DefaultDelete 10%N)
             flaky_world_well_formed eq_refl eq_refl).
Defined.


Lemma every_release_is_of_a_live_object_witness :
  well_formed (mem flaky_world) ∧
  ∃ evs, trace (copy_assignment flaky_copy_call default_delete_call 1%N 3%N
                  flaky_world).1 = trace flaky_world ++ evs ∧
         Forall deletes_live evs ∧ NoDup (deleted evs).
Proof.
  split; [exact flaky_world_well_formed |].
  destruct (every_release_is_of_a_live_object flaky_copy_call
              default_delete_call flaky_world 1%N 3%N
              (IndirectValue true DefaultDelete 10%N)
              (IndirectValue false DefaultDelete 11%N)
              (flaky_copy_contract (T:=Z) (D:=default_delete) Z_eq_op_refl)
              (default_delete_contract (T:=Z) (C:=bool) (D:=default_delete))
              flaky_world_well_formed eq_refl eq_refl) as (_ & Hcopy & _).
  exact Hcopy.
Defined.

Lemma Z_lt_irreflexive (a : Z) : lt_op a a = false.
Proof. apply Z.ltb_irrefl. Qed.

Lemma Z_lt_transitive (a b c : Z) :
  lt_op a b = true → lt_op b c = true → lt_op a c = true.
Proof. simpl. rewrite !Z.ltb_lt. lia. Qed.

Lemma Z_eq_transitive (a b c : Z) :
  eq_op a b = true → eq_op b c = true → eq_op a c = true.
Proof. simpl. rewrite !Z.eqb_eq. lia. Qed.

Lemma Z_lt_total (a b : Z) :
  lt_op a b = true ∨ eq_op a b = true ∨ lt_op b a = true.
Proof. simpl. rewrite !Z.ltb_lt, Z.eqb_eq. lia. Qed.

Lemma order_laws_lift_witness :
  operator_lt (heap (mem demo_world)) (heap (mem demo_world))
    demo_full demo_full ≠ Some true ∧
  operator_eq (heap (mem demo_world)) (heap (mem demo_world))
    demo_full demo_full = Some true ∧
  (* empty < 7 and 7 < 42 give empty < 42 *)
  operator_lt (heap (mem demo_world)) (heap (mem demo_world))
    demo_empty demo_full = Some true ∧
  operator_eq (heap (mem demo_world)) (heap (mem demo_world))
    demo_empty demo_empty = Some true ∧
  (operator_lt (heap (mem demo_world)) (heap (mem demo_world))
     demo_full demo_other = Some true ∨
   operator_eq (heap (mem demo_world)) (heap (mem demo_world))
     demo_full demo_other = Some true ∨
   operator_lt (heap (mem demo_world)) (heap (mem demo_world))
     demo_other demo_full = Some true).
Proof.
  destruct (order_laws_lift (heap (mem demo_world)) demo_empty demo_other
              demo_full) as (_ & Htrans & _).
  destruct (order_laws_lift (heap (mem demo_world)) demo_full demo_empty
              demo_other) as (Hirr & _ & Hrefl & _).
  destruct (order_laws_lift (heap (mem demo_world)) demo_empty demo_empty
              demo_empty) as (_ & _ & _ & Heqtrans & _).
  destruct (order_laws_lift (heap (mem demo_world)) demo_full demo_other
              demo_empty) as (_ & _ & _ & _ & Htotal).
  split; [exact (Hirr Z_lt_irreflexive) |].
  split; [exact (Hrefl Z_eq_op_refl owned_demo_full) |].
  split; [exact (Htrans Z_lt_transitive eq_refl eq_refl) |].
  split; [exact (Heqtrans Z_eq_transitive eq_refl eq_refl) |].
  exact (Htotal Z_lt_total owned_demo_full owned_demo_other).
Defined.

Lemma moved_from_wrapper_releases_nothing_witness :
  objs (mem demo_world) !! 1%N = Some demo_full ∧ 5%N ≠ 1%N ∧
  deleted (trace ((move_ctor 5%N 1%N;; dtor default_delete_call 1%N;;
                   dtor default_delete_call 5%N) demo_world).1)
    = [10%N].
Proof.
  split; [reflexivity |]. split; [discriminate |].
  destruct (moved_from_wrapper_releases_nothing default_delete_call
              demo_world 5%N 1%N demo_full eq_refl ltac:(discriminate))
    as (_ & _ & _ & _ & Hdeleted).
  exact Hdeleted.
Defined.

(** ** Where the source is a part of what the target owns *)

Lemma move_transfers_ownership_counterexample :
  (* two distinct wrappers of a memory that satisfies the ownership
     invariant: the variable at 1 and the member [child] of its pointee *)
  well_formed (mem list_world) ∧
  objs (mem list_world) !! 1%N
    = Some (IndirectValue DefaultCopy DefaultDelete 10%N) ∧
  heap (mem list_world) !! 10%N = Some (Node 1 2) ∧
  objs (mem list_world) !! 2%N
    = Some (IndirectValue DefaultCopy DefaultDelete 11%N) ∧
  1%N ≠ 2%N ∧
  (* [head = std::move(head->child)] reads the source after the release of
     the node it is a member of, and the rest of the list is lost *)
  (move_assignment (node_delete 8) 1%N 2%N list_world).2 = Undefined ∧
  objs (mem (move_assignment (node_delete 8) 1%N 2%N list_world).1) !! 1%N
    = Some (IndirectValue DefaultCopy DefaultDelete nullptr) ∧
  objs (mem (move_assignment (node_delete 8) 1%N 2%N list_world).1) !! 2%N
    = None ∧
  heap (mem (move_assignment (node_delete 8) 1%N 2%N list_world).1) !! 11%N
    = None ∧
  ¬ ((move_assignment (node_delete 8) 1%N 2%N list_world).2 = Ok () ∧
     objs (mem (move_assignment (node_delete 8) 1%N 2%N list_world).1) !! 1%N
       = Some (IndirectValue DefaultCopy DefaultDelete 11%N) ∧
     ∃ oa', objs (mem (move_assignment (node_delete 8) 1%N 2%N
                         list_world).1) !! 2%N = Some oa' ∧
            to_bool oa' = false).
Proof.
  split; [exact list_world_well_formed |].
  do 3 (split; [reflexivity |]). split; [discriminate |].
  do 4 (split; [vm_compute; reflexivity |]).
  intros [H _]. vm_compute in H. discriminate.
Qed.

